(** * GRR flow execution and task-queue subsystem

    A shallow embedding of the response collator ([grr/lib/flow.py],
    class [Responses]), of the state-handler dispatcher and the flow commit
    protocol ([StateHandler], [FlowBase.Flush], [FlowBase.Close]) and of the
    queue manager ([grr/lib/queue_manager.py]), with the properties of the
    specification proved over it. *)

From stdpp Require Import gmap strings list fin_maps pretty sorting.
From Stdlib Require Import ZArith Lia Ascii.

Local Open Scope Z_scope.

(** ** Exceptions

    Python code that may raise is embedded as a function into [Result]. *)

Inductive Result (E A : Type) : Type :=
| Ok (a : A)
| Raise (e : E).
Arguments Ok {E A} a.
Arguments Raise {E A} e.

(** The exceptions of the modelled code. [DataStoreError] is
    [data_store.Error] and its subclasses other than [DBSubjectLockError];
    [OtherException] is any exception that is none of the others. *)
Inductive Exception :=
| FlowError (text : string)
| RuntimeError (text : string)
| AttributeError
| IOError (text : string)
| LockError
| DBSubjectLockError
| DataStoreError (text : string)
| OtherException (text : string).

(** ** Messages (rdf_flows.GrrMessage) *)

(** [GrrMessage.AuthorizationState]. *)
Inductive AuthorizationState := UNAUTHENTICATED | AUTHENTICATED | DESYNCHRONIZED.

(** [GrrMessage.Type]: the three kinds the collator tells apart. *)
Inductive MessageType := MESSAGE | STATUS | ITERATOR.

(** [GrrStatus.ReturnedStatus]: the collator only compares with [OK]; every
    other return code is an error code. *)
Inductive ReturnedStatus := OK | ERROR_CODE (code : positive).

#[global] Instance AuthorizationState_eq_dec : EqDecision AuthorizationState.
Proof. solve_decision. Defined.
#[global] Instance MessageType_eq_dec : EqDecision MessageType.
Proof. solve_decision. Defined.
#[global] Instance ReturnedStatus_eq_dec : EqDecision ReturnedStatus.
Proof. solve_decision. Defined.

(** [rdf_flows.GrrStatus]: the return code and the text that comes with it. *)
Record GrrStatus := {
  status_code : ReturnedStatus;   (* GrrStatus.status *)
  error_message : string;
}.

(** The client request embedded in a RequestState ([request.request]). *)
Record ClientRequest := {
  name : string;                  (* the client action name *)
  request_task_id : N;
}.

(** [rdf_flows.RequestState]. [request = None] is [not HasField("request")]:
    the request was sent to a flow, not to a client. *)
Record RequestState := {
  request : option ClientRequest;
  client_id : string;
  data : list (string * string);
}.

Section Collator.

(** The payload of a message is an RDF value decoded from the message; the
    collator copies it into a [GrrStatus] (for a status record) or a client
    [Iterator] (for an iterator record) and otherwise hands it to the state
    handler as it is. *)
Context {Payload : Type}.
Context (MakeGrrStatus : Payload -> GrrStatus).   (* rdf_flows.GrrStatus(payload) *)

Record GrrMessage := {
  response_id : Z;
  type : MessageType;
  auth_state : AuthorizationState;
  payload : Payload;
  args_rdf_name : string;         (* the empty string is falsy, like None *)
}.

(** [server_stubs.ClientActionStub.classes]: for each registered client action
    the names of the classes in its [out_rdfvalues]. *)
Definition ActionRegistry := gmap string (list string).

(** *** [responses.sort(key=operator.attrgetter("response_id"))]

    Python's sort is stable; so is this insertion sort: a record is placed
    before the records of the same response id that followed it. *)
Fixpoint insert_by_response_id (m : GrrMessage) (l : list GrrMessage) : list GrrMessage :=
  match l with
  | [] => [m]
  | x :: l' =>
      if response_id m <=? response_id x then m :: x :: l'
      else x :: insert_by_response_id m l'
  end.

Definition sort_by_response_id (l : list GrrMessage) : list GrrMessage :=
  foldr insert_by_response_id [] l.

(** *** class Responses *)

Record Responses := {
  status : option GrrStatus;
  success : bool;
  rs_request : option RequestState;          (* self.request *)
  _auth_required : bool;
  _responses : list GrrMessage;
  _dropped_responses : list GrrMessage;
  iterator : option Payload;                 (* rdf_client.Iterator(msg.payload) *)
}.

(** The authentication check at the head of the filter loop. *)
Definition is_dropped (auth_required : bool) (msg : GrrMessage) : bool :=
  bool_decide (auth_state msg = DESYNCHRONIZED)
  || (auth_required && negb (bool_decide (auth_state msg = AUTHENTICATED))).

(** The loop [for msg in responses:] of [__init__], on the object built so
    far. [continue] is the recursive call, [break] returns. *)
Fixpoint filter_responses (msgs : list GrrMessage) (self : Responses) : Responses :=
  match msgs with
  | [] => self
  | msg :: rest =>
      if is_dropped (_auth_required self) msg then
        filter_responses rest
          {| status := status self; success := success self;
             rs_request := rs_request self; _auth_required := _auth_required self;
             _responses := _responses self;
             _dropped_responses := _dropped_responses self ++ [msg];
             iterator := iterator self |}
      else if bool_decide (type msg = ITERATOR) then
        filter_responses rest
          {| status := status self; success := success self;
             rs_request := rs_request self; _auth_required := _auth_required self;
             _responses := _responses self;
             _dropped_responses := _dropped_responses self;
             iterator := Some (payload msg) |}
      else if bool_decide (type msg = STATUS) then
        let st := MakeGrrStatus (payload msg) in
        {| status := Some st;
           success := bool_decide (status_code st = OK);
           rs_request := rs_request self; _auth_required := _auth_required self;
           _responses := _responses self;
           _dropped_responses := _dropped_responses self;
           iterator := iterator self |}
      else
        filter_responses rest
          {| status := status self; success := success self;
             rs_request := rs_request self; _auth_required := _auth_required self;
             _responses := _responses self ++ [msg];
             _dropped_responses := _dropped_responses self;
             iterator := iterator self |}
  end.

(** [Responses.__init__(request, responses, auth_required)]. [responses] is
    [None] or a list; both [None] and the empty list are falsy. Logging has no
    effect on the result. *)
Definition Responses_init (request : option RequestState)
    (responses : option (list GrrMessage)) (auth_required : bool)
  : Result Exception Responses :=
  let self :=
    {| status := None; success := true; rs_request := request;
       _auth_required := auth_required; _responses := [];
       _dropped_responses := []; iterator := None |} in
  match responses with
  | None | Some [] => Ok self
  | Some responses =>
      let responses := sort_by_response_id responses in
      let self := filter_responses responses self in
      match status self with
      | None => Raise (FlowError "No valid Status message.")
      | Some _ => Ok self
      end
  end.

(** The verification of a MESSAGE record inside the loop of [__iter__]. *)
Definition verify_response (is_client_request : bool)
    (expected_response_classes : list string) (message : GrrMessage)
  : option Exception :=
  if is_client_request then
    match expected_response_classes with
    | [] => Some (RuntimeError "Client action does not specify out_rdfvalue.")
    | _ =>
        if bool_decide (args_rdf_name message = "") then
          Some (RuntimeError "Deprecated message format received: args_rdf_name is None.")
        else if bool_decide (args_rdf_name message ∈ expected_response_classes) then None
        else Some (RuntimeError "Response type was not the expected one.")
    end
  else None.

(** The loop [for message in self._responses:] of [__iter__]: the payloads
    yielded, in order, and the exception that ended the iteration, if any. *)
Fixpoint iter_responses (is_client_request : bool)
    (expected_response_classes : list string)
    (old_response_id : option Z) (msgs : list GrrMessage)
  : list Payload * option Exception :=
  match msgs with
  | [] => ([], None)
  | message :: rest =>
      if bool_decide (Some (response_id message) = old_response_id) then
        (* a retransmission *)
        iter_responses is_client_request expected_response_classes old_response_id rest
      else
        let old_response_id := Some (response_id message) in
        if bool_decide (type message = MESSAGE) then
          match verify_response is_client_request expected_response_classes message with
          | Some e => ([], Some e)
          | None =>
              let '(ys, e) := iter_responses is_client_request
                                expected_response_classes old_response_id rest in
              (payload message :: ys, e)
          end
        else
          iter_responses is_client_request expected_response_classes old_response_id rest
  end.

(** [Responses.__iter__]: a generator; what it yields and how it ends. It
    raises [AttributeError] when [self.request] is [None] (which has no
    [HasField]) and the [RuntimeError]s of the type verification. *)
Definition Responses_iter (action_registry : ActionRegistry) (self : Responses)
  : list Payload * option Exception :=
  match rs_request self with
  | None => ([], Some AttributeError)
  | Some req =>
      match request req with
      | Some client_request =>
          match action_registry !! name client_request with
          | None => ([], Some (RuntimeError "Got unknown client action."))
          | Some out_rdfvalues =>
              iter_responses true out_rdfvalues None (_responses self)
          end
      | None => iter_responses false [] None (_responses self)
      end
  end.

(** [Responses.__len__]. *)
Definition Responses_len (self : Responses) : nat := length (_responses self).

End Collator.

Arguments GrrMessage : clear implicits.
Arguments Responses : clear implicits.

(** *** Vocabulary of the collator's properties *)

Section CollatorVocabulary.
Context {Payload : Type}.

(** The records of a run of equal response ids that the retransmission check
    of [__iter__] lets through: the first of each run. *)
Fixpoint first_of_each_id (old_response_id : option Z) (msgs : list (GrrMessage Payload))
  : list (GrrMessage Payload) :=
  match msgs with
  | [] => []
  | m :: rest =>
      if bool_decide (Some (response_id m) = old_response_id)
      then first_of_each_id old_response_id rest
      else m :: first_of_each_id (Some (response_id m)) rest
  end.

(** [sorted] splits at its first status record [st]. *)
Definition first_status_at (sorted pre : list (GrrMessage Payload))
    (st : GrrMessage Payload) (post : list (GrrMessage Payload)) : Prop :=
  sorted = pre ++ st :: post ∧ type st = STATUS ∧
  Forall (λ m, type m ≠ STATUS) pre.

(** [ms] are the message records of [pre], in the order of [pre], one per
    response id and with strictly ascending response ids. *)
Definition one_per_response_id (pre ms : list (GrrMessage Payload)) : Prop :=
  ms `sublist_of` filter (λ m, type m = MESSAGE) pre ∧
  StronglySorted Z.lt (response_id <$> ms) ∧
  (∀ m, m ∈ pre → type m = MESSAGE → response_id m ∈ (response_id <$> ms)).

(** The request lets every record of [ms] through the verification of
    [__iter__]: there is a request, and it either was not sent to a client or
    names a registered client action whose [out_rdfvalues] hold the type of
    each record. *)
Definition type_check_passes (action_registry : ActionRegistry)
    (req : option RequestState) (ms : list (GrrMessage Payload)) : Prop :=
  ∃ r, req = Some r ∧
    (request r = None ∨
     ∃ cr classes, request r = Some cr ∧ action_registry !! name cr = Some classes ∧
       classes ≠ [] ∧
       Forall (λ m, args_rdf_name m ≠ "" ∧ args_rdf_name m ∈ classes) ms).

End CollatorVocabulary.


(** ** The queue manager ([grr/lib/queue_manager.py]) *)

(** A task: a [GrrMessage] scheduled on a queue, with the fields the queue
    manager reads and writes. Serialization is taken to be faithful
    ([FromSerializedString (SerializeToString t) = t]), so the store holds
    tasks. Times are microseconds since the epoch. *)
Record Task := {
  task_id : N;
  queue : string;
  priority : Z;
  task_ttl : Z;
  eta : Z;
  last_lease : string;
  args : string;
}.

(** [rdf_flows.GrrNotification]. An unset [session_id] is the empty string,
    an unset [first_queued] is zero; both are falsy. *)
Record GrrNotification := {
  session_id : string;
  timestamp : option Z;
  last_status : Z;
  notification_priority : Z;
  in_progress : bool;
  first_queued : Z;
}.

(** The two counters of [QueueManagerInit] in [stats.STATS]. *)
Record Stats := {
  grr_task_ttl_expired_count : nat;
  grr_task_retransmission_count : nat;
}.

(** *** The data store, as the queue manager uses it *)

(** One value of an attribute of a subject: the attribute (predicate), the value
    and the timestamp it was written with. *)
Record Row := {
  predicate : string;
  value : Task;
  row_timestamp : Z;
}.

#[global] Instance Task_eq_dec : EqDecision Task.
Proof. solve_decision. Defined.
#[global] Instance Row_eq_dec : EqDecision Row.
Proof. solve_decision. Defined.

(** The rows of each subject, in the order in which the store returns them. *)
Abbreviation DataStore := (gmap string (list Row)).

Definition rows_of (store : DataStore) (subject : string) : list Row :=
  default [] (store !! subject).

(** Modelled from the spec: [data_store.ResolvePrefix(subject, prefix,
    timestamp=(start, end))] of the key-value store, which is not part of
    these sources: the rows of the subject whose attribute starts with the
    prefix and whose timestamp lies in the range, bounds included. *)
Definition ResolvePrefix (store : DataStore) (subject prefix : string)
    (time_range : Z * Z) : list Row :=
  filter (λ r, String.prefix prefix (predicate r) = true
               ∧ time_range.1 <= row_timestamp r <= time_range.2)
         (rows_of store subject).

(** Modelled from the spec: [data_store.MultiSet(subject, values,
    replace=True, timestamp, to_delete)] of the key-value store, which is not
    part of these sources: the attributes of [to_delete] are cleared, the
    attributes of [values] lose their old values, and each value of [values]
    is written with the timestamp. [values] are the items of the dictionary
    that the caller passes, in the order in which the dictionary yields
    them. *)
Definition MultiSet (store : DataStore) (subject : string)
    (values : list (string * list Task)) (write_timestamp : Z)
    (to_delete : gset string) : DataStore :=
  let kept := filter (λ r, (predicate r ∉ to_delete) ∧ (predicate r ∉ values.*1))
                     (rows_of store subject) in
  let written :=
    values ≫= (λ '(p, vs), (λ v, {| predicate := p; value := v;
                                     row_timestamp := write_timestamp |}) <$> vs) in
  <[subject := kept ++ written]> store.

(** A Python dictionary yields its items in an order of its own, which goes
    by the hashes of the keys and not by the order in which they were
    inserted: [iteritems] gives some arrangement of the items of a
    dictionary, whatever the types of its keys and values. *)
Record DictOrder := {
  iteritems : ∀ K V : Type, list (K * V) → list (K * V);
  iteritems_order : ∀ (K V : Type) (d : list (K * V)), iteritems K V d ≡ₚ d;
}.
Arguments iteritems _ {K V} d.
Arguments iteritems_order _ {K V} d.

(** What the process sees of its surroundings during one call: the clock,
    the host, the order in which the interpreter goes through a dictionary,
    and whether a call into the data store raises. *)
Record Env := {
  Now : Z;                                  (* rdfvalue.RDFDatetime.Now() *)
  time_time : Z;                            (* long(time.time() * 1e6) *)
  gethostname : string;
  getpid : Z;
  dict_order : DictOrder;
  LockRetryWrapper_raises : option Exception;
  ResolvePrefix_raises : option Exception;
  MultiSet_raises : option Exception;
}.

(** A Python dictionary of lists, as [setdefault(k, []).append(v)] builds it
    and as [utils.GroupBy] (a helper outside these sources, which groups the
    items by their key) returns it: the keys with their values. The list
    keeps the keys in the order of their first occurrence; code that goes
    through the dictionary takes its items in the order of [iteritems]. *)
Fixpoint setdefault_append {K A} `{EqDecision K} (k : K) (a : A)
    (d : list (K * list A)) : list (K * list A) :=
  match d with
  | [] => [(k, [a])]
  | (k', vs) :: d' =>
      if decide (k = k') then (k', vs ++ [a]) :: d'
      else (k', vs) :: setdefault_append k a d'
  end.

Definition GroupBy {K A} `{EqDecision K} (items : list A) (key : A → K)
  : list (K * list A) :=
  foldl (λ d a, setdefault_append (key a) a d) [] items.

(** [dict(pairs)]: a later pair replaces an earlier one with the same key. *)
Fixpoint dict_set {K V} `{EqDecision K} (k : K) (v : V) (d : list (K * V))
  : list (K * V) :=
  match d with
  | [] => [(k, v)]
  | (k', v') :: d' =>
      if decide (k = k') then (k', v) :: d' else (k', v') :: dict_set k v d'
  end.

Definition dict {K V} `{EqDecision K} (pairs : list (K * V)) : list (K * V) :=
  foldl (λ d kv, dict_set kv.1 kv.2 d) [] pairs.

(** *** Columns of tasks *)

Definition TASK_PREDICATE_PREFIX : string := "task:".

Fixpoint zeros (n : nat) : string :=
  match n with
  | O => ""
  | S n => "0" +:+ zeros n
  end.

(** ["%08d" % task_id] for a task id, which is not negative. *)
Definition format_08d (task_id : N) : string :=
  let digits := pretty task_id in
  zeros (8 - String.length digits) +:+ digits.

(** [QueueManager._TaskIdToColumn]. *)
Definition _TaskIdToColumn (task_id : N) : string :=
  TASK_PREDICATE_PREFIX +:+ format_08d task_id.

(** [queue.Add(str(i))] on an RDFURN. *)
Definition urn_Add (urn : string) (component : string) : string :=
  urn +:+ "/" +:+ component.

Section QueueManagerModel.

Context {Payload : Type}.
(** [rdf_flows.GrrMessage.max_ttl], a constant of a class outside these
    sources. *)
Context (max_ttl : Z).
(** [session_id.Queue()], the queue of a session id, and [client_id.Queue()],
    the task queue of a client; both belong to [rdfvalue], outside these
    sources. *)
Context (SessionQueue : string → string) (ClientQueue : string → string).

(** A write that reaches the data store. *)
Inductive StoreWrite :=
| StoreRequestsAndResponses
    (new_requests : list (RequestState * option Z))
    (new_responses : list (GrrMessage Payload * option Z))
    (requests_to_delete : list RequestState)
| DeleteAttributes (subject : string) (predicates : list string)
| ScheduleTasks (subject : string) (to_schedule : list (string * list Task))
    (write_timestamp : option Z)
| CreateNotifications (queue_shard : string) (notifications : list GrrNotification)
| WriteAttributes (urn : string) (attributes : list (string * string)).

(** Modelled from the spec: the mutation pool of the data store, which is not
    part of these sources, buffers writes and sends them to the store as one
    unit when it is flushed; leaving its [with] block flushes it. *)
Definition MutationPool := list StoreWrite.

Record QueueManager := {
  token : option string;                     (* token.username *)
  request_queue : list (RequestState * option Z);
  response_queue : list (GrrMessage Payload * option Z);
  requests_to_delete : list RequestState;
  client_messages_to_delete : list (string * list N);
  new_client_messages : list (Task * option Z);
  notifications : gmap string GrrNotification;
  prev_frozen_timestamps : list (option Z);
  frozen_timestamp : option Z;
  num_notification_shards : Z;
}.

(** [QueueManager.__init__]. *)
Definition QueueManager_init (token : option string) (queue_shards : Z) : QueueManager :=
  {| token := token; request_queue := []; response_queue := [];
     requests_to_delete := []; client_messages_to_delete := [];
     new_client_messages := []; notifications := ∅;
     prev_frozen_timestamps := []; frozen_timestamp := None;
     num_notification_shards := queue_shards |}.

(** [self.frozen_timestamp or rdfvalue.RDFDatetime.Now()]: a frozen timestamp
    is a value that [Now()] returned to [FreezeTimestamp], which is not zero. *)
Definition frozen_timestamp_or_Now (self : QueueManager) (env : Env) : Z :=
  match frozen_timestamp self with
  | Some t => t
  | None => Now env
  end.

(** [if timestamp is None: timestamp = self.frozen_timestamp]. *)
Definition timestamp_or_frozen (self : QueueManager) (ts : option Z) : option Z :=
  match ts with
  | None => frozen_timestamp self
  | Some t => Some t
  end.

(** *** [QueueNotification] *)

(** The key ["%s!%s" % (session_id, ts_str)]. *)
Definition notification_key (session_id : string) (ts : option Z) : string :=
  session_id +:+ "!" +:+
  match ts with
  | None => "None"
  | Some t => pretty t
  end.

Definition set_timestamp (n : GrrNotification) (ts : option Z) : GrrNotification :=
  {| session_id := session_id n; timestamp := ts; last_status := last_status n;
     notification_priority := notification_priority n;
     in_progress := in_progress n; first_queued := first_queued n |}.

Definition set_notifications (self : QueueManager)
    (ns : gmap string GrrNotification) : QueueManager :=
  {| token := token self; request_queue := request_queue self;
     response_queue := response_queue self;
     requests_to_delete := requests_to_delete self;
     client_messages_to_delete := client_messages_to_delete self;
     new_client_messages := new_client_messages self;
     notifications := ns;
     prev_frozen_timestamps := prev_frozen_timestamps self;
     frozen_timestamp := frozen_timestamp self;
     num_notification_shards := num_notification_shards self |}.

(** [QueueManager.QueueNotification(notification, timestamp)]. The
    notification is given (a caller that passes keywords has it built from
    them). The buffer holds the notification as this call leaves it, with the
    timestamp of this call. *)
Definition QueueNotification (self : QueueManager) (notification : GrrNotification)
    (ts : option Z) : QueueManager :=
  if bool_decide (session_id notification = "") then self
  else
    let ts := timestamp_or_frozen self ts in
    let notification := set_timestamp notification ts in
    let key := notification_key (session_id notification) ts in
    match notifications self !! key with
    | Some existing =>
        if last_status existing <? last_status notification
        then set_notifications self (<[key := notification]> (notifications self))
        else self
    | None => set_notifications self (<[key := notification]> (notifications self))
    end.

(** *** [QueryAndOwn] *)

(** The local variables of [_QueryAndOwn], with the counters of [stats.STATS]. *)
Record Scan := {
  tasks : list Task;
  delete_attrs : gset string;
  serialized_tasks_dict : list (string * list Task);
  scan_stats : Stats;
}.

(** The task read from a row, with [eta], [last_lease] and the decremented
    [task_ttl]. *)
Definition leased_task (lease_tag : string) (r : Row) : Task :=
  {| task_id := task_id (value r); queue := queue (value r);
     priority := priority (value r);
     task_ttl := task_ttl (value r) - 1;
     eta := row_timestamp r;
     last_lease := lease_tag;
     args := args (value r) |}.

(** The loop [for predicate, task, timestamp in ...ResolvePrefix(...)] of
    [_QueryAndOwn]; [break] returns. *)
Fixpoint scan_tasks (limit : Z) (lease_tag : string) (rows : list Row) (s : Scan) : Scan :=
  match rows with
  | [] => s
  | r :: rest =>
      let task := leased_task lease_tag r in
      if task_ttl task <=? 0 then
        scan_tasks limit lease_tag rest
          {| tasks := tasks s;
             delete_attrs := delete_attrs s ∪ {[ predicate r ]};
             serialized_tasks_dict := serialized_tasks_dict s;
             scan_stats :=
               {| grr_task_ttl_expired_count :=
                    S (grr_task_ttl_expired_count (scan_stats s));
                  grr_task_retransmission_count :=
                    grr_task_retransmission_count (scan_stats s) |} |}
      else
        let s' :=
          {| tasks := tasks s ++ [task];
             delete_attrs := delete_attrs s;
             serialized_tasks_dict :=
               setdefault_append (predicate r) task (serialized_tasks_dict s);
             scan_stats :=
               if bool_decide (task_ttl task ≠ max_ttl - 1) then
                 {| grr_task_ttl_expired_count :=
                      grr_task_ttl_expired_count (scan_stats s);
                    grr_task_retransmission_count :=
                      S (grr_task_retransmission_count (scan_stats s)) |}
               else scan_stats s |} in
        if Z.of_nat (length (tasks s')) >=? limit then s'
        else scan_tasks limit lease_tag rest s'
  end.

(** ["%s@%s:%d" % (user, socket.gethostname(), os.getpid())]. *)
Definition lease_tag_of (user : string) (env : Env) : string :=
  user +:+ "@" +:+ gethostname env +:+ ":" +:+ pretty (getpid env).

(** [QueueManager._QueryAndOwn(subject, lease_seconds, limit, user)]: what it
    returns or raises, the data store and the counters afterwards.
    [lease_seconds] is a whole number of seconds, so [long(lease_seconds *
    1e6)] is exact. *)
Definition _QueryAndOwn (self : QueueManager) (env : Env) (subject : string)
    (lease_seconds : Z) (limit : Z) (user : string)
    (store : DataStore) (stats : Stats)
  : Result Exception (list Task) * DataStore * Stats :=
  let lease := lease_seconds * 1000000 in
  match ResolvePrefix_raises env with
  | Some e => (Raise e, store, stats)
  | None =>
      let rows := ResolvePrefix store subject TASK_PREDICATE_PREFIX
                    (0, frozen_timestamp_or_Now self env) in
      let s := scan_tasks limit (lease_tag_of user env) rows
                 {| tasks := []; delete_attrs := ∅;
                    serialized_tasks_dict := []; scan_stats := stats |} in
      if bool_decide (delete_attrs s ≠ ∅ ∨ serialized_tasks_dict s ≠ []) then
        match MultiSet_raises env with
        | Some e => (Raise e, store, scan_stats s)
        | None =>
            (Ok (tasks s),
             MultiSet store subject
               (iteritems (dict_order env) (serialized_tasks_dict s))
               (time_time env + lease) (delete_attrs s),
             scan_stats s)
        end
      else (Ok (tasks s), store, scan_stats s)
  end.

(** [QueueManager.QueryAndOwn(queue, lease_seconds, limit)].

    Modelled from the spec: [data_store.LockRetryWrapper], which is not part
    of these sources, yields a lock on the subject or raises; the subject of
    the lock is the queue. *)
Definition QueryAndOwn (self : QueueManager) (env : Env) (queue : string)
    (lease_seconds : Z) (limit : Z) (store : DataStore) (stats : Stats)
  : Result Exception (list Task) * DataStore * Stats :=
  let user := default "" (token self) in
  let '(result, store', stats') :=
    match LockRetryWrapper_raises env with
    | Some e => (Raise e, store, stats)
    | None => _QueryAndOwn self env queue lease_seconds limit user store stats
    end in
  match result with
  | Ok tasks => (Ok tasks, store', stats')
  | Raise DBSubjectLockError => (Ok [], store', stats')
  | Raise (DataStoreError _) => (Ok [], store', stats')
  | Raise e => (Raise e, store', stats')
  end.

(** *** [Flush] and the operations it calls *)

(** [QueueManager.Delete(queue, tasks, mutation_pool)] with a mutation pool,
    as [Flush] calls it; [tasks] are task ids. *)
Definition Delete (q : string) (task_ids : list N) (pool : MutationPool) : MutationPool :=
  if bool_decide (q = "") then pool
  else pool ++ [DeleteAttributes q (_TaskIdToColumn <$> task_ids)].

(** [QueueManager.Schedule(tasks, timestamp, mutation_pool)] with a mutation
    pool, as [Flush] calls it. *)
Definition Schedule (self : QueueManager) (env : Env) (scheduled : list Task)
    (ts : option Z) (pool : MutationPool) : MutationPool :=
  let ts := timestamp_or_frozen self ts in
  foldl (λ pool '(q, queued_tasks),
           if bool_decide (q = "") then pool
           else
             let to_schedule :=
               dict ((λ task, (_TaskIdToColumn (task_id task), [task])) <$> queued_tasks) in
             pool ++ [ScheduleTasks q to_schedule ts])
        pool (iteritems (dict_order env) (GroupBy scheduled queue)).

(** The exception of Python for a division or a modulo by zero. *)
Definition ZeroDivisionError : Exception :=
  OtherException "ZeroDivisionError: integer division or modulo by zero".

(** [QueueManager.GetNotificationShard(queue)], with the counters of the class
    attribute [notification_shard_counters]: the shard or the exception, and
    the counters. The counter of the queue goes up before the modulo is
    taken, so also when the call raises. The modulo of Python has the sign of
    the divisor, as [Z.modulo] has, and raises [ZeroDivisionError] for the
    divisor zero. *)
Definition GetNotificationShard (self : QueueManager) (q : string)
    (counters : gmap string Z) : Result Exception string * gmap string Z :=
  let count := default 0 (counters !! q) + 1 in
  let counters := <[q := count]> counters in
  if bool_decide (num_notification_shards self = 0) then
    (Raise ZeroDivisionError, counters)
  else
    let notification_shard_index := count `mod` num_notification_shards self in
    (Ok (if 0 <? notification_shard_index
         then urn_Add q (pretty notification_shard_index) else q),
     counters).

Definition notification_expiry_time : Z := 600.

Definition set_first_queued (n : GrrNotification) (t : Z) : GrrNotification :=
  {| session_id := session_id n; timestamp := timestamp n;
     last_status := last_status n;
     notification_priority := notification_priority n;
     in_progress := in_progress n; first_queued := t |}.

(** [QueueManager._MultiNotifyQueue(queue, notifications, mutation_pool)]: the
    pool or the exception, and the shard counters. *)
Definition _MultiNotifyQueue (self : QueueManager) (env : Env) (q : string)
    (ns : list GrrNotification) (pool : MutationPool) (counters : gmap string Z)
  : Result Exception MutationPool * gmap string Z :=
  let now := Now env in
  let notification_list :=
    omap (λ notification,
            if bool_decide (first_queued notification = 0) then
              Some (set_first_queued notification (frozen_timestamp_or_Now self env))
            else if (now - first_queued notification) `div` 1000000
                    >=? notification_expiry_time
            then None   (* around for too long: dropped *)
            else Some notification) ns in
  let '(shard, counters) := GetNotificationShard self q counters in
  match shard with
  | Ok shard => (Ok (pool ++ [CreateNotifications shard notification_list]), counters)
  | Raise e => (Raise e, counters)
  end.

(** [QueueManager.NotifyQueue(notification, mutation_pool=...)]. *)
Definition NotifyQueue (self : QueueManager) (env : Env)
    (notification : GrrNotification) (pool : MutationPool)
    (counters : gmap string Z) : Result Exception MutationPool * gmap string Z :=
  _MultiNotifyQueue self env (SessionQueue (session_id notification))
    [notification] pool counters.

(** The loop [for notification in self.notifications.itervalues()] of
    [Flush]; an exception ends it. *)
Fixpoint notify_each (self : QueueManager) (env : Env)
    (ns : list GrrNotification) (pool : MutationPool) (counters : gmap string Z)
  : Result Exception MutationPool * gmap string Z :=
  match ns with
  | [] => (Ok pool, counters)
  | notification :: ns =>
      let '(notified, counters) := NotifyQueue self env notification pool counters in
      match notified with
      | Ok pool => notify_each self env ns pool counters
      | Raise e => (Raise e, counters)
      end
  end.

(** [QueueManager.Flush()]: the manager with its buffers emptied, or the
    exception that ends the flush; the shard counters; and the writes in the
    order in which they reach the data store, which is taken to accept them.
    When a notification finds no shard, the exception leaves the flush after
    the requests, the responses and the tasks are written: the pool, which
    holds the notifications, is not flushed, and the buffers are not
    emptied. *)
Definition QueueManager_Flush (self : QueueManager) (env : Env)
    (counters : gmap string Z)
  : Result Exception QueueManager * gmap string Z * list StoreWrite :=
  let requests_written :=
    [StoreRequestsAndResponses (request_queue self) (response_queue self)
       (requests_to_delete self)] in
  (* with mutation_pool: *)
  let pool : MutationPool := [] in
  let pool :=
    foldl (λ pool '(client_id, messages), Delete (ClientQueue client_id) messages pool)
          pool (iteritems (dict_order env) (client_messages_to_delete self)) in
  let pool :=
    if bool_decide (new_client_messages self ≠ []) then
      foldl (λ pool '(ts, messages), Schedule self env (messages.*1) ts pool)
            pool (iteritems (dict_order env) (GroupBy (new_client_messages self) snd))
    else pool in
  let tasks_written := pool in          (* leaving the block flushes the pool *)
  let pool : MutationPool := [] in
  let '(notified, counters) :=
    if bool_decide (notifications self ≠ ∅) then
      notify_each self env
        (iteritems (dict_order env) (map_to_list (notifications self))).*2
        pool counters
      (* mutation_pool.Flush() *)
    else (Ok [], counters) in
  match notified with
  | Ok notifications_written =>
      (Ok {| token := token self; request_queue := []; response_queue := [];
             requests_to_delete := []; client_messages_to_delete := [];
             new_client_messages := []; notifications := ∅;
             prev_frozen_timestamps := prev_frozen_timestamps self;
             frozen_timestamp := frozen_timestamp self;
             num_notification_shards := num_notification_shards self |},
       counters,
       requests_written ++ tasks_written ++ notifications_written)
  | Raise e => (Raise e, counters, requests_written ++ tasks_written)
  end.

End QueueManagerModel.

Arguments StoreWrite : clear implicits.
Arguments QueueManager : clear implicits.
Arguments MutationPool : clear implicits.

(** ** Flows ([grr/lib/flow.py]): the dispatcher and the commit protocol *)

(** [PendingFlowTermination]. *)
Record PendingFlowTermination := {
  reason : option string;
}.

(** The class of a flow object decides which [FlushMessages] it has: the one
    of [FlowBase], or the one of [WellKnownFlow], which does nothing. *)
Inductive FlowClass := GRRFlow | WellKnownFlow.

(** ["r" in self.mode], ["w" in self.mode]. *)
Fixpoint char_in (c : ascii) (s : string) : bool :=
  match s with
  | EmptyString => false
  | String c' s' => bool_decide (c = c') || char_in c s'
  end.

Section FlowModel.

Context {Payload : Type}.
Context (MakeGrrStatus : Payload → GrrStatus).
Context (SessionQueue : string → string) (ClientQueue : string → string).
(** [config.CONFIG["Worker.queue_shards"]]. *)
Context (Worker_queue_shards : Z).

(** Modelled from the spec: the flow runner ([flow_runner.FlowRunner]), which
    is not part of these sources, owns the queue manager that buffers the new
    tasks, requests, deletions and notifications of the flow. *)
Record FlowRunner := {
  queue_manager : QueueManager Payload;
}.

(** A flow object. [PENDING_TERMINATION] is the attribute of the flow as the
    data store holds it, which is what [self.Get] returns once the object is
    open for reading; the context, arguments and state are kept in their
    serialized form; [new_attributes] are the attributes set on the object and
    not written yet. [lease_expired] tells that the object is locked and its
    lease has run out. *)
Record Flow := {
  urn : string;
  mode : string;
  flow_class : FlowClass;
  flow_token : option string;
  lease_expired : bool;
  PENDING_TERMINATION : option PendingFlowTermination;
  context : option string;
  flow_args : string;
  runner_args : string;
  state : string;
  new_attributes : list (string * string);
  runner : option FlowRunner;
}.

Definition set_runner (self : Flow) (r : option FlowRunner) : Flow :=
  {| urn := urn self; mode := mode self; flow_class := flow_class self;
     flow_token := flow_token self; lease_expired := lease_expired self;
     PENDING_TERMINATION := PENDING_TERMINATION self; context := context self;
     flow_args := flow_args self; runner_args := runner_args self;
     state := state self; new_attributes := new_attributes self; runner := r |}.

Definition set_new_attributes (self : Flow) (attrs : list (string * string)) : Flow :=
  {| urn := urn self; mode := mode self; flow_class := flow_class self;
     flow_token := flow_token self; lease_expired := lease_expired self;
     PENDING_TERMINATION := PENDING_TERMINATION self; context := context self;
     flow_args := flow_args self; runner_args := runner_args self;
     state := state self; new_attributes := attrs; runner := runner self |}.

Definition set_PENDING_TERMINATION (self : Flow)
    (p : option PendingFlowTermination) : Flow :=
  {| urn := urn self; mode := mode self; flow_class := flow_class self;
     flow_token := flow_token self; lease_expired := lease_expired self;
     PENDING_TERMINATION := p; context := context self;
     flow_args := flow_args self; runner_args := runner_args self;
     state := state self; new_attributes := new_attributes self;
     runner := runner self |}.

(** *** What a flow does, in order *)

Inductive Event :=
| Hook (name : string)                       (* Save(), Load() *)
| Write (w : StoreWrite Payload)             (* a write that reaches the store *)
| RunnerError (backtrace : option string)    (* runner.Error(backtrace) *)
| SaveResourceUsage (st : GrrStatus)         (* runner.SaveResourceUsage *)
| IncrementCounter (name : string)           (* stats.STATS.IncrementCounter *)
| HandlerStep (what : string).               (* a step of a state handler *)

(** A computation: the events up to its end, and its result or the exception
    that ends it. State is passed explicitly. *)
Definition M (A : Type) : Type := list Event * Result Exception A.

Definition ret {A} (a : A) : M A := ([], Ok a).
Definition raise {A} (e : Exception) : M A := ([], Raise e).
Definition emit (e : Event) : M unit := ([e], Ok tt).

Definition bind {A B} (c : M A) (k : A → M B) : M B :=
  match c with
  | (t, Ok a) => let '(t', r) := k a in (t ++ t', r)
  | (t, Raise e) => (t, Raise e)
  end.

Notation "x <- c ;;; k" := (bind c (λ x, k))
  (at level 100, c at next level, right associativity).
Notation "c ;;; k" := (bind c (λ _, k))
  (at level 100, right associativity).

(** *** [StateHandler]: the dispatcher [Decorated] *)

(** [GRRFlow.Error(backtrace)]: [self.runner.Error(backtrace)].

    Modelled from the spec: [FlowRunner.Error], which is not part of these
    sources, puts the flow into the ERROR state with the backtrace. *)
Definition Error (self : Flow) (backtrace : option string) : M unit :=
  match runner self with
  | None => raise AttributeError
  | Some _ => emit (RunnerError backtrace)
  end.

(** [GRRFlow.CreateRunner] and [FlowBase.GetRunner].

    Modelled from the spec: a new [FlowRunner], which is not part of these
    sources, starts with a queue manager that has nothing buffered. *)
Definition CreateRunner (self : Flow) : Flow * FlowRunner :=
  let r := {| queue_manager := QueueManager_init (flow_token self) Worker_queue_shards |} in
  (set_runner self (Some r), r).

Definition GetRunner (self : Flow) : Flow * FlowRunner :=
  match runner self with
  | Some r => (self, r)
  | None => CreateRunner self
  end.

(** The [responses] argument of a state method: nothing, a list of messages,
    or a collator ([isinstance(responses, Responses)]). *)
Inductive ResponsesArgument :=
| NoResponses
| ResponseList (l : list (GrrMessage Payload))
| Collated (r : Responses Payload).

(** A state method [f]: it gets the flow and the collator, and returns the
    flow and its result. *)
Definition StateMethod := Flow → Responses Payload → M (Flow * string).

(** [Decorated(self, responses, request, direct_response)] for the state
    method [f] of name [f_name], decorated with
    [StateHandler(auth_required)]. The result is [None] or what [f]
    returns. *)
Definition Decorated (auth_required : bool) (f_name : string) (f : StateMethod)
    (self : Flow) (responses : ResponsesArgument)
    (req : option RequestState) (direct_response : option (Responses Payload))
  : M (Flow * option string) :=
  let check :=
    if char_in "r" (mode self) then PENDING_TERMINATION self else None in
  match check with
  | Some pending_termination =>
      Error self (reason pending_termination) ;;;
      ret (self, None)
  | None =>
      let '(self, _) := GetRunner self in
      match direct_response with
      | Some direct_response =>
          bind (f self direct_response) (λ '(self, res), ret (self, Some res))
      | None =>
          responses <-
            match responses with
            | Collated r => ret r
            | NoResponses =>
                match Responses_init MakeGrrStatus req None auth_required with
                | Ok r => ret r
                | Raise e => raise e
                end
            | ResponseList l =>
                match Responses_init MakeGrrStatus req (Some l) auth_required with
                | Ok r => ret r
                | Raise e => raise e
                end
            end ;;;
          match status responses with
          | Some st => emit (SaveResourceUsage st)
          | None => ret tt
          end ;;;
          emit (IncrementCounter "grr_worker_states_run") ;;;
          (if bool_decide (f_name = "Start")
           then emit (IncrementCounter "flow_starts") else ret tt) ;;;
          bind (f self responses) (λ '(self, res), ret (self, Some res))
      end
  end.

(** [GRRFlow.MarkForTermination(flow_urn, reason)]: a blind write of the
    attribute into the data store, here on the attributes of the flow. *)
Definition MarkForTermination (flow : Flow) (why : option string) : Flow :=
  set_PENDING_TERMINATION flow (Some {| reason := why |}).

(** *** The commit protocol: [Flush] and [Close] *)

(** Modelled from the spec: [CheckLease] of the AFF4 object, which is not part
    of these sources, verifies that the lease on the flow object has not
    expired, and fails if it has. *)
Definition CheckLease (self : Flow) : M unit :=
  if lease_expired self then raise LockError else ret tt.

(** [FlowBase.Save] and [FlowBase.Load]: hook points. *)
Definition Save (self : Flow) : M unit := emit (Hook "Save").
Definition Load (self : Flow) : M unit := emit (Hook "Load").

(** [GRRFlow._ValidateState], and its override in [WellKnownFlow], which
    does nothing: for a well-known flow it is not an error to write an empty
    state. *)
Definition _ValidateState (self : Flow) : M unit :=
  match flow_class self with
  | WellKnownFlow => ret tt
  | GRRFlow =>
      match context self with
      | None =>
          raise (IOError ("Trying to write a flow without context: "
                          +:+ urn self +:+ "."))
      | Some _ => ret tt
      end
  end.

(** [GRRFlow.WriteState].

    Modelled from the spec: the RDF values of the attributes
    ([self.Schema.FLOW_CONTEXT] and the others), which are not part of these
    sources, are kept in their serialized form; the context built from
    [None], which only a well-known flow gets to write, is the empty
    context. *)
Definition WriteState (self : Flow) : M Flow :=
  if char_in "w" (mode self) then
    _ValidateState self ;;;
    ret (set_new_attributes self
           (new_attributes self ++
            [("aff4:flow_args", flow_args self);
             ("aff4:flow_context", default "" (context self));
             ("aff4:flow_runner_args", runner_args self);
             ("aff4:flow_state_dict", state self)]))
  else ret self.

(** Modelled from the spec: [Flush] and [Close] of the AFF4 object
    ([super(FlowBase, self).Flush], [.Close]), which are not part of these
    sources, persist the attributes set on the object as one write. *)
Definition AFF4_Flush (self : Flow) : M Flow :=
  match new_attributes self with
  | [] => ret self
  | attrs =>
      emit (Write (WriteAttributes (urn self) attrs)) ;;;
      ret (set_new_attributes self [])
  end.

Definition AFF4_Close (self : Flow) : M Flow := AFF4_Flush self.

(** [FlushMessages]: [self.GetRunner().FlushMessages()] in [FlowBase], nothing
    in [WellKnownFlow].

    Modelled from the spec: [FlowRunner.FlushMessages], which is not part of
    these sources, flushes the queue manager of the runner; an exception of
    that flush goes on to the caller. *)
Definition FlushMessages (env : Env) (self : Flow) (counters : gmap string Z)
  : M (Flow * gmap string Z) :=
  match flow_class self with
  | WellKnownFlow => ret (self, counters)
  | GRRFlow =>
      let '(self, r) := GetRunner self in
      let '(flushed, counters, writes) :=
        QueueManager_Flush SessionQueue ClientQueue (queue_manager r) env counters in
      (Write <$> writes,
       match flushed with
       | Ok qm => Ok (set_runner self (Some {| queue_manager := qm |}), counters)
       | Raise e => Raise e
       end)
  end.

(** [FlowBase.Flush]. *)
Definition FlowBase_Flush (env : Env) (self : Flow) (counters : gmap string Z)
  : M (Flow * gmap string Z) :=
  (* Check for Lock expiration first. *)
  CheckLease self ;;;
  Save self ;;;
  self <- WriteState self ;;;
  Load self ;;;
  self <- AFF4_Flush self ;;;
  (* Writing the messages queued in the queue_manager of the runner always has
     to be the last thing that happens. *)
  FlushMessages env self counters.

(** [FlowBase.Close]. *)
Definition FlowBase_Close (env : Env) (self : Flow) (counters : gmap string Z)
  : M (Flow * gmap string Z) :=
  CheckLease self ;;;
  Save self ;;;
  self <- WriteState self ;;;
  self <- AFF4_Close self ;;;
  FlushMessages env self counters.

End FlowModel.

Arguments Flow : clear implicits.
Arguments FlowRunner : clear implicits.
Arguments Event : clear implicits.
Arguments M : clear implicits.
Arguments ResponsesArgument : clear implicits.
Arguments StateMethod : clear implicits.

(** *** Vocabulary of the queue manager's properties *)

(** Of the rows that a call scans: those whose task is leased, and those whose
    task is dropped because the decremented TTL is zero or less. *)
Definition survivors (scanned : list Row) : list Row :=
  filter (λ r, 1 < task_ttl (value r)) scanned.

Definition expired (scanned : list Row) : list Row :=
  filter (λ r, task_ttl (value r) <= 1) scanned.

(** The row that a lease writes back for a scanned row. *)
Definition leased_row (lease_tag : string) (write_timestamp : Z) (r : Row) : Row :=
  {| predicate := predicate r; value := leased_task lease_tag r;
     row_timestamp := write_timestamp |}.

(** The pairs of a dictionary of lists. *)
Definition entries {K A} (d : list (K * list A)) : list (K * A) :=
  d ≫= (λ '(k, vs), (λ v, (k, v)) <$> vs).

(** The exceptions that [QueryAndOwn] catches. *)
Definition is_caught (e : Exception) : Prop :=
  e = DBSubjectLockError ∨ ∃ text, e = DataStoreError text.

(** The data store raises [e] during the call: when the lock is taken, when
    the tasks are read, or when the leases are written. *)
Definition raised_during_leasing (env : Env) (e : Exception) : Prop :=
  LockRetryWrapper_raises env = Some e
  ∨ (LockRetryWrapper_raises env = None ∧ ResolvePrefix_raises env = Some e)
  ∨ (LockRetryWrapper_raises env = None ∧ ResolvePrefix_raises env = None
     ∧ MultiSet_raises env = Some e).

(** No call into the data store raises: the lock is obtained and the store
    answers. *)
Definition store_answers (env : Env) : Prop :=
  LockRetryWrapper_raises env = None ∧ ResolvePrefix_raises env = None
  ∧ MultiSet_raises env = None.

(** Each task of the queue is stored once, in the column of its task id, as
    [Schedule] writes it. *)
Definition queue_well_formed (rows : list Row) : Prop :=
  NoDup (predicate <$> rows)
  ∧ Forall (λ r, predicate r = _TaskIdToColumn (task_id (value r))) rows.

(** A column and a task id are those of a row of [rows]. *)
Definition comes_from (rows : list Row) (p : string) (i : N) : Prop :=
  ∃ r, r ∈ rows ∧ p = predicate r ∧ i = task_id (value r).

(** The entry of the buffer of notifications holds a notification whose
    [last_status] is at least [x]. *)
Definition at_least (x : Z) (entry : option GrrNotification) : Prop :=
  ∃ n, entry = Some n ∧ x <= last_status n.

(** One call of a sequence of calls of [QueryAndOwn] on a queue. *)
Record Call {Payload : Type} := {
  call_manager : QueueManager Payload;
  call_env : Env;
  call_lease_seconds : Z;
  call_limit : Z;
}.
Arguments Call : clear implicits.

(** What a sequence of calls on a queue returns, call by call, and the data
    store and the counters after them. *)
Fixpoint QueryAndOwn_repeatedly {Payload} (max_ttl : Z) (q : string)
    (calls : list (Call Payload)) (store : DataStore) (stats : Stats)
  : list (Result Exception (list Task)) * DataStore * Stats :=
  match calls with
  | [] => ([], store, stats)
  | c :: calls =>
      let '(result, store, stats) :=
        QueryAndOwn max_ttl (call_manager c) (call_env c) q
          (call_lease_seconds c) (call_limit c) store stats in
      let '(results, store, stats) :=
        QueryAndOwn_repeatedly max_ttl q calls store stats in
      (result :: results, store, stats)
  end.

(** The manager that a flush leaves: the buffers are empty. *)
Definition flushed_manager {Payload} (qm : QueueManager Payload) : QueueManager Payload :=
  {| token := token qm; request_queue := []; response_queue := [];
     requests_to_delete := []; client_messages_to_delete := [];
     new_client_messages := []; notifications := ∅;
     prev_frozen_timestamps := prev_frozen_timestamps qm;
     frozen_timestamp := frozen_timestamp qm;
     num_notification_shards := num_notification_shards qm |}.

(** The list is in descending order of priority. *)
Definition sorted_by_descending_priority (l : list Task) : Prop :=
  StronglySorted (λ t1 t2, priority t2 <= priority t1) l.

(** *** Vocabulary of the commit protocol's properties *)

Section FlowVocabulary.
Context {Payload : Type}.

(** The write that persists the state, context and arguments of the flow. *)
Definition is_state_write (e : Event Payload) : bool :=
  match e with
  | Write (WriteAttributes _ _) => true
  | _ => false
  end.

(** A write of the queue manager: requests and responses, tasks,
    notifications. *)
Definition is_queue_write (e : Event Payload) : bool :=
  match e with
  | Write (WriteAttributes _ _) => false
  | Write _ => true
  | _ => false
  end.

Definition is_request_write (e : Event Payload) : bool :=
  match e with
  | Write (StoreRequestsAndResponses _ _ _) => true
  | _ => false
  end.

Definition is_notification_write (e : Event Payload) : bool :=
  match e with
  | Write (CreateNotifications _ _) => true
  | _ => false
  end.

(** In the trace every [P]-event comes before every [Q]-event: once a
    [Q]-event has happened, no [P]-event follows. *)
Definition all_before (P Q : Event Payload → bool) (trace : list (Event Payload)) : Prop :=
  ∀ t1 e t2, trace = t1 ++ e :: t2 → Q e = true → Forall (λ e', P e' = false) t2.

(** The stage of the commit that an event belongs to. *)
Definition stage (e : Event Payload) : nat :=
  match e with
  | Write (WriteAttributes _ _) => 1
  | Write (StoreRequestsAndResponses _ _ _) => 2
  | Write (DeleteAttributes _ _) => 3
  | Write (ScheduleTasks _ _ _) => 3
  | Write (CreateNotifications _ _) => 4
  | _ => 0
  end.

Definition task_write (w : StoreWrite Payload) : Prop := stage (Write w) = 3%nat.
Definition notification_write (w : StoreWrite Payload) : Prop := stage (Write w) = 4%nat.

Definition in_stage_order (trace : list (Event Payload)) : Prop :=
  StronglySorted (λ e1 e2, (stage e1 <= stage e2)%nat) trace.

(** [Flush] or [Close] of a flow. *)
Definition Commit : Type :=
  Env → Flow Payload → gmap string Z → M Payload (Flow Payload * gmap string Z).

(** The write that persists a flow whose context is [ctx]: the attributes
    set on the object before, then the arguments, the context, the arguments
    of the runner and the state of the flow. *)
Definition state_write (self : Flow Payload) (ctx : string) : Event Payload :=
  Write (WriteAttributes (urn self)
           (new_attributes self ++
            [("aff4:flow_args", flow_args self);
             ("aff4:flow_context", ctx);
             ("aff4:flow_runner_args", runner_args self);
             ("aff4:flow_state_dict", state self)])).

End FlowVocabulary.

Arguments Commit : clear implicits.

(** ** Worked examples *)

(** A status payload is OK when it reads ["OK"]. *)
Definition example_status (data : string) : GrrStatus :=
  {| status_code := if bool_decide (data = "OK") then OK else ERROR_CODE 10;
     error_message := data |}.

Definition example_message (id : Z) (data : string) : GrrMessage string :=
  {| response_id := id; type := MESSAGE; auth_state := AUTHENTICATED;
     payload := data; args_rdf_name := "RDFString" |}.

Definition example_status_message (id : Z) (auth : AuthorizationState) (data : string)
  : GrrMessage string :=
  {| response_id := id; type := STATUS; auth_state := auth;
     payload := data; args_rdf_name := "GrrStatus" |}.

(** Responses 1, 2, 2, 3 and a status at 5, as they may arrive. *)
Definition example_responses : list (GrrMessage string) :=
  [example_message 2 "b"; example_message 1 "a"; example_message 3 "c";
   example_message 2 "b again"; example_status_message 5 AUTHENTICATED "OK"].

(** Responses 1 and 2 and a status at 3: no retransmission. *)
Definition example_responses_distinct : list (GrrMessage string) :=
  [example_message 1 "a"; example_message 2 "b";
   example_status_message 3 AUTHENTICATED "OK"].

(** Responses whose only status record is not authenticated. *)
Definition example_responses_without_status : list (GrrMessage string) :=
  [example_message 1 "a"; example_status_message 2 UNAUTHENTICATED "OK"].

(** A request that was sent to a flow, and one that was sent to a client. *)
Definition example_request : RequestState :=
  {| request := None; client_id := "C.1000000000000000"; data := [] |}.

Definition example_client_request : RequestState :=
  {| request := Some {| name := "ListDirectory"; request_task_id := 1 |};
     client_id := "C.1000000000000000"; data := [] |}.

Definition example_queue : string := "aff4:/C.1000000000000000/tasks".

Definition example_task (id : N) (prio ttl : Z) : Task :=
  {| task_id := id; queue := example_queue; priority := prio; task_ttl := ttl;
     eta := 0; last_lease := ""; args := "" |}.

Definition example_row (id : N) (prio ttl ts : Z) : Row :=
  {| predicate := _TaskIdToColumn id; value := example_task id prio ttl;
     row_timestamp := ts |}.

(** A queue with three visible tasks, of priorities 0, 2 and 1, the last of
    them on its last TTL, and one task that is leased until later. *)
Definition example_store : DataStore :=
  {[ example_queue :=
       [example_row 1 0 5 100; example_row 2 2 5 100; example_row 3 1 1 100;
        example_row 4 1 5 9000] ]}.

Definition example_stats : Stats :=
  {| grr_task_ttl_expired_count := 0; grr_task_retransmission_count := 0 |}.

(** Two orders of a dictionary: the order of insertion, as it is when the
    hashes of the keys fall that way, and its reverse. *)
Definition insertion_order : DictOrder :=
  {| iteritems := λ K V d, d;
     iteritems_order := λ K V d, Permutation_refl d |}.

Definition reverse_order : DictOrder :=
  {| iteritems := λ K V d, reverse d;
     iteritems_order := λ K V d, reverse_Permutation d |}.

Definition example_env : Env :=
  {| Now := 1000; time_time := 1000; gethostname := "worker"; getpid := 7;
     dict_order := insertion_order;
     LockRetryWrapper_raises := None; ResolvePrefix_raises := None;
     MultiSet_raises := None |}.

(** The queue is locked by another worker. *)
Definition example_env_locked : Env :=
  {| Now := 1000; time_time := 1000; gethostname := "worker"; getpid := 7;
     dict_order := insertion_order;
     LockRetryWrapper_raises := Some DBSubjectLockError;
     ResolvePrefix_raises := None; MultiSet_raises := None |}.

Definition example_manager : QueueManager string :=
  QueueManager_init (Some "GRRWorker") 5.

Definition example_notification (status : Z) : GrrNotification :=
  {| session_id := "aff4:/flows/W:ABCDEF"; timestamp := None; last_status := status;
     notification_priority := 1; in_progress := false; first_queued := 0 |}.

Definition example_calls : list (GrrNotification * option Z) :=
  [(example_notification 1, Some 42); (example_notification 3, Some 42);
   (example_notification 2, Some 42)].

(** A flow object, opened with the given mode. *)
Definition example_flow (opened : string) (expired : bool) : Flow string :=
  {| urn := "aff4:/C.1000000000000000/flows/F:ABCDEF"; mode := opened;
     flow_class := GRRFlow; flow_token := Some "GRRWorker";
     lease_expired := expired; PENDING_TERMINATION := None;
     context := Some "RUNNING"; flow_args := ""; runner_args := "";
     state := "{}"; new_attributes := [];
     runner := Some {| queue_manager := example_manager |} |}.

(** A state method that does one step and returns. *)
Definition example_state_method : StateMethod string :=
  λ self responses, ([HandlerStep "Process"], Ok (self, "done")).

(** A flow with a request, a task and a notification buffered in the queue
    manager of its runner. *)
Definition example_busy_manager : QueueManager string :=
  {| token := Some "GRRWorker";
     request_queue := [(example_client_request, None)];
     response_queue := [];
     requests_to_delete := [];
     client_messages_to_delete := [("C.1000000000000000", [7%N])];
     new_client_messages := [(example_task 8 1 5, None)];
     notifications := {[ "aff4:/flows/W:ABCDEF!42" := example_notification 3 ]};
     prev_frozen_timestamps := [];
     frozen_timestamp := None;
     num_notification_shards := 5 |}.

Definition example_busy_flow : Flow string :=
  {| urn := "aff4:/C.1000000000000000/flows/F:ABCDEF"; mode := "rw";
     flow_class := GRRFlow; flow_token := Some "GRRWorker";
     lease_expired := false; PENDING_TERMINATION := None;
     context := Some "RUNNING"; flow_args := ""; runner_args := "";
     state := "{}"; new_attributes := [];
     runner := Some {| queue_manager := example_busy_manager |} |}.

(** A well-known flow, which has no context. *)
Definition example_well_known_flow : Flow string :=
  {| urn := "aff4:/flows/W:Stats"; mode := "rw";
     flow_class := WellKnownFlow; flow_token := Some "GRRWorker";
     lease_expired := false; PENDING_TERMINATION := None;
     context := None; flow_args := ""; runner_args := "";
     state := "{}"; new_attributes := [];
     runner := None |}.

(** ** More of the queue manager ([grr/lib/queue_manager.py]) *)

(** Exceptions that the classes above do not raise are [OtherException]s with
    the name of their class. *)
Definition ValueError (text : string) : Exception :=
  OtherException ("ValueError: " +:+ text).
Definition MoreDataException : Exception := OtherException "MoreDataException".

(** [l.sort(key=key, reverse=True)]: descending, and stable (records with
    equal keys keep their order), as the insertion sort is: a record is placed
    before the first record whose key is not greater than its own. *)
Fixpoint insert_descending {A} (key : A → Z) (a : A) (l : list A) : list A :=
  match l with
  | [] => [a]
  | x :: l' =>
      if key x <=? key a then a :: x :: l'
      else x :: insert_descending key a l'
  end.

Definition sort_descending {A} (key : A → Z) (l : list A) : list A :=
  foldr (insert_descending key) [] l.

(** [l[:limit]]: a negative limit counts from the end. *)
Definition slice_to {A} (l : list A) (limit : Z) : list A :=
  if limit <? 0 then take (length l - Z.to_nat (- limit)) l
  else take (Z.to_nat limit) l.

(** [s.lower()] on a byte string. *)
Definition ascii_lower (c : ascii) : ascii :=
  let n := nat_of_ascii c in
  if (65 <=? n)%nat && (n <=? 90)%nat then ascii_of_nat (n + 32) else c.

Fixpoint lower (s : string) : string :=
  match s with
  | EmptyString => EmptyString
  | String c s' => String (ascii_lower c) (lower s')
  end.

(** [s[1:]]. *)
Definition string_tail (s : string) : string :=
  match s with
  | EmptyString => EmptyString
  | String _ s' => s'
  end.

(** [_GetClientIdFromQueue(q)], on the components [q.Split()] of the URN.
    Unpacking a list of more than two components into two names raises
    [ValueError]. *)
Definition _GetClientIdFromQueue (split : list string) : Result Exception (option string) :=
  if bool_decide (length split < 2)%nat then Ok None
  else
    (* Normalize to lowercase. *)
    match lower <$> split with
    | [str_client_id; tasks_marker] =>
        if negb (String.prefix "c." str_client_id)
           || negb (bool_decide (tasks_marker = "tasks"))
        then Ok None
        else
          (* The "C." prefix should be uppercase. *)
          Ok (Some ("C" +:+ string_tail str_client_id))
    | _ => Raise (ValueError "too many values to unpack")
    end.

(** Modelled from the spec: [data_store.ResolvePrefix(subject, prefix,
    timestamp=ALL_TIMESTAMPS)] of the key-value store, which is not part of
    these sources: the rows of the subject whose attribute starts with the
    prefix, whatever their timestamp. *)
Definition ResolvePrefix_ALL_TIMESTAMPS (store : DataStore) (subject prefix : string)
  : list Row :=
  filter (λ r, String.prefix prefix (predicate r) = true) (rows_of store subject).

(** Modelled from the spec: [data_store.DeleteAttributes(subject, predicates)]
    of the key-value store, which is not part of these sources: the values of
    the attributes are removed from the subject. The queue manager asks for
    the deletion without waiting for it ([sync=False]); the store is taken
    after it has carried the deletion out. *)
Definition DB_DeleteAttributes (store : DataStore) (subject : string)
    (predicates : list string) : DataStore :=
  <[subject := filter (λ r, predicate r ∉ predicates) (rows_of store subject)]> store.

Definition set_eta (task : Task) (ts : Z) : Task :=
  {| task_id := task_id task; queue := queue task; priority := priority task;
     task_ttl := task_ttl task; eta := ts; last_lease := last_lease task;
     args := args task |}.

(** An argument that should be a session id: [isinstance(session_id,
    rdfvalue.SessionID)] holds for the first form only. *)
Inductive SessionIdArgument :=
| SessionID (s : string)
| NotASessionID (repr : string).

Definition is_SessionID (a : SessionIdArgument) : bool :=
  match a with
  | SessionID _ => true
  | NotASessionID _ => false
  end.

Definition session_id_string (a : SessionIdArgument) : string :=
  match a with
  | SessionID s => s
  | NotASessionID s => s
  end.

(** A call [data_store.DeleteNotifications(queue_shards, session_ids, start,
    end)]. *)
Record NotificationsDeletion := {
  deleted_shards : list string;
  deleted_session_ids : list string;
  deleted_start : Z;
  deleted_end : Z;
}.

Section QueueManagerMore.

Context {Payload : Type}.
Context (SessionQueue : string → string) (ClientQueue : string → string).

Implicit Types (self : QueueManager Payload) (env : Env).

(** [QueueManager.GetAllNotificationShards(queue)]. *)
Definition GetAllNotificationShards self (q : string) : list string :=
  q :: ((λ i, urn_Add q (pretty i)) <$> seqZ 1 (num_notification_shards self - 1)).

(** *** Freezing the timestamp *)

Definition set_frozen self (prev : list (option Z)) (frozen : option Z)
  : QueueManager Payload :=
  {| token := token self; request_queue := request_queue self;
     response_queue := response_queue self;
     requests_to_delete := requests_to_delete self;
     client_messages_to_delete := client_messages_to_delete self;
     new_client_messages := new_client_messages self;
     notifications := notifications self;
     prev_frozen_timestamps := prev;
     frozen_timestamp := frozen;
     num_notification_shards := num_notification_shards self |}.

(** [QueueManager.FreezeTimestamp()]. *)
Definition FreezeTimestamp self env : QueueManager Payload :=
  set_frozen self (prev_frozen_timestamps self ++ [frozen_timestamp self])
    (Some (Now env)).

(** [QueueManager.UnfreezeTimestamp()]; [pop()] takes the last element. *)
Definition UnfreezeTimestamp self : Result Exception (QueueManager Payload) :=
  match reverse (prev_frozen_timestamps self) with
  | [] => Raise (RuntimeError "Unbalanced UnfreezeTimestamp call.")
  | last_frozen :: earlier => Ok (set_frozen self (reverse earlier) last_frozen)
  end.

(** [QueueManager.__enter__()]. *)
Definition QueueManager_enter self env : QueueManager Payload :=
  FreezeTimestamp self env.

(** [QueueManager.__exit__()]: the manager or the exception, the shard
    counters and the writes of the flush. *)
Definition QueueManager_exit self env (counters : gmap string Z)
  : Result Exception (QueueManager Payload) * gmap string Z * list (StoreWrite Payload) :=
  (* Flush() uses the frozen timestamp so needs to go first. *)
  let '(flushed, counters, writes) :=
    QueueManager_Flush SessionQueue ClientQueue self env counters in
  match flushed with
  | Ok self => (UnfreezeTimestamp self, counters, writes)
  | Raise e => (Raise e, counters, writes)
  end.

(** *** The buffers *)

Definition set_queues self
    (requests : list (RequestState * option Z))
    (responses : list (GrrMessage Payload * option Z))
    (to_delete : list RequestState)
    (messages_to_delete : list (string * list N))
    (new_messages : list (Task * option Z)) : QueueManager Payload :=
  {| token := token self; request_queue := requests;
     response_queue := responses;
     requests_to_delete := to_delete;
     client_messages_to_delete := messages_to_delete;
     new_client_messages := new_messages;
     notifications := notifications self;
     prev_frozen_timestamps := prev_frozen_timestamps self;
     frozen_timestamp := frozen_timestamp self;
     num_notification_shards := num_notification_shards self |}.

(** [QueueManager.QueueResponse(response, timestamp)]. *)
Definition QueueResponse self (response : GrrMessage Payload) (ts : option Z)
  : QueueManager Payload :=
  set_queues self (request_queue self)
    (response_queue self ++ [(response, timestamp_or_frozen self ts)])
    (requests_to_delete self) (client_messages_to_delete self)
    (new_client_messages self).

(** [QueueManager.QueueRequest(request_state, timestamp)]. *)
Definition QueueRequest self (request_state : RequestState) (ts : option Z)
  : QueueManager Payload :=
  set_queues self (request_queue self ++ [(request_state, timestamp_or_frozen self ts)])
    (response_queue self) (requests_to_delete self)
    (client_messages_to_delete self) (new_client_messages self).

(** [QueueManager.QueueClientMessage(msg, timestamp)]. *)
Definition QueueClientMessage self (msg : Task) (ts : option Z)
  : QueueManager Payload :=
  set_queues self (request_queue self) (response_queue self)
    (requests_to_delete self) (client_messages_to_delete self)
    (new_client_messages self ++ [(msg, timestamp_or_frozen self ts)]).

(** [QueueManager.DeQueueClientRequest(client_id, task_id)]. The client id is
    a valid one, of which [rdf_client.ClientURN] makes the URN. *)
Definition DeQueueClientRequest self (client : string) (task : N)
  : QueueManager Payload :=
  if bool_decide (client = "") then self
  else
    set_queues self (request_queue self) (response_queue self)
      (requests_to_delete self)
      (setdefault_append client task (client_messages_to_delete self))
      (new_client_messages self).

(** [QueueManager.DeleteRequest(request)]: the manager, and the request that
    [data_store.DB.DeleteRequest] removes from the store at once. *)
Definition DeleteRequest self (req : RequestState)
  : QueueManager Payload * RequestState :=
  let self :=
    set_queues self (request_queue self) (response_queue self)
      (requests_to_delete self ++ [req]) (client_messages_to_delete self)
      (new_client_messages self) in
  let self :=
    match request req with
    | Some client_request =>
        DeQueueClientRequest self (client_id req) (request_task_id client_request)
    | None => self
    end in
  (self, req).

(** *** Tasks, without a mutation pool *)

(** [QueueManager.Delete(queue, tasks)] without a mutation pool: the deletion
    goes to the data store. *)
Definition Delete_in_store (q : string) (task_ids : list N) (store : DataStore)
  : DataStore :=
  if bool_decide (q = "") then store
  else DB_DeleteAttributes store q (_TaskIdToColumn <$> task_ids).

(** [QueueManager.Schedule(tasks, timestamp)] without a mutation pool; the
    store is taken after it has carried the writes out. The queues come in
    the order in which the dictionary of [utils.GroupBy] yields them, and the
    columns of a queue reach the store in the order in which the dictionary
    [to_schedule] yields them.

    Modelled from the spec: [data_store.MultiSet] with [timestamp=None]
    writes with the current time. *)
Definition Schedule_in_store self env (scheduled : list Task) (ts : option Z)
    (store : DataStore) : DataStore :=
  let ts := timestamp_or_frozen self ts in
  foldl (λ store '(q, queued_tasks),
           if bool_decide (q = "") then store
           else
             let to_schedule :=
               dict ((λ task, (_TaskIdToColumn (task_id task), [task])) <$> queued_tasks) in
             MultiSet store q (iteritems (dict_order env) to_schedule)
               (default (Now env) ts) ∅)
        store (iteritems (dict_order env) (GroupBy scheduled queue)).

(** [QueueManager.Query(queue, limit, task_id)], for a queue given as a URN;
    [task_id] is the string [utils.SmartStr(task_id)]. *)
Definition Query self (q : string) (limit : Z) (task : option string)
    (store : DataStore) : list Task :=
  let prefix :=
    match task with
    | None => TASK_PREDICATE_PREFIX
    | Some task => task
    end in
  let all_tasks :=
    (λ r, set_eta (value r) (row_timestamp r))
      <$> ResolvePrefix_ALL_TIMESTAMPS store q prefix in
  (* Sort the tasks in order of priority. *)
  let all_tasks := sort_descending priority all_tasks in
  slice_to all_tasks limit.

(** *** Notifications *)

(** [data_store.GetNotifications(queue_shard, end_time)] of the key-value
    store, which is not part of these sources: the notifications that the
    store holds for a shard up to a time. *)
Context (DB_GetNotifications : string → Z → list GrrNotification).

(** The test of [_GetUnsortedNotifications] for replacing the notification it
    holds for a session id. *)
Definition scheduled_later (notification existing : GrrNotification) : bool :=
  (first_queued existing <? first_queued notification)
  || ((first_queued notification =? first_queued existing)
      && (last_status existing <? last_status notification)).

(** [QueueManager._GetUnsortedNotifications(queue_shard,
    notifications_by_session_id)]; a notification that the dictionary holds
    is truthy. *)
Definition _GetUnsortedNotifications self env (queue_shard : string)
    (notifications_by_session_id : option (gmap string GrrNotification))
  : gmap string GrrNotification :=
  let notifications_by_session_id := default ∅ notifications_by_session_id in
  let end_time := frozen_timestamp_or_Now self env in
  foldl (λ by_session notification,
           match by_session !! session_id notification with
           | Some existing =>
               (* we only store the one that was scheduled last *)
               if scheduled_later notification existing
               then <[session_id notification := notification]> by_session
               else by_session
           | None => <[session_id notification := notification]> by_session
           end)
        notifications_by_session_id (DB_GetNotifications queue_shard end_time).

(** [dict.values()]: the values of the items, in the order in which the
    dictionary yields them. *)
Definition values env (d : gmap string GrrNotification) : list GrrNotification :=
  (iteritems (dict_order env) (map_to_list d)).*2.

(** [QueueManager.GetNotificationsForAllShards(queue)]. *)
Definition GetNotificationsForAllShards self env (q : string) : list GrrNotification :=
  let notifications_by_session_id :=
    foldl (λ by_session queue_shard,
             _GetUnsortedNotifications self env queue_shard (Some by_session))
          ∅ (GetAllNotificationShards self q) in
  sort_descending notification_priority (values env notifications_by_session_id).

(** [QueueManager.DeleteNotifications(session_ids, start, end)]: the calls of
    [data_store.DeleteNotifications], or the exception. *)
Definition DeleteNotifications self env (session_ids : list SessionIdArgument)
    (start : option Z) (end_time : option Z)
  : Result Exception (list NotificationsDeletion) :=
  if bool_decide (session_ids = []) then Ok []
  else if negb (forallb is_SessionID session_ids) then
    Raise (RuntimeError "Can only delete notifications for rdfvalue.SessionIDs.")
  else
    let start := default 0 start in
    let end_time := default (frozen_timestamp_or_Now self env) end_time in
    Ok ((λ '(q, ids),
           {| deleted_shards := GetAllNotificationShards self q;
              deleted_session_ids := ids;
              deleted_start := start;
              deleted_end := end_time |})
          <$> iteritems (dict_order env)
                (GroupBy (session_id_string <$> session_ids) SessionQueue)).

(** [QueueManager.DeleteNotification(session_id, start, end)]. *)
Definition DeleteNotification self env (session : SessionIdArgument)
    (start : option Z) (end_time : option Z)
  : Result Exception (list NotificationsDeletion) :=
  DeleteNotifications self env [session] start end_time.

(** *** Completed requests and their responses *)

(** [data_store.ReadCompletedRequests(session_id, timestamp, limit)] and
    [data_store.ReadResponses(request_list)] of the key-value store, which is
    not part of these sources: the requests of a session that have a status
    record, each with that record, and the responses of each request of a
    list. *)
Context (DB_ReadCompletedRequests :
           string → Z * Z → list (RequestState * GrrMessage Payload)).
Context (DB_ReadResponses :
           list RequestState → list (RequestState * list (GrrMessage Payload))).

(** [QueueManager.FetchCompletedRequests(session_id, timestamp)]. *)
Definition FetchCompletedRequests self env (session : string) (ts : option (Z * Z))
  : list (RequestState * GrrMessage Payload) :=
  let ts := default (0, frozen_timestamp_or_Now self env) ts in
  DB_ReadCompletedRequests session ts.

(** The inner loop [while completed_requests:] of [FetchCompletedResponses]:
    the request list, and what is left of the deque. *)
Fixpoint collect_request_list (limit projected_total_size : Z)
    (completed_requests : list (RequestState * GrrMessage Payload))
  : list RequestState * list (RequestState * GrrMessage Payload) :=
  match completed_requests with
  | [] => ([], [])
  | (req, status_message) :: rest =>
      (* Make sure at least one response is fetched. *)
      let projected_total_size := projected_total_size + response_id status_message in
      (* Quit if there are too many responses. *)
      if limit <? projected_total_size then ([req], rest)
      else
        let '(request_list, rest) :=
          collect_request_list limit projected_total_size rest in
        (req :: request_list, rest)
  end.

(** The loop [for request, responses in ...ReadResponses(...)]: what it
    yields, the total size, and whether it raises [MoreDataException]. *)
Fixpoint yield_responses (limit total_size : Z)
    (read : list (RequestState * list (GrrMessage Payload)))
  : list (RequestState * list (GrrMessage Payload)) * Z * bool :=
  match read with
  | [] => ([], total_size, false)
  | (req, responses) :: rest =>
      let total_size := total_size + Z.of_nat (length responses) in
      if limit <? total_size then ([(req, responses)], total_size, true)
      else
        let '(yielded, total_size, raised) := yield_responses limit total_size rest in
        ((req, responses) :: yielded, total_size, raised)
  end.

(** The outer loop [while completed_requests:]. Each round takes at least one
    request off the deque, so there are no more rounds than requests; [rounds]
    bounds them. *)
Fixpoint fetch_rounds (rounds : nat) (limit total_size : Z)
    (completed_requests : list (RequestState * GrrMessage Payload))
  : list (RequestState * list (GrrMessage Payload)) * option Exception :=
  match rounds, completed_requests with
  | _, [] => ([], None)
  | O, _ => ([], None)
  | S rounds, _ =>
      let '(request_list, rest) :=
        collect_request_list limit total_size completed_requests in
      let '(yielded, total_size, raised) :=
        yield_responses limit total_size (DB_ReadResponses request_list) in
      if raised then (yielded, Some MoreDataException)
      else
        let '(more, e) := fetch_rounds rounds limit total_size rest in
        (yielded ++ more, e)
  end.

(** [QueueManager.FetchCompletedResponses(session_id, timestamp, limit)]: a
    generator; what it yields and how it ends. *)
Definition FetchCompletedResponses self env (session : string)
    (ts : option (Z * Z)) (limit : Z)
  : list (RequestState * list (GrrMessage Payload)) * option Exception :=
  let ts := default (0, frozen_timestamp_or_Now self env) ts in
  let completed_requests := FetchCompletedRequests self env session (Some ts) in
  fetch_rounds (length completed_requests) limit 0 completed_requests.

End QueueManagerMore.

(** ** More of the flows ([grr/lib/flow.py]) *)

Section CollatorMore.
Context {Payload : Type}.

(** [Responses.First()]: [for x in self: return x]. The generator is left
    after its first value; without one the method returns [None], unless the
    iteration raises. *)
Definition Responses_First (action_registry : ActionRegistry)
    (self : Responses Payload) : Result Exception (option Payload) :=
  match Responses_iter action_registry self with
  | (x :: _, _) => Ok (Some x)
  | ([], Some e) => Raise e
  | ([], None) => Ok None
  end.

(** [Responses.__nonzero__]. *)
Definition Responses_nonzero (self : Responses Payload) : bool :=
  bool_decide (_responses self ≠ []).

End CollatorMore.

(** *** Behaviours *)

Section BehaviourModel.

(** The keys of the class attribute [LEXICON]. *)
Context (LEXICON : gset string).

(** A [Behaviour] object: its attribute [set]. *)
Definition Behaviour := gset string.

(** The loop of [Behaviour.__init__] on the set built so far. *)
Fixpoint Behaviour_init_loop (arguments : list string) (behaviours : gset string)
  : Result Exception Behaviour :=
  match arguments with
  | [] => Ok behaviours
  | arg :: arguments =>
      if bool_decide (arg ∈ LEXICON)
      then Behaviour_init_loop arguments (behaviours ∪ {[ arg ]})
      else Raise (ValueError ("Behaviour " +:+ arg +:+ " not known."))
  end.

(** [Behaviour.__init__], with its positional arguments. *)
Definition Behaviour_init (arguments : list string) : Result Exception Behaviour :=
  Behaviour_init_loop arguments ∅.

(** [Behaviour.__add__(other)]. *)
Definition Behaviour_add (self : Behaviour) (other : string) : Result Exception Behaviour :=
  if bool_decide (other ∈ LEXICON) then Behaviour_init (other :: elements self)
  else Raise (ValueError ("Behaviour " +:+ other +:+ " not known.")).

(** [Behaviour.__sub__(other)]. *)
Definition Behaviour_sub (self : Behaviour) (other : string) : Result Exception Behaviour :=
  let result := self ∖ {[ other ]} in
  Behaviour_init (elements result).

(** [Behaviour.IsSupported(other)], for another object of the class. *)
Definition IsSupported (self other : Behaviour) : bool :=
  bool_decide (self ⊆ other).

End BehaviourModel.

(** The keys of [FlowBehaviour.LEXICON]. *)
Definition FlowBehaviour_LEXICON : gset string :=
  list_to_set ["BASIC"; "ADVANCED"; "DANGEROUS"; "DEBUG"; "Client Flow";
               "Global Flow"; "OSX"; "Windows"; "Linux"].

(** [GRRFlow.behaviours = FlowBehaviour("Client Flow", "ADVANCED")]. *)
Definition GRRFlow_behaviours : Result Exception Behaviour :=
  Behaviour_init FlowBehaviour_LEXICON ["Client Flow"; "ADVANCED"].

(** [GRRGlobalFlow.behaviours = GRRFlow.behaviours + "Global Flow" -
    "Client Flow"]. *)
Definition GRRGlobalFlow_behaviours : Result Exception Behaviour :=
  match GRRFlow_behaviours with
  | Ok behaviours =>
      match Behaviour_add FlowBehaviour_LEXICON behaviours "Global Flow" with
      | Ok behaviours => Behaviour_sub FlowBehaviour_LEXICON behaviours "Client Flow"
      | Raise e => Raise e
      end
  | Raise e => Raise e
  end.

(** *** Arguments of a flow *)

Section FlowArguments.

(** The values of the fields of a semantic protobuf and of keyword
    arguments. A keyword argument may be [None]. *)
Context {Value : Type}.

(** [FlowBase.FilterArgsFromSemanticProtobuf(protobuf, kwargs)], for the names
    of [protobuf.type_infos]: the fields of the protobuf and the keyword
    arguments afterwards. [setattr] stores the value in the field. *)
Definition FilterArgsFromSemanticProtobuf (type_infos : list string)
    (protobuf : gmap string Value) (kwargs : gmap string (option Value))
  : gmap string Value * gmap string (option Value) :=
  foldl (λ '(protobuf, kwargs) descriptor_name,
           let value := default None (kwargs !! descriptor_name) in
           let kwargs := delete descriptor_name kwargs in
           match value with
           | Some v => (<[descriptor_name := v]> protobuf, kwargs)
           | None => (protobuf, kwargs)
           end)
        (protobuf, kwargs) type_infos.

End FlowArguments.

(** *** Vocabulary of the further properties of the queue manager *)

(** The number that a string of decimal digits reads as, from the number read
    so far. *)
Definition digit_value (c : ascii) : N := (N_of_ascii c - 48)%N.

Fixpoint digits_value (acc : N) (s : string) : N :=
  match s with
  | EmptyString => acc
  | String c s' => digits_value (10 * acc + digit_value c)%N s'
  end.

(** What [k] calls of [GetNotificationShard] on a queue give, one after the
    other (the shard that the call chooses, or the exception that it raises),
    and the counters after them. *)
Fixpoint GetNotificationShard_repeatedly {Payload} (self : QueueManager Payload)
    (q : string) (k : nat) (counters : gmap string Z)
  : list (Result Exception string) * gmap string Z :=
  match k with
  | O => ([], counters)
  | S k =>
      let '(shard, counters) := GetNotificationShard self q counters in
      let '(shards, counters) := GetNotificationShard_repeatedly self q k counters in
      (shard :: shards, counters)
  end.

(** The name of the shard of index [i] of a queue: the queue itself for the
    index zero. *)
Definition shard_name (q : string) (i : Z) : string :=
  if 0 <? i then urn_Add q (pretty i) else q.

(** The notification [m] was not scheduled later than [n]: its [first_queued]
    is earlier, or the same with a [last_status] that is not higher. *)
Definition not_later (m n : GrrNotification) : Prop :=
  first_queued m < first_queued n
  ∨ (first_queued m = first_queued n ∧ last_status m <= last_status n).

(** The step of the loop of [_GetUnsortedNotifications]. *)
Definition keep_latest (by_session : gmap string GrrNotification)
    (notification : GrrNotification) : gmap string GrrNotification :=
  match by_session !! session_id notification with
  | Some existing =>
      if scheduled_later notification existing
      then <[session_id notification := notification]> by_session
      else by_session
  | None => <[session_id notification := notification]> by_session
  end.

(** Each notification of the dictionary is stored under its session id. *)
Definition keyed_by_session_id (d : gmap string GrrNotification) : Prop :=
  ∀ k n, d !! k = Some n → session_id n = k.

(** The number of responses that a list of requests with their responses
    holds. *)
Definition responses_count {Payload}
    (yielded : list (RequestState * list (GrrMessage Payload))) : Z :=
  foldr (λ y total, Z.of_nat (length y.2) + total) 0 yielded.

(** How many times the results of a sequence of calls (what each call
    returns, or the exception it raises) hold a task of the id [i]. *)
Definition times_returned (i : N) (results : list (Result Exception (list Task))) : nat :=
  sum_list ((λ result,
               match result with
               | Ok returned => length (filter (λ t, task_id t = i) returned)
               | Raise _ => 0%nat
               end) <$> results).

(** The TTL of the rows of the task of id [i] is at most [k]. *)
Definition ttl_at_most (rows : list Row) (i : N) (k : Z) : Prop :=
  ∀ r, r ∈ rows → task_id (value r) = i → task_ttl (value r) <= k.

(** *** Vocabulary of the buffers' properties *)

Section BufferVocabulary.
Context {Payload : Type}.
Implicit Types (self : QueueManager Payload).

(** Nested calls of [FreezeTimestamp], at the times of [envs], and as many
    calls of [UnfreezeTimestamp] as [k]. *)
Definition freeze_all self (envs : list Env) : QueueManager Payload :=
  foldl FreezeTimestamp self envs.

Fixpoint unfreeze_all (k : nat) self : Result Exception (QueueManager Payload) :=
  match k with
  | O => Ok self
  | S k =>
      match UnfreezeTimestamp self with
      | Ok self => unfreeze_all k self
      | Raise e => Raise e
      end
  end.

(** A call that queues something on the manager. *)
Inductive BufferCall :=
| CallQueueResponse (response : GrrMessage Payload) (ts : option Z)
| CallQueueRequest (request_state : RequestState) (ts : option Z)
| CallQueueClientMessage (msg : Task) (ts : option Z)
| CallQueueNotification (notification : GrrNotification) (ts : option Z)
| CallDeQueueClientRequest (client : string) (task : N).

Definition run_call self (c : BufferCall) : QueueManager Payload :=
  match c with
  | CallQueueResponse response ts => QueueResponse self response ts
  | CallQueueRequest request_state ts => QueueRequest self request_state ts
  | CallQueueClientMessage msg ts => QueueClientMessage self msg ts
  | CallQueueNotification notification ts => QueueNotification self notification ts
  | CallDeQueueClientRequest client task => DeQueueClientRequest self client task
  end.

Definition run_calls self (body : list BufferCall) : QueueManager Payload :=
  foldl run_call self body.

(** The timestamp that a call gives, if it gives one. *)
Definition call_timestamp (c : BufferCall) : option Z :=
  match c with
  | CallQueueResponse _ ts | CallQueueRequest _ ts | CallQueueClientMessage _ ts
  | CallQueueNotification _ ts => ts
  | CallDeQueueClientRequest _ _ => None
  end.

(** Nothing is buffered. *)
Definition buffers_empty self : Prop :=
  request_queue self = [] ∧ response_queue self = []
  ∧ requests_to_delete self = [] ∧ client_messages_to_delete self = []
  ∧ new_client_messages self = [] ∧ notifications self = ∅.

(** The timestamps that a write carries: those of the requests and responses,
    the one of a schedule, those of the notifications. *)
Definition write_timestamps (w : StoreWrite Payload) : list (option Z) :=
  match w with
  | StoreRequestsAndResponses new_requests new_responses _ =>
      new_requests.*2 ++ new_responses.*2
  | ScheduleTasks _ _ ts => [ts]
  | CreateNotifications _ ns => timestamp <$> ns
  | DeleteAttributes _ _ | WriteAttributes _ _ => []
  end.

(** The timestamps of the buffers are all in [A]. *)
Definition buffers_stamped (A : option Z → Prop) self : Prop :=
  Forall (λ p, A p.2) (request_queue self)
  ∧ Forall (λ p, A p.2) (response_queue self)
  ∧ Forall (λ p, A p.2) (new_client_messages self)
  ∧ ∀ k n, notifications self !! k = Some n → A (timestamp n).

End BufferVocabulary.

Arguments BufferCall : clear implicits.

(** ** Further worked examples *)

(** The task queue of a client, and the queue of a session, as URNs. *)
Definition example_ClientQueue (client : string) : string :=
  "aff4:/" +:+ client +:+ "/tasks".

Definition example_SessionQueue (session : string) : string := "aff4:/W".

(** Two tasks for the example queue. *)
Definition example_scheduled : list Task :=
  [example_task 11 0 5; example_task 12 2 5].

(** The notifications that the store holds: two for one session in the queue
    itself, one for another session in its first shard. *)
Definition example_queued_notification (session : string) (queued status : Z)
  : GrrNotification :=
  {| session_id := session; timestamp := Some 42; last_status := status;
     notification_priority := 1; in_progress := false; first_queued := queued |}.

Definition example_DB_GetNotifications (shard : string) (end_time : Z)
  : list GrrNotification :=
  if bool_decide (shard = "aff4:/W") then
    [example_queued_notification "aff4:/flows/W:ABCDEF" 10 1;
     example_queued_notification "aff4:/flows/W:ABCDEF" 20 2]
  else if bool_decide (shard = "aff4:/W/1") then
    [example_queued_notification "aff4:/flows/W:123456" 30 1]
  else [].

(** Two completed requests, with two responses each. *)
Definition example_DB_ReadCompletedRequests (session : string) (time_range : Z * Z)
  : list (RequestState * GrrMessage string) :=
  [(example_request, example_status_message 3 AUTHENTICATED "OK");
   (example_client_request, example_status_message 3 AUTHENTICATED "OK")].

Definition example_DB_ReadResponses (request_list : list RequestState)
  : list (RequestState * list (GrrMessage string)) :=
  (λ r, (r, [example_message 1 "a"; example_message 2 "b"])) <$> request_list.

(** The collator of the example responses. *)
Definition example_collator : Responses string :=
  filter_responses example_status (sort_by_response_id example_responses)
    {| status := None; success := true; rs_request := Some example_request;
       _auth_required := true; _responses := [];
       _dropped_responses := []; iterator := None |}.

(** What a [with] block queues: a request, a client message with a timestamp
    of its own, and a notification. *)
Definition example_body : list (BufferCall string) :=
  [CallQueueRequest example_client_request None;
   CallQueueClientMessage (example_task 8 1 5) (Some 77);
   CallQueueNotification (example_notification 3) None].

(** A later time, after the leases of the example have run out. *)
Definition example_env_later : Env :=
  {| Now := 20000000; time_time := 20000000; gethostname := "worker"; getpid := 8;
     dict_order := insertion_order;
     LockRetryWrapper_raises := None; ResolvePrefix_raises := None;
     MultiSet_raises := None |}.

(** The time of the example, with dictionaries that yield their items in the
    reverse of the order of insertion. *)
Definition example_env_reversed : Env :=
  {| Now := 1000; time_time := 1000; gethostname := "worker"; getpid := 7;
     dict_order := reverse_order;
     LockRetryWrapper_raises := None; ResolvePrefix_raises := None;
     MultiSet_raises := None |}.

(** Three calls on the example queue: two at the time of the example, one
    later. *)
Definition example_call (env : Env) : Call string :=
  {| call_manager := example_manager; call_env := env;
     call_lease_seconds := 10; call_limit := 5 |}.

Definition example_sequence : list (Call string) :=
  [example_call example_env; example_call example_env; example_call example_env_later].

(** A flow object that has lost its context. *)
Definition example_flow_without_context : Flow string :=
  {| urn := "aff4:/C.1000000000000000/flows/F:ABCDEF"; mode := "rw";
     flow_class := GRRFlow; flow_token := Some "GRRWorker";
     lease_expired := false; PENDING_TERMINATION := None;
     context := None; flow_args := ""; runner_args := "";
     state := "{}"; new_attributes := [];
     runner := Some {| queue_manager := example_busy_manager |} |}.
(** * Properties of the collator *)

Section CollatorProperties.
Context {Payload : Type}.
Context (MakeGrrStatus : Payload -> GrrStatus).

Implicit Types (m : GrrMessage Payload) (l msgs : list (GrrMessage Payload)).
Implicit Types (self : Responses Payload).

Definition id_le m1 m2 : Prop := response_id m1 <= response_id m2.

Lemma insert_by_response_id_perm m l : insert_by_response_id m l ≡ₚ m :: l.
Proof.
  induction l as [|x l IH]; simpl; [done|].
  destruct (response_id m <=? response_id x); [done|].
  rewrite IH. apply Permutation_swap.
Qed.

Lemma sort_by_response_id_perm l : sort_by_response_id l ≡ₚ l.
Proof.
  induction l as [|x l IH]; simpl; [done|].
  rewrite insert_by_response_id_perm. by rewrite IH.
Qed.

Lemma insert_by_response_id_sorted m l :
  StronglySorted id_le l → StronglySorted id_le (insert_by_response_id m l).
Proof.
  induction 1 as [|x l Hl IH Hx]; simpl.
  - repeat constructor.
  - destruct (Z.leb_spec (response_id m) (response_id x)) as [Hle|Hgt].
    + constructor; [by constructor|].
      constructor; [done|].
      eapply Forall_impl; [exact Hx|]. unfold id_le. intros; simpl in *; lia.
    + constructor; [done|].
      rewrite insert_by_response_id_perm. constructor; [|done].
      unfold id_le. lia.
Qed.

Lemma sort_by_response_id_sorted l : StronglySorted id_le (sort_by_response_id l).
Proof.
  induction l; simpl; [constructor|]. by apply insert_by_response_id_sorted.
Qed.



(** *** The filter loop of [__init__] *)

Lemma filter_responses_request msgs self :
  rs_request (filter_responses MakeGrrStatus msgs self) = rs_request self
  ∧ _auth_required (filter_responses MakeGrrStatus msgs self) = _auth_required self.
Proof.
  revert self. induction msgs as [|m msgs IH]; intros self; simpl; [done|].
  repeat case_match; try done;
    match goal with
    | |- context [filter_responses _ _ ?r] => by destruct (IH r) as [-> ->]
    end.
Qed.

Lemma filter_responses_no_status msgs self :
  Forall (λ m, is_dropped (_auth_required self) m = false → type m ≠ STATUS) msgs →
  status (filter_responses MakeGrrStatus msgs self) = status self.
Proof.
  revert self. induction msgs as [|m msgs IH]; intros self Hall; simpl; [done|].
  apply Forall_cons_1 in Hall as [Hm Hall].
  destruct (is_dropped (_auth_required self) m) eqn:Hd.
  { rewrite IH; done. }
  case_bool_decide; [rewrite IH; done|].
  case_bool_decide; [by destruct Hm|].
  rewrite IH; done.
Qed.

Lemma filter_responses_split pre st post self :
  Forall (λ m, is_dropped (_auth_required self) m = false) (pre ++ [st]) →
  Forall (λ m, type m ≠ STATUS) pre →
  type st = STATUS →
  let r := filter_responses MakeGrrStatus (pre ++ st :: post) self in
  status r = Some (MakeGrrStatus (payload st))
  ∧ success r = bool_decide (status_code (MakeGrrStatus (payload st)) = OK)
  ∧ _responses r = _responses self ++ filter (λ m, type m = MESSAGE) pre.
Proof.
  revert self. induction pre as [|m pre IH]; intros self Hauth Hpre Hst; simpl.
  - simpl in Hauth. rewrite Forall_singleton in Hauth.
    rewrite Hauth.
    rewrite bool_decide_false by congruence.
    rewrite bool_decide_true by done. simpl.
    by rewrite app_nil_r.
  - simpl in Hauth. apply Forall_cons_1 in Hauth as [Hm Hauth].
    apply Forall_cons_1 in Hpre as [Hty Hpre].
    rewrite Hm. destruct (decide (type m = ITERATOR)) as [Hit|Hit].
    + rewrite (bool_decide_true _ Hit).
      rewrite filter_cons_False by congruence.
      exact (IH {| status := status self; success := success self;
             rs_request := rs_request self; _auth_required := _auth_required self;
             _responses := _responses self;
             _dropped_responses := _dropped_responses self;
             iterator := Some (payload m) |} Hauth Hpre Hst).
    + rewrite (bool_decide_false _ Hit), (bool_decide_false _ Hty).
      specialize (IH {| status := status self; success := success self;
             rs_request := rs_request self; _auth_required := _auth_required self;
             _responses := _responses self ++ [m];
             _dropped_responses := _dropped_responses self;
             iterator := iterator self |} Hauth Hpre Hst). simpl in IH.
      destruct IH as (-> & -> & ->). split_and!; [done..|].
      rewrite filter_cons_True by (destruct (type m); done).
      by rewrite <- app_assoc.
Qed.

Lemma filter_responses_messages msgs self :
  Forall (λ m, type m = MESSAGE) (_responses self) →
  Forall (λ m, type m = MESSAGE) (_responses (filter_responses MakeGrrStatus msgs self)).
Proof.
  revert self. induction msgs as [|m msgs IH]; intros self Hall; simpl; [done|].
  repeat case_bool_decide; repeat case_match; try (apply IH; simpl; try done); try done.
  apply Forall_app; split; [done|]. apply Forall_singleton.
  destruct (type m); done.
Qed.

Lemma Exists_first_split {A} (P : A → Prop) `{!∀ x, Decision (P x)} (l : list A) :
  Exists P l → ∃ pre x post, l = pre ++ x :: post ∧ P x ∧ Forall (λ y, ¬ P y) pre.
Proof.
  induction l as [|a l IH]; intros HE; [by apply Exists_nil in HE|].
  destruct (decide (P a)) as [Ha|Ha].
  - exists [], a, l. by split_and!.
  - apply Exists_cons in HE as [?|HE]; [done|].
    destruct (IH HE) as (pre & x & post & -> & Hx & Hpre).
    exists (a :: pre), x, post. split_and!; [done..|by constructor].
Qed.

(** *** The loop of [__iter__] *)

Lemma first_of_each_id_sublist old msgs :
  first_of_each_id old msgs `sublist_of` msgs.
Proof.
  revert old. induction msgs as [|m msgs IH]; intros old; simpl; [done|].
  case_bool_decide; [apply sublist_cons|apply sublist_skip]; apply IH.
Qed.

Lemma first_of_each_id_covers old msgs m :
  m ∈ msgs →
  response_id m ∈ (response_id <$> first_of_each_id old msgs)
  ∨ Some (response_id m) = old.
Proof.
  revert old. induction msgs as [|x msgs IH]; intros old Hin; [by apply elem_of_nil in Hin|].
  simpl. apply elem_of_cons in Hin as [->|Hin].
  - case_bool_decide; [by right|]. left. simpl. apply elem_of_cons. by left.
  - case_bool_decide.
    + by apply IH.
    + left. simpl. destruct (IH (Some (response_id x)) Hin) as [?|Heq].
      * apply elem_of_cons. by right.
      * apply elem_of_cons. left. congruence.
Qed.

Lemma first_of_each_id_ascending old msgs :
  StronglySorted id_le msgs →
  (∀ o, old = Some o → Forall (λ m, o <= response_id m) msgs) →
  StronglySorted Z.lt (response_id <$> first_of_each_id old msgs)
  ∧ (∀ o, old = Some o → Forall (λ i, o < i) (response_id <$> first_of_each_id old msgs)).
Proof.
  intros Hs. revert old. induction Hs as [|x msgs Hs IH Hx]; intros old Hold; simpl.
  { split; [constructor|]. intros; constructor. }
  case_bool_decide as Heq.
  - apply IH. intros o Ho. specialize (Hold o Ho).
    by apply Forall_cons_1 in Hold as [_ ?].
  - destruct (IH (Some (response_id x))) as [IH1 IH2].
    { intros o [= <-]. exact Hx. }
    split.
    + simpl. constructor; [done|]. by apply IH2.
    + intros o Ho. specialize (Hold o Ho).
      apply Forall_cons_1 in Hold as [Hox _].
      assert (o < response_id x) by (subst old; assert (response_id x ≠ o) by congruence; lia).
      simpl. constructor; [done|].
      eapply Forall_impl; [apply (IH2 _ eq_refl)|]. simpl. lia.
Qed.

Lemma first_of_each_id_distinct old msgs :
  NoDup (response_id <$> msgs) →
  (∀ o, old = Some o → o ∉ (response_id <$> msgs)) →
  first_of_each_id old msgs = msgs.
Proof.
  revert old. induction msgs as [|x msgs IH]; intros old Hnd Hold; simpl; [done|].
  simpl in Hnd. apply NoDup_cons in Hnd as [Hx Hnd].
  rewrite bool_decide_false.
  - f_equal. apply IH; [done|]. by intros o [= <-].
  - intros Heq. symmetry in Heq. apply (Hold _ Heq). simpl. apply elem_of_cons. by left.
Qed.

Lemma iter_responses_prefix c classes old msgs :
  Forall (λ m, type m = MESSAGE) msgs →
  (iter_responses c classes old msgs).1 `prefix_of` (payload <$> first_of_each_id old msgs).
Proof.
  revert old. induction msgs as [|m msgs IH]; intros old Hty; simpl; [done|].
  apply Forall_cons_1 in Hty as [Hm Hty].
  case_bool_decide; [by apply IH|].
  rewrite bool_decide_true by done.
  destruct (verify_response c classes m); simpl; [apply prefix_nil|].
  specialize (IH (Some (response_id m)) Hty).
  destruct (iter_responses c classes (Some (response_id m)) msgs) as [ys e]; simpl in *.
  by apply prefix_cons.
Qed.

Lemma iter_responses_complete c classes old msgs :
  Forall (λ m, type m = MESSAGE) msgs →
  Forall (λ m, verify_response c classes m = None) (first_of_each_id old msgs) →
  iter_responses c classes old msgs = (payload <$> first_of_each_id old msgs, None).
Proof.
  revert old. induction msgs as [|m msgs IH]; intros old Hty Hv; simpl in *; [done|].
  apply Forall_cons_1 in Hty as [Hm Hty].
  case_bool_decide; [by apply IH|].
  rewrite bool_decide_true by done.
  apply Forall_cons_1 in Hv as [Hvm Hv]. rewrite Hvm.
  by rewrite (IH _ Hty Hv).
Qed.

Lemma iter_responses_length c classes old msgs :
  (length (iter_responses c classes old msgs).1 <= length msgs)%nat.
Proof.
  revert old. induction msgs as [|m msgs IH]; intros old; simpl; [done|].
  case_bool_decide; [specialize (IH old); lia|].
  case_bool_decide; [|specialize (IH (Some (response_id m))); lia].
  destruct (verify_response c classes m); simpl; [lia|].
  specialize (IH (Some (response_id m))).
  destruct (iter_responses c classes (Some (response_id m)) msgs); simpl in *. lia.
Qed.

(** Without an exception, a record is lost only to the retransmission check. *)
Lemma iter_responses_no_error c classes old msgs :
  Forall (λ m, type m = MESSAGE) msgs →
  (iter_responses c classes old msgs).2 = None →
  (iter_responses c classes old msgs).1 = payload <$> first_of_each_id old msgs.
Proof.
  revert old. induction msgs as [|m msgs IH]; intros old Hty He; simpl in *; [done|].
  apply Forall_cons_1 in Hty as [Hm Hty].
  case_bool_decide; [by apply IH|].
  rewrite bool_decide_true in He |- * by done.
  destruct (verify_response c classes m); simpl in *; [done|].
  specialize (IH (Some (response_id m)) Hty).
  destruct (iter_responses c classes (Some (response_id m)) msgs); simpl in *.
  by rewrite IH.
Qed.

Lemma StronglySorted_filter {A} (R : relation A) (P : A → Prop)
    `{!∀ x, Decision (P x)} (l : list A) :
  StronglySorted R l → StronglySorted R (filter P l).
Proof.
  induction 1 as [|x l Hl IH Hx]; [constructor|].
  destruct (decide (P x)).
  - rewrite filter_cons_True by done. constructor; [done|].
    apply Forall_forall. intros y Hy. apply list_elem_of_filter in Hy as [_ Hy].
    rewrite Forall_forall in Hx. by apply Hx.
  - by rewrite filter_cons_False.
Qed.

Lemma authenticated_not_dropped auth_required m :
  auth_state m = AUTHENTICATED → is_dropped auth_required m = false.
Proof. unfold is_dropped. intros ->. by destruct auth_required. Qed.

Lemma Responses_init_messages req responses auth_required self :
  Responses_init MakeGrrStatus req responses auth_required = Ok self →
  Forall (λ m, type m = MESSAGE) (_responses self) ∧ rs_request self = req.
Proof.
  unfold Responses_init. intros H.
  destruct responses as [[|m l]|]; try (injection H as <-; by split).
  destruct (status _) eqn:Hs in H; [|done]. injection H as <-. split.
  - by apply filter_responses_messages.
  - apply filter_responses_request.
Qed.

(** C1. For a non-empty list of authenticated responses that holds a status
    record, the collator is constructed; its status is the first status record
    in response-id order (the sort is stable) and its success flag is set
    exactly when that status is OK; the records it iterates over are the
    message records before that status, one per response id, in strictly
    ascending response-id order. Whatever the request, what the iteration
    yields is an initial part of their payloads, and it is all of them when
    the request lets the records through the type verification, as every
    request that was not sent to a client does. *)
Theorem Responses_yield_in_order_without_duplicates
    (action_registry : ActionRegistry) (req : option RequestState)
    (auth_required : bool) (responses : list (GrrMessage Payload)) :
  responses ≠ [] →
  Forall (λ m, auth_state m = AUTHENTICATED) responses →
  Exists (λ m, type m = STATUS) responses →
  ∃ self pre st post ms,
    Responses_init MakeGrrStatus req (Some responses) auth_required = Ok self
    ∧ first_status_at (sort_by_response_id responses) pre st post
    ∧ status self = Some (MakeGrrStatus (payload st))
    ∧ (success self = true ↔ status_code (MakeGrrStatus (payload st)) = OK)
    ∧ one_per_response_id pre ms
    ∧ (Responses_iter action_registry self).1 `prefix_of` (payload <$> ms)
    ∧ (type_check_passes action_registry req ms →
       Responses_iter action_registry self = (payload <$> ms, None)).
Proof.
  intros Hne Hauth Hex.
  pose proof (sort_by_response_id_perm responses) as Hperm.
  rewrite <- Hperm in Hauth, Hex.
  destruct (Exists_first_split _ _ Hex) as (pre & st & post & Hsplit & Hst & Hpre).
  set (self0 := {| status := None; success := true; rs_request := req;
       _auth_required := auth_required; _responses := [];
       _dropped_responses := []; iterator := None |} : Responses Payload).
  assert (Hnd : Forall (λ m, is_dropped (_auth_required self0) m = false) (pre ++ [st])).
  { rewrite Hsplit in Hauth. apply Forall_app in Hauth as [Ha1 Ha2].
    apply Forall_cons_1 in Ha2 as [Ha2 _].
    apply Forall_app. split; [|apply Forall_singleton; by apply authenticated_not_dropped].
    eapply Forall_impl; [exact Ha1|]. intros; by apply authenticated_not_dropped. }
  destruct (filter_responses_split pre st post self0 Hnd Hpre Hst) as (Hstatus & Hsucc & Hresp).
  simpl in Hresp. rewrite <- Hsplit in Hstatus, Hsucc, Hresp.
  set (self := filter_responses MakeGrrStatus (sort_by_response_id responses) self0) in *.
  set (kept := filter (λ m, type m = MESSAGE) pre) in *.
  assert (Hkept : Forall (λ m, type m = MESSAGE) kept).
  { apply Forall_forall. intros m Hm. by apply list_elem_of_filter in Hm as [? _]. }
  assert (Hreq : rs_request self = req) by apply filter_responses_request.
  exists self, pre, st, post, (first_of_each_id None kept).
  split_and!.
  - unfold Responses_init. destruct responses as [|m l]; [done|].
    fold self0. fold self. by rewrite Hstatus.
  - done.
  - done.
  - rewrite Hsucc. apply bool_decide_eq_true.
  - split_and!.
    + apply first_of_each_id_sublist.
    + apply first_of_each_id_ascending; [|done].
      apply StronglySorted_filter.
      pose proof (sort_by_response_id_sorted responses) as Hs.
      rewrite Hsplit in Hs. by apply StronglySorted_app_1_l in Hs.
    + intros m Hm Hty.
      destruct (first_of_each_id_covers None kept m) as [?|?]; [|done..].
      apply list_elem_of_filter. by split.
  - unfold Responses_iter. rewrite Hreq, Hresp.
    destruct req as [r|]; [|apply prefix_nil].
    destruct (request r) as [cr|]; [|by apply iter_responses_prefix].
    destruct (action_registry !! name cr); [|apply prefix_nil].
    by apply iter_responses_prefix.
  - intros (r & -> & Hcheck). unfold Responses_iter. rewrite Hreq, Hresp.
    destruct Hcheck as [->|(cr & classes & -> & -> & Hcl & Hall)].
    + apply iter_responses_complete; [done|].
      apply Forall_forall. by intros.
    + apply iter_responses_complete; [done|].
      eapply Forall_impl; [exact Hall|]. intros m [Hn Hin]. simpl.
      destruct classes; [done|].
      rewrite bool_decide_false by done. by rewrite bool_decide_true.
Qed.

(** C3. A non-empty list of responses in which no record that passes the
    authentication check is a status record makes the constructor raise
    FlowError: no collator is returned. *)
Theorem Responses_without_status_raise
    (req : option RequestState) (auth_required : bool)
    (responses : list (GrrMessage Payload)) :
  responses ≠ [] →
  Forall (λ m, is_dropped auth_required m = false → type m ≠ STATUS) responses →
  Responses_init MakeGrrStatus req (Some responses) auth_required
  = Raise (FlowError "No valid Status message.").
Proof.
  intros Hne Hall. unfold Responses_init.
  destruct responses as [|m l]; [done|].
  rewrite filter_responses_no_status; [done|]. simpl _auth_required.
  by rewrite sort_by_response_id_perm.
Qed.


(** C10. Constructing a collator from no responses, [None] or the empty list,
    does not raise: the collator reports success, has no status, has length
    zero and yields nothing. *)
Theorem Responses_of_no_responses
    (action_registry : ActionRegistry) (req : option RequestState)
    (auth_required : bool) :
  Forall (λ responses,
      ∃ self, Responses_init MakeGrrStatus req responses auth_required = Ok self
        ∧ success self = true ∧ status self = None
        ∧ Responses_len self = 0%nat
        ∧ (Responses_iter action_registry self).1 = [])
    [None; Some []].
Proof.
  repeat constructor; eexists; (split; [reflexivity|]); split_and!; try done;
    unfold Responses_iter; simpl; repeat case_match; done.
Qed.
End CollatorProperties.

(** * Properties of the queue manager *)

Section QueueProperties.
Context {Payload : Type}.
Context (max_ttl : Z).

Implicit Types (r row : Row) (rows scanned rest : list Row) (s : Scan).
Implicit Types (store : DataStore) (stats : Stats) (env : Env).
Implicit Types (self : QueueManager Payload).

(** *** Dictionaries of lists *)

Lemma setdefault_append_keys {K A} `{EqDecision K} (k : K) (a : A) (d : list (K * list A)) k' :
  k' ∈ (setdefault_append k a d).*1 ↔ k' = k ∨ k' ∈ d.*1.
Proof.
  induction d as [|[k0 vs] d IH]; simpl.
  - rewrite list_elem_of_singleton, elem_of_nil. tauto.
  - destruct (decide (k = k0)) as [->|Hne]; simpl.
    + rewrite !elem_of_cons. tauto.
    + rewrite !elem_of_cons, IH. tauto.
Qed.

Lemma setdefault_append_entries {K A} `{EqDecision K} (k : K) (a : A) (d : list (K * list A)) :
  entries (setdefault_append k a d) ≡ₚ entries d ++ [(k, a)].
Proof.
  unfold entries. induction d as [|[k0 vs] d IH]; simpl; [done|].
  destruct (decide (k = k0)) as [->|Hne]; simpl.
  - rewrite fmap_app. simpl. rewrite <- !app_assoc.
    apply Permutation_app_head. simpl.
    rewrite <- Permutation_middle. by rewrite app_nil_r.
  - rewrite IH. by rewrite app_assoc.
Qed.

Lemma iteritems_elem_of {K V} (o : DictOrder) (d : list (K * V)) kv :
  kv ∈ iteritems o d ↔ kv ∈ d.
Proof. by rewrite (iteritems_order o d). Qed.

Lemma iteritems_keys {K V} (o : DictOrder) (d : list (K * V)) k :
  k ∈ (iteritems o d).*1 ↔ k ∈ d.*1.
Proof. by rewrite (iteritems_order o d). Qed.

Lemma iteritems_entries {K A} (o : DictOrder) (d : list (K * list A)) :
  entries (iteritems o d) ≡ₚ entries d.
Proof. unfold entries. by rewrite (iteritems_order o d). Qed.

Lemma iteritems_nil {K V} (o : DictOrder) : iteritems o ([] : list (K * V)) = [].
Proof. apply Permutation_nil_r. by rewrite (iteritems_order o []). Qed.

Lemma iteritems_singleton {K V} (o : DictOrder) (kv : K * V) : iteritems o [kv] = [kv].
Proof. apply Permutation_singleton_r. by rewrite (iteritems_order o [kv]). Qed.

(** *** The loop of [_QueryAndOwn] *)

Lemma survivors_cons_True r scanned :
  1 < task_ttl (value r) → survivors (r :: scanned) = r :: survivors scanned.
Proof. intros. unfold survivors. by rewrite filter_cons_True. Qed.

Lemma survivors_cons_False r scanned :
  task_ttl (value r) <= 1 → survivors (r :: scanned) = survivors scanned.
Proof. intros. unfold survivors. rewrite filter_cons_False; [done|lia]. Qed.

Lemma expired_cons_True r scanned :
  task_ttl (value r) <= 1 → expired (r :: scanned) = r :: expired scanned.
Proof. intros. unfold expired. by rewrite filter_cons_True. Qed.

Lemma expired_cons_False r scanned :
  1 < task_ttl (value r) → expired (r :: scanned) = expired scanned.
Proof. intros. unfold expired. rewrite filter_cons_False; [done|lia]. Qed.

Lemma scan_tasks_stops limit tag rows s :
  ∃ scanned rest,
    rows = scanned ++ rest
    ∧ tasks (scan_tasks max_ttl limit tag rows s)
      = tasks s ++ (leased_task tag <$> survivors scanned)
    ∧ delete_attrs (scan_tasks max_ttl limit tag rows s)
      = delete_attrs s ∪ list_to_set (predicate <$> expired scanned)
    ∧ (∀ p, p ∈ (serialized_tasks_dict (scan_tasks max_ttl limit tag rows s)).*1
          ↔ p ∈ (serialized_tasks_dict s).*1 ∨ p ∈ predicate <$> survivors scanned)
    ∧ entries (serialized_tasks_dict (scan_tasks max_ttl limit tag rows s))
      ≡ₚ entries (serialized_tasks_dict s)
         ++ ((λ r, (predicate r, leased_task tag r)) <$> survivors scanned)
    ∧ grr_task_ttl_expired_count (scan_stats (scan_tasks max_ttl limit tag rows s))
      = (grr_task_ttl_expired_count (scan_stats s) + length (expired scanned))%nat
    ∧ (rest ≠ [] → limit <= Z.of_nat (length (tasks (scan_tasks max_ttl limit tag rows s))))
    ∧ (Z.of_nat (length (tasks s)) < limit →
       Z.of_nat (length (tasks (scan_tasks max_ttl limit tag rows s))) <= limit)
    ∧ (Z.of_nat (length (tasks s)) < limit →
       ∀ init tail, scanned = init ++ tail → tail ≠ [] →
         Z.of_nat (length (tasks s)) + Z.of_nat (length (survivors init)) < limit).
Proof.
  revert s. induction rows as [|r rows IH]; intros s.
  { exists [], []. simpl. split_and!; try done; try lia.
    - by rewrite app_nil_r.
    - by rewrite union_empty_r_L.
    - intros p. rewrite elem_of_nil. tauto.
    - by rewrite app_nil_r.
    - intros _ init tail Happ Htail. symmetry in Happ.
      by apply app_eq_nil in Happ as [_ ?]. }
  simpl. destruct (Z.leb_spec (task_ttl (value r) - 1) 0) as [Hexp|Hsurv].
  - match goal with |- context [scan_tasks _ _ _ rows ?s1] =>
      destruct (IH s1) as (scanned & rest & -> & Ht & Hd & Hk & He & Hc & Hl & Hb & Hs) end.
    exists (r :: scanned), rest. simpl in *.
    rewrite survivors_cons_False, expired_cons_True by lia.
    split_and!; try done.
    + rewrite Hd. simpl. by rewrite (assoc_L (∪)).
    + rewrite Hc. simpl. lia.
    + intros Hlt init tail Happ Htail. destruct init as [|r' init].
      { simpl. lia. }
      simpl in Happ. injection Happ as <- Happ.
      rewrite survivors_cons_False by lia. by apply (Hs Hlt init tail).
  - match goal with |- context [if ?c then ?s1 else _] => set (s' := s1) end.
    destruct (Z.of_nat (length (tasks s ++ [leased_task tag r])) >=? limit) eqn:Hfull.
    + apply Z.geb_le in Hfull. exists [r], rows.
      rewrite survivors_cons_True, expired_cons_False by lia.
      unfold survivors, expired. rewrite !filter_nil. simpl.
      split_and!; try done.
      * by rewrite union_empty_r_L.
      * intros p. rewrite setdefault_append_keys, list_elem_of_singleton. tauto.
      * apply setdefault_append_entries.
      * destruct (bool_decide _); simpl; lia.
      * intros Hlt. rewrite length_app in *. simpl in *. lia.
      * intros Hlt init tail Happ Htail. destruct init as [|r' init].
        { simpl. lia. }
        simpl in Happ. injection Happ as <- Happ. symmetry in Happ.
        by apply app_eq_nil in Happ as [_ ?].
    + rewrite Z.geb_leb in Hfull. apply Z.leb_gt in Hfull.
      destruct (IH s') as (scanned & rest & -> & Ht & Hd & Hk & He & Hc & Hl & Hb & Hs).
      exists (r :: scanned), rest.
      rewrite survivors_cons_True, expired_cons_False by lia.
      split_and!; try done.
      * rewrite Ht. subst s'. simpl. by rewrite <- app_assoc.
      * intros p. rewrite Hk. subst s'. simpl.
        rewrite setdefault_append_keys, elem_of_cons. tauto.
      * rewrite He. subst s'. simpl. rewrite setdefault_append_entries.
        by rewrite <- app_assoc.
      * rewrite Hc. subst s'. simpl. destruct (bool_decide _); simpl; lia.
      * intros _. apply Hb. subst s'. simpl. exact Hfull.
      * intros Hlt init tail Happ Htail. destruct init as [|r' init].
        { simpl. lia. }
        simpl in Happ. injection Happ as <- Happ.
        rewrite survivors_cons_True by lia.
        specialize (Hs Hfull init tail Happ Htail). subst s'. simpl in Hs.
        rewrite length_app in Hs. simpl in *. lia.
Qed.

Lemma scan_tasks_spec limit tag rows s :
  ∃ scanned rest,
    rows = scanned ++ rest
    ∧ tasks (scan_tasks max_ttl limit tag rows s)
      = tasks s ++ (leased_task tag <$> survivors scanned)
    ∧ delete_attrs (scan_tasks max_ttl limit tag rows s)
      = delete_attrs s ∪ list_to_set (predicate <$> expired scanned)
    ∧ (∀ p, p ∈ (serialized_tasks_dict (scan_tasks max_ttl limit tag rows s)).*1
          ↔ p ∈ (serialized_tasks_dict s).*1 ∨ p ∈ predicate <$> survivors scanned)
    ∧ entries (serialized_tasks_dict (scan_tasks max_ttl limit tag rows s))
      ≡ₚ entries (serialized_tasks_dict s)
         ++ ((λ r, (predicate r, leased_task tag r)) <$> survivors scanned)
    ∧ grr_task_ttl_expired_count (scan_stats (scan_tasks max_ttl limit tag rows s))
      = (grr_task_ttl_expired_count (scan_stats s) + length (expired scanned))%nat
    ∧ (rest ≠ [] → limit <= Z.of_nat (length (tasks (scan_tasks max_ttl limit tag rows s))))
    ∧ (Z.of_nat (length (tasks s)) < limit →
       Z.of_nat (length (tasks (scan_tasks max_ttl limit tag rows s))) <= limit).
Proof.
  destruct (scan_tasks_stops limit tag rows s)
    as (scanned & rest & H1 & H2 & H3 & H4 & H5 & H6 & H7 & H8 & _).
  by exists scanned, rest.
Qed.

Lemma scanned_expired_or_survivor scanned r :
  r ∈ scanned ↔ r ∈ expired scanned ∨ r ∈ survivors scanned.
Proof.
  unfold expired, survivors. rewrite !list_elem_of_filter. split.
  - intros Hr. destruct (decide (1 < task_ttl (value r))); [right|left]; split;
      first [done|lia].
  - intros [[_ ?]|[_ ?]]; done.
Qed.

Lemma filter_all {A} (P : A → Prop) `{!∀ x, Decision (P x)} (l : list A) :
  Forall P l → filter P l = l.
Proof.
  induction 1 as [|x l Hx Hl IH]; [done|].
  rewrite filter_cons_True by done. by rewrite IH.
Qed.

Lemma entries_rows (values : list (string * list Task)) (ts : Z) :
  values ≫= (λ '(p, vs), (λ v, {| predicate := p; value := v; row_timestamp := ts |}) <$> vs)
  = (λ pv, {| predicate := pv.1; value := pv.2; row_timestamp := ts |}) <$> entries values.
Proof.
  unfold entries. induction values as [|[p vs] values IH]; [done|].
  rewrite !bind_cons, fmap_app, IH. f_equal.
  by rewrite <- list_fmap_compose.
Qed.

Lemma rows_of_insert store q rows : rows_of (<[q := rows]> store) q = rows.
Proof. unfold rows_of. by rewrite lookup_insert_eq. Qed.

Lemma rows_of_insert_ne store q q' rows :
  q' ≠ q → rows_of (<[q := rows]> store) q' = rows_of store q'.
Proof. intros. unfold rows_of. by rewrite lookup_insert_ne. Qed.

(** What a call of [_QueryAndOwn] does when the store answers. *)
Lemma _QueryAndOwn_stops self env q lease_seconds limit user store stats :
  ResolvePrefix_raises env = None → MultiSet_raises env = None →
  ∃ scanned rest store' stats',
    ResolvePrefix store q TASK_PREDICATE_PREFIX (0, frozen_timestamp_or_Now self env)
      = scanned ++ rest
    ∧ _QueryAndOwn max_ttl self env q lease_seconds limit user store stats
      = (Ok (leased_task (lease_tag_of user env) <$> survivors scanned), store', stats')
    ∧ rows_of store' q
      ≡ₚ filter (λ row, predicate row ∉ predicate <$> scanned) (rows_of store q)
         ++ (leased_row (lease_tag_of user env) (time_time env + lease_seconds * 1000000)
               <$> survivors scanned)
    ∧ (∀ q', q' ≠ q → rows_of store' q' = rows_of store q')
    ∧ grr_task_ttl_expired_count stats'
      = (grr_task_ttl_expired_count stats + length (expired scanned))%nat
    ∧ (rest ≠ [] → limit <= Z.of_nat (length (survivors scanned)))
    ∧ (1 <= limit → Z.of_nat (length (survivors scanned)) <= limit)
    ∧ (1 <= limit → ∀ init tail, scanned = init ++ tail → tail ≠ [] →
         Z.of_nat (length (survivors init)) < limit).
Proof.
  intros HR HM. unfold _QueryAndOwn. rewrite HR, HM.
  set (rows := ResolvePrefix _ _ _ _).
  set (s0 := {| tasks := []; delete_attrs := ∅; serialized_tasks_dict := [];
                scan_stats := stats |}).
  destruct (scan_tasks_stops limit (lease_tag_of user env) rows s0)
    as (scanned & rest & Hrows & Ht & Hd & Hk & He & Hc & Hl & Hb & Hs).
  set (s := scan_tasks max_ttl limit (lease_tag_of user env) rows s0) in *.
  simpl in Ht, Hd, Hk, He, Hc, Hl, Hb, Hs.
  rewrite Ht, length_fmap in Hl, Hb.
  assert (Hstop : 1 <= limit → ∀ init tail, scanned = init ++ tail → tail ≠ [] →
            Z.of_nat (length (survivors init)) < limit).
  { intros Hlimit init tail Happ Htail.
    specialize (Hs ltac:(lia) init tail Happ Htail). lia. }
  exists scanned, rest. rewrite Ht.
  case_bool_decide as Hw.
  - eexists _, _. split_and!; [done|reflexivity|..|done|done|lia|done].
    + unfold MultiSet. rewrite rows_of_insert. apply Permutation_app.
      * erewrite list_filter_iff; [done|]. intros row. simpl.
        rewrite iteritems_keys.
        rewrite Hd, Hk, elem_of_union, elem_of_empty, elem_of_list_to_set, elem_of_nil.
        rewrite !list_elem_of_fmap. split.
        -- intros [H1 H2] (r & Hp & Hr). apply scanned_expired_or_survivor in Hr as [Hr|Hr].
           ++ apply H1. right. eauto.
           ++ apply H2. right. eauto.
        -- intros Hn. split.
           ++ intros [[]|(r & Hp & Hr)]. apply Hn. exists r. split; [done|].
              apply scanned_expired_or_survivor. by left.
           ++ intros [[]|(r & Hp & Hr)]. apply Hn. exists r. split; [done|].
              apply scanned_expired_or_survivor. by right.
      * rewrite entries_rows, iteritems_entries, He. simpl.
        rewrite <- list_fmap_compose. done.
    + intros q' Hq'. unfold MultiSet. by apply rows_of_insert_ne.
  - assert (Hnone : scanned = []).
    { assert (Hw1 : delete_attrs s = ∅).
      { destruct (decide (delete_attrs s = ∅)); [done|]. exfalso. apply Hw. by left. }
      assert (Hw2 : serialized_tasks_dict s = []).
      { destruct (serialized_tasks_dict s); [done|]. exfalso. apply Hw. by right. }
      destruct scanned as [|r scanned]; [done|]. exfalso.
      assert (Hr : r ∈ r :: scanned) by (apply elem_of_cons; by left).
      apply scanned_expired_or_survivor in Hr as [Hr|Hr].
      - assert (Hp : predicate r ∈ delete_attrs s).
        { rewrite Hd. apply elem_of_union. right. apply elem_of_list_to_set.
          by apply list_elem_of_fmap_2. }
        rewrite Hw1 in Hp. by apply elem_of_empty in Hp.
      - assert (Hp : predicate r ∈ (serialized_tasks_dict s).*1).
        { apply Hk. right. by apply list_elem_of_fmap_2. }
        rewrite Hw2 in Hp. by apply elem_of_nil in Hp. }
    subst scanned. eexists _, _. split_and!; [done|reflexivity|..|done|done|lia|done].
    + simpl. rewrite app_nil_r. rewrite filter_all; [done|].
      apply Forall_forall. intros row _. simpl. apply not_elem_of_nil.
    + done.
Qed.

Lemma _QueryAndOwn_spec self env q lease_seconds limit user store stats :
  ResolvePrefix_raises env = None → MultiSet_raises env = None →
  ∃ scanned rest store' stats',
    ResolvePrefix store q TASK_PREDICATE_PREFIX (0, frozen_timestamp_or_Now self env)
      = scanned ++ rest
    ∧ _QueryAndOwn max_ttl self env q lease_seconds limit user store stats
      = (Ok (leased_task (lease_tag_of user env) <$> survivors scanned), store', stats')
    ∧ rows_of store' q
      ≡ₚ filter (λ row, predicate row ∉ predicate <$> scanned) (rows_of store q)
         ++ (leased_row (lease_tag_of user env) (time_time env + lease_seconds * 1000000)
               <$> survivors scanned)
    ∧ (∀ q', q' ≠ q → rows_of store' q' = rows_of store q')
    ∧ grr_task_ttl_expired_count stats'
      = (grr_task_ttl_expired_count stats + length (expired scanned))%nat
    ∧ (rest ≠ [] → limit <= Z.of_nat (length (survivors scanned)))
    ∧ (1 <= limit → Z.of_nat (length (survivors scanned)) <= limit).
Proof.
  intros HR HM.
  destruct (_QueryAndOwn_stops self env q lease_seconds limit user store stats HR HM)
    as (scanned & rest & store' & stats' & H1 & H2 & H3 & H4 & H5 & H6 & H7 & _).
  by exists scanned, rest, store', stats'.
Qed.

Lemma NoDup_fmap_eq {A B} (f : A → B) (l : list A) x y :
  NoDup (f <$> l) → x ∈ l → y ∈ l → f x = f y → x = y.
Proof.
  induction l as [|a l IH]; simpl; intros Hnd Hx Hy Hf; [by apply elem_of_nil in Hx|].
  apply NoDup_cons in Hnd as [Ha Hnd].
  apply elem_of_cons in Hx as [->|Hx]; apply elem_of_cons in Hy as [->|Hy]; [done|..].
  - exfalso. apply Ha. rewrite Hf. by apply list_elem_of_fmap_2.
  - exfalso. apply Ha. rewrite <- Hf. by apply list_elem_of_fmap_2.
  - by apply IH.
Qed.

Lemma ResolvePrefix_sublist store q prefix range :
  ResolvePrefix store q prefix range `sublist_of` rows_of store q.
Proof. apply sublist_filter. Qed.

Lemma survivors_sublist scanned : survivors scanned `sublist_of` scanned.
Proof. apply sublist_filter. Qed.

Lemma elem_of_survivors scanned r :
  r ∈ survivors scanned ↔ 1 < task_ttl (value r) ∧ r ∈ scanned.
Proof. unfold survivors. by rewrite list_elem_of_filter. Qed.

(** [QueryAndOwn] when the lock is obtained. *)
Lemma QueryAndOwn_locked self env q lease_seconds limit store stats result store' stats' :
  LockRetryWrapper_raises env = None →
  _QueryAndOwn max_ttl self env q lease_seconds limit (default "" (token self)) store stats
    = (Ok result, store', stats') →
  QueryAndOwn max_ttl self env q lease_seconds limit store stats = (Ok result, store', stats').
Proof. intros HL H. unfold QueryAndOwn. by rewrite HL, H. Qed.

(** C2, as amended. A call that obtains the lock, with a limit of at least
    one, scans the visible tasks (timestamp between zero and the frozen
    timestamp, or the time of the call when none is frozen) in the order in
    which the store returns them, and stops as soon as it holds [limit]
    survivors: [scanned] is what it scans and [rest] what it leaves; no part
    of the scan short of its last row holds [limit] survivors, and when the
    call returns [limit] tasks the last row that it scanned is a survivor.
    Each scanned task has its TTL decremented by one; those whose TTL reaches
    zero are deleted from the queue and counted; the others are written back
    with the decremented TTL and the visibility timestamp [time +
    lease_seconds] (in microseconds) and are returned, in the order of the
    scan, which is not the order of priorities. The rows that were not
    scanned stay as they were. *)
Theorem QueryAndOwn_leases_in_scan_order
    self env q lease_seconds limit store stats :
  store_answers env → 1 <= limit →
  let lease_tag := lease_tag_of (default "" (token self)) env in
  ∃ scanned rest store' stats',
    ResolvePrefix store q TASK_PREDICATE_PREFIX (0, frozen_timestamp_or_Now self env)
      = scanned ++ rest
    ∧ QueryAndOwn max_ttl self env q lease_seconds limit store stats
      = (Ok (leased_task lease_tag <$> survivors scanned), store', stats')
    ∧ Forall (λ r, task_ttl (leased_task lease_tag r) = task_ttl (value r) - 1) scanned
    ∧ rows_of store' q
      ≡ₚ filter (λ row, predicate row ∉ predicate <$> scanned) (rows_of store q)
         ++ (leased_row lease_tag (time_time env + lease_seconds * 1000000)
               <$> survivors scanned)
    ∧ grr_task_ttl_expired_count stats'
      = (grr_task_ttl_expired_count stats + length (expired scanned))%nat
    ∧ Z.of_nat (length (survivors scanned)) <= limit
    ∧ (rest ≠ [] → Z.of_nat (length (survivors scanned)) = limit)
    ∧ (∀ init tail, scanned = init ++ tail → tail ≠ [] →
         Z.of_nat (length (survivors init)) < limit)
    ∧ (Z.of_nat (length (survivors scanned)) = limit →
       ∃ init r, scanned = init ++ [r] ∧ 1 < task_ttl (value r)).
Proof.
  intros (HL & HR & HM) Hlimit lease_tag.
  destruct (_QueryAndOwn_stops self env q lease_seconds limit (default "" (token self))
              store stats HR HM)
    as (scanned & rest & store' & stats' & Hv & Hq & Hrows & _ & Hc & Hl & Hb & Hs).
  exists scanned, rest, store', stats'. split_and!; try done.
  - by apply QueryAndOwn_locked.
  - by apply Forall_forall.
  - by apply Hb.
  - intros Hrest. specialize (Hl Hrest). specialize (Hb Hlimit). lia.
  - by apply Hs.
  - intros Hfull. specialize (Hs Hlimit).
    destruct scanned as [|r0 scanned0] using rev_ind; [simpl in Hfull; lia|].
    clear IHscanned0. exists scanned0, r0. split; [done|].
    specialize (Hs scanned0 [r0] eq_refl ltac:(done)).
    destruct (decide (1 < task_ttl (value r0))) as [|Hexp]; [done|]. exfalso.
    unfold survivors in Hfull, Hs. rewrite filter_app, length_app in Hfull.
    rewrite filter_cons_False in Hfull by done. simpl in Hfull. lia.
Qed.

(** *** Where rows and returned tasks come from, whatever the store does *)

Lemma _QueryAndOwn_origin self env q lease_seconds limit user store stats
    result store' stats' :
  _QueryAndOwn max_ttl self env q lease_seconds limit user store stats
    = (result, store', stats') →
  (∀ row, row ∈ rows_of store' q →
     comes_from (rows_of store q) (predicate row) (task_id (value row)))
  ∧ (∀ ts t, result = Ok ts → t ∈ ts →
     ∃ r, r ∈ rows_of store q ∧ task_id t = task_id (value r)).
Proof.
  unfold _QueryAndOwn.
  assert (Hid : ∀ row, row ∈ rows_of store q →
            comes_from (rows_of store q) (predicate row) (task_id (value row))).
  { intros row Hrow. by exists row. }
  destruct (ResolvePrefix_raises env) as [e|].
  { intros [= <- <- <-]. split; [done|]. by intros. }
  set (rows := ResolvePrefix _ _ _ _).
  set (s0 := {| tasks := []; delete_attrs := ∅; serialized_tasks_dict := [];
                scan_stats := stats |}).
  destruct (scan_tasks_spec limit (lease_tag_of user env) rows s0)
    as (scanned & rest & Hrows & Ht & Hd & Hk & He & Hc & Hl & Hb).
  set (s := scan_tasks max_ttl limit (lease_tag_of user env) rows s0) in *.
  simpl in Ht, He.
  assert (Hscanned : ∀ r, r ∈ scanned → r ∈ rows_of store q).
  { intros r Hr. eapply elem_of_sublist; [|apply (ResolvePrefix_sublist store q
      TASK_PREDICATE_PREFIX (0, frozen_timestamp_or_Now self env))].
    fold rows. rewrite Hrows. apply elem_of_app. by left. }
  assert (Htasks : ∀ t, t ∈ tasks s → ∃ r, r ∈ rows_of store q ∧ task_id t = task_id (value r)).
  { intros t. rewrite Ht. intros (r & -> & Hr)%list_elem_of_fmap.
    apply elem_of_survivors in Hr as [_ Hr]. exists r. split; [by apply Hscanned|done]. }
  case_bool_decide.
  - destruct (MultiSet_raises env) as [e|].
    { intros [= <- <- <-]. split; [done|]. by intros. }
    intros [= <- <- <-]. split.
    + intros row. unfold MultiSet. rewrite rows_of_insert, elem_of_app.
      intros [Hrow|Hrow].
      * apply list_elem_of_filter in Hrow as [_ Hrow]. by apply Hid.
      * rewrite entries_rows, iteritems_entries, He in Hrow. simpl in Hrow.
        apply list_elem_of_fmap in Hrow as (pv & -> & Hpv).
        apply list_elem_of_fmap in Hpv as (r & -> & Hr).
        apply elem_of_survivors in Hr as [_ Hr]. exists r. split; [by apply Hscanned|done].
    + intros ts t [= <-]. apply Htasks.
  - intros [= <- <- <-]. split; [done|]. intros ts t [= <-]. apply Htasks.
Qed.

Lemma QueryAndOwn_origin self env q lease_seconds limit store stats
    result store' stats' :
  QueryAndOwn max_ttl self env q lease_seconds limit store stats
    = (result, store', stats') →
  (∀ row, row ∈ rows_of store' q →
     comes_from (rows_of store q) (predicate row) (task_id (value row)))
  ∧ (∀ ts t, result = Ok ts → t ∈ ts →
     ∃ r, r ∈ rows_of store q ∧ task_id t = task_id (value r)).
Proof.
  unfold QueryAndOwn.
  destruct (LockRetryWrapper_raises env) as [e|].
  { destruct e; intros [= <- <- <-]; (split; [intros row Hrow; by exists row|]);
      intros ts t [= <-] Ht; by apply elem_of_nil in Ht. }
  destruct (_QueryAndOwn _ _ _ _ _ _ _ _ _) as [[r st] sts] eqn:Hq.
  apply _QueryAndOwn_origin in Hq as [H1 H2].
  destruct r as [ts'|e].
  { intros [= <- <- <-]. by split. }
  destruct e; intros [= <- <- <-]; (split; [done|]);
    intros ts t [= <-] Ht; by apply elem_of_nil in Ht.
Qed.

Lemma QueryAndOwn_repeatedly_never_returns q i (calls : list (Call Payload)) store stats :
  Forall (λ r, predicate r = _TaskIdToColumn (task_id (value r))) (rows_of store q) →
  _TaskIdToColumn i ∉ predicate <$> rows_of store q →
  Forall (λ result, ∀ ts, result = Ok ts → Forall (λ t, task_id t ≠ i) ts)
    (QueryAndOwn_repeatedly max_ttl q calls store stats).1.1.
Proof.
  revert store stats. induction calls as [|c calls IH]; intros store stats Hwf Hi; simpl.
  { constructor. }
  destruct (QueryAndOwn _ _ _ _ _ _ _ _) as [[result store1] stats1] eqn:Hq.
  apply QueryAndOwn_origin in Hq as [Hrows Hres].
  specialize (IH store1 stats1).
  destruct (QueryAndOwn_repeatedly _ _ _ _ _) as [[results store2] stats2].
  simpl in *. rewrite Forall_forall in Hwf. constructor.
  - intros ts ->. apply Forall_forall. intros t Ht Heq.
    destruct (Hres ts t eq_refl Ht) as (r & Hr & Hid).
    apply Hi. apply list_elem_of_fmap. exists r. split; [|done].
    rewrite (Hwf r Hr). congruence.
  - apply IH.
    + apply Forall_forall. intros row Hrow.
      destruct (Hrows row Hrow) as (r & Hr & -> & ->). by apply Hwf.
    + intros (row & Hp & Hrow)%list_elem_of_fmap.
      destruct (Hrows row Hrow) as (r & Hr & Hp' & _).
      apply Hi. apply list_elem_of_fmap. exists r. split; [congruence|done].
Qed.

(** C4. On a queue that stores each task once, a call that obtains the lock
    leases the scanned tasks whose TTL is above one: each is returned and
    stored with its TTL decremented by exactly one. A scanned task whose TTL
    is one or less reaches zero: it is removed from the queue, it is not
    returned, and [grr_task_ttl_expired_count] goes up by one for each such
    task in the same call. A task that is not in the queue any more is not
    returned by any later sequence of calls on the queue, whatever the store
    does during them. *)
Theorem QueryAndOwn_counts_down_ttl self env q lease_seconds limit store stats :
  store_answers env →
  queue_well_formed (rows_of store q) →
  let lease_tag := lease_tag_of (default "" (token self)) env in
  let lease_end := time_time env + lease_seconds * 1000000 in
  ∃ scanned rest returned store' stats',
    ResolvePrefix store q TASK_PREDICATE_PREFIX (0, frozen_timestamp_or_Now self env)
      = scanned ++ rest
    ∧ QueryAndOwn max_ttl self env q lease_seconds limit store stats
      = (Ok returned, store', stats')
    ∧ queue_well_formed (rows_of store' q)
    ∧ (∀ r, r ∈ scanned → 1 < task_ttl (value r) →
         leased_task lease_tag r ∈ returned
         ∧ task_ttl (leased_task lease_tag r) = task_ttl (value r) - 1
         ∧ leased_row lease_tag lease_end r ∈ rows_of store' q)
    ∧ (∀ t, t ∈ returned →
         ∃ r, r ∈ scanned ∧ 1 < task_ttl (value r) ∧ t = leased_task lease_tag r)
    ∧ (∀ r, r ∈ scanned → task_ttl (value r) <= 1 →
         (predicate r ∉ predicate <$> rows_of store' q)
         ∧ Forall (λ t, task_id t ≠ task_id (value r)) returned)
    ∧ grr_task_ttl_expired_count stats'
      = (grr_task_ttl_expired_count stats + length (expired scanned))%nat
    ∧ (∀ i, _TaskIdToColumn i ∉ predicate <$> rows_of store' q →
         ∀ calls : list (Call Payload),
           Forall (λ result, ∀ ts, result = Ok ts → Forall (λ t, task_id t ≠ i) ts)
             (QueryAndOwn_repeatedly max_ttl q calls store' stats').1.1).
Proof.
  intros (HL & HR & HM) [Hnd Hwf] lease_tag lease_end.
  destruct (_QueryAndOwn_spec self env q lease_seconds limit (default "" (token self))
              store stats HR HM)
    as (scanned & rest & store' & stats' & Hv & Hq & Hrows & _ & Hc & _ & _).
  fold lease_tag lease_end in Hq, Hrows.
  rewrite Forall_forall in Hwf.
  assert (Hsub : scanned `sublist_of` rows_of store q).
  { etrans; [|apply (ResolvePrefix_sublist store q TASK_PREDICATE_PREFIX
                       (0, frozen_timestamp_or_Now self env))].
    rewrite Hv. apply sublist_inserts_r. done. }
  assert (Hin : ∀ r, r ∈ scanned → r ∈ rows_of store q).
  { intros r Hr. by eapply elem_of_sublist. }
  assert (Hnds : NoDup (predicate <$> scanned)).
  { eapply sublist_NoDup; [exact Hnd|]. by apply fmap_sublist. }
  assert (Hpl : predicate <$> (leased_row lease_tag lease_end <$> survivors scanned)
                = predicate <$> survivors scanned).
  { rewrite <- list_fmap_compose. done. }
  assert (Hwf' : queue_well_formed (rows_of store' q)).
  { split.
    - rewrite Hrows, fmap_app. apply NoDup_app. split_and!.
      + eapply sublist_NoDup; [exact Hnd|]. apply fmap_sublist, sublist_filter.
      + intros p (row & -> & Hrow)%list_elem_of_fmap. rewrite Hpl.
        apply list_elem_of_filter in Hrow as [Hrow _].
        intros (r & Hp & Hr)%list_elem_of_fmap. apply Hrow. rewrite Hp.
        apply list_elem_of_fmap_2. by apply elem_of_survivors in Hr as [_ ?].
      + rewrite Hpl. eapply sublist_NoDup; [exact Hnds|].
        apply fmap_sublist, survivors_sublist.
    - apply Forall_forall. intros row. rewrite Hrows, elem_of_app.
      intros [Hrow|Hrow].
      + apply list_elem_of_filter in Hrow as [_ Hrow]. by apply Hwf.
      + apply list_elem_of_fmap in Hrow as (r & -> & Hr). simpl.
        apply Hwf, Hin. by apply elem_of_survivors in Hr as [_ ?]. }
  exists scanned, rest, (leased_task lease_tag <$> survivors scanned), store', stats'.
  split_and!; try done.
  - by apply QueryAndOwn_locked.
  - intros r Hr Httl. split_and!; [|done|].
    + apply list_elem_of_fmap_2. by apply elem_of_survivors.
    + rewrite Hrows, elem_of_app. right.
      apply list_elem_of_fmap_2. by apply elem_of_survivors.
  - intros t (r & -> & Hr)%list_elem_of_fmap.
    apply elem_of_survivors in Hr as [? ?]. by exists r.
  - intros r Hr Httl. split.
    + rewrite Hrows, fmap_app, Hpl, elem_of_app. intros [Hp|Hp].
      * apply list_elem_of_fmap in Hp as (row & Hp & Hrow).
        apply list_elem_of_filter in Hrow as [Hrow _]. apply Hrow. rewrite <- Hp.
        by apply list_elem_of_fmap_2.
      * apply list_elem_of_fmap in Hp as (r' & Hp & Hr').
        apply elem_of_survivors in Hr' as [Httl' Hr'].
        assert (r = r') by (by eapply (NoDup_fmap_eq predicate scanned)).
        subst r'. lia.
    + apply Forall_forall. intros t (r' & -> & Hr')%list_elem_of_fmap. simpl.
      apply elem_of_survivors in Hr' as [Httl' Hr'].
      intros Hid.
      assert (r' = r); [|subst r'; lia].
      eapply (NoDup_fmap_eq predicate scanned); [done..|].
      rewrite (Hwf r'), (Hwf r) by auto. by rewrite Hid.
  - intros i Hi calls. apply QueryAndOwn_repeatedly_never_returns; [|done].
    by destruct Hwf'.
Qed.

(** C8. [QueryAndOwn] returns the empty list, and does not raise, when the
    lock on the queue cannot be obtained ([DBSubjectLockError]) or the data
    store raises an error of its own during the call, and when the lock is
    obtained and no task of the queue is visible; in that last case the store
    and the counters are left as they were. *)
Theorem QueryAndOwn_returns_empty_list self env q lease_seconds limit store stats :
  (∀ e, is_caught e → raised_during_leasing env e →
     (QueryAndOwn max_ttl self env q lease_seconds limit store stats).1.1 = Ok [])
  ∧ (LockRetryWrapper_raises env = None → ResolvePrefix_raises env = None →
     ResolvePrefix store q TASK_PREDICATE_PREFIX (0, frozen_timestamp_or_Now self env) = [] →
     QueryAndOwn max_ttl self env q lease_seconds limit store stats = (Ok [], store, stats)).
Proof.
  split.
  - intros e Hcaught Hraised. unfold QueryAndOwn.
    destruct Hraised as [HL|[[HL HR]|(HL & HR & HM)]]; rewrite HL.
    + by destruct Hcaught as [->|[text ->]].
    + unfold _QueryAndOwn. rewrite HR. by destruct Hcaught as [->|[text ->]].
    + unfold _QueryAndOwn. rewrite HR, HM.
      set (rows := ResolvePrefix _ _ _ _).
      set (s0 := {| tasks := []; delete_attrs := ∅; serialized_tasks_dict := [];
                    scan_stats := stats |}).
      destruct (scan_tasks_spec limit (lease_tag_of (default "" (token self)) env) rows s0)
        as (scanned & rest & Hrows & Ht & _ & Hk & _).
      case_bool_decide as Hw.
      * by destruct Hcaught as [->|[text ->]].
      * simpl. rewrite Ht. simpl.
        assert (Hw2 : serialized_tasks_dict
                  (scan_tasks max_ttl limit (lease_tag_of (default "" (token self)) env)
                     rows s0) = []).
        { destruct (serialized_tasks_dict _); [done|]. exfalso. apply Hw. by right. }
        destruct (survivors scanned) as [|r l]; [done|]. exfalso.
        assert (Hp : predicate r ∈ (serialized_tasks_dict
                  (scan_tasks max_ttl limit (lease_tag_of (default "" (token self)) env)
                     rows s0)).*1).
        { apply Hk. right. simpl. apply elem_of_cons. by left. }
        rewrite Hw2 in Hp. by apply elem_of_nil in Hp.
  - intros HL HR Hnone. unfold QueryAndOwn, _QueryAndOwn. rewrite HL, HR, Hnone. simpl.
    rewrite bool_decide_false; [done|]. intros [H|H]; done.
Qed.

(** *** [QueueNotification] *)

Lemma QueueNotification_step self n ts key :
  session_id n ≠ "" →
  notification_key (session_id n) (timestamp_or_frozen self ts) = key →
  let self' := QueueNotification self n ts in
  frozen_timestamp self' = frozen_timestamp self
  ∧ (∀ k, k ≠ key → notifications self' !! k = notifications self !! k)
  ∧ (notifications self' = notifications self
     ∨ notifications self'
       = <[key := set_timestamp n (timestamp_or_frozen self ts)]> (notifications self))
  ∧ at_least (last_status n) (notifications self' !! key)
  ∧ (∀ e, notifications self !! key = Some e →
       at_least (last_status e) (notifications self' !! key)).
Proof.
  intros Hsid Hkey. unfold QueueNotification.
  rewrite bool_decide_false by done. simpl. rewrite Hkey.
  destruct (notifications self !! key) as [existing|] eqn:Hex.
  - destruct (Z.ltb_spec (last_status existing) (last_status n)) as [Hlt|Hge]; simpl.
    + split_and!; [done| |by right| |].
      * intros k Hk. by rewrite lookup_insert_ne.
      * rewrite lookup_insert_eq. eexists. split; [done|]. simpl. lia.
      * intros e [= <-]. rewrite lookup_insert_eq. eexists. split; [done|]. simpl. lia.
    + split_and!; [done|done|by left| |].
      * rewrite Hex. eexists. split; [done|]. lia.
      * intros e [= <-]. rewrite Hex. eexists. split; [done|]. lia.
  - simpl. split_and!; [done| |by right| |done].
    + intros k Hk. by rewrite lookup_insert_ne.
    + rewrite lookup_insert_eq. eexists. split; [done|]. simpl. lia.
Qed.

Lemma at_least_trans x entry entry' :
  at_least x entry →
  (∀ e, entry = Some e → at_least (last_status e) entry') →
  at_least x entry'.
Proof.
  intros (n & -> & Hn) H. destruct (H n eq_refl) as (n' & -> & Hn').
  exists n'. split; [done|lia].
Qed.

Lemma QueueNotification_fold (self0 : QueueManager Payload) key
    (calls : list (GrrNotification * option Z)) self :
  frozen_timestamp self = frozen_timestamp self0 →
  Forall (λ c, session_id c.1 ≠ ""
               ∧ notification_key (session_id c.1) (timestamp_or_frozen self0 c.2) = key)
         calls →
  let self' := foldl (λ qm c, QueueNotification qm c.1 c.2) self calls in
  (∀ k, k ≠ key → notifications self' !! k = notifications self !! k)
  ∧ (notifications self' !! key = notifications self !! key
     ∨ ∃ c, c ∈ calls
         ∧ notifications self' !! key
           = Some (set_timestamp c.1 (timestamp_or_frozen self0 c.2)))
  ∧ Forall (λ c, at_least (last_status c.1) (notifications self' !! key)) calls
  ∧ (∀ e, notifications self !! key = Some e →
       at_least (last_status e) (notifications self' !! key)).
Proof.
  revert self. induction calls as [|[n ts] calls IH]; intros self Hfrozen Hall; simpl.
  { split_and!; [done|by left|constructor|].
    intros e He. exists e. split; [done|lia]. }
  apply Forall_cons_1 in Hall as [[Hsid Hkey] Hall]. simpl in Hsid, Hkey.
  assert (Hts : timestamp_or_frozen self ts = timestamp_or_frozen self0 ts).
  { unfold timestamp_or_frozen. by rewrite Hfrozen. }
  rewrite <- Hts in Hkey.
  destruct (QueueNotification_step self n ts key Hsid Hkey) as (Hf & Hother & Hnew & Hn & Hold).
  destruct (IH (QueueNotification self n ts)) as (IHother & IHnew & IHall & IHold);
    [congruence|done|].
  split_and!.
  - intros k Hk. by rewrite IHother, Hother.
  - destruct IHnew as [IHnew|(c & Hc & IHnew)].
    + rewrite IHnew. destruct Hnew as [-> | ->]; [by left|].
      right. exists (n, ts). split; [apply elem_of_cons; by left|].
      rewrite lookup_insert_eq. simpl. by rewrite Hts.
    + right. exists c. split; [apply elem_of_cons; by right|done].
  - constructor; [|done]. simpl. eapply at_least_trans; [exact Hn|exact IHold].
  - intros e He. eapply at_least_trans; [by apply Hold|exact IHold].
Qed.

Lemma QueueNotification_again (qm : QueueManager Payload) n ts :
  QueueNotification (QueueNotification qm n ts) n ts = QueueNotification qm n ts.
Proof.
  destruct (decide (session_id n = "")) as [Hsid|Hsid].
  { unfold QueueNotification. by rewrite !bool_decide_true. }
  set (key := notification_key (session_id n) (timestamp_or_frozen qm ts)).
  destruct (QueueNotification_step qm n ts key Hsid eq_refl)
    as (Hf & _ & _ & (e & He & Hle) & _).
  revert Hf He. generalize (QueueNotification qm n ts). intros qm1 Hf He.
  unfold QueueNotification. rewrite bool_decide_false by done. simpl.
  replace (timestamp_or_frozen qm1 ts) with (timestamp_or_frozen qm ts)
    by (unfold timestamp_or_frozen; by rewrite Hf).
  fold key. rewrite He.
  destruct (Z.ltb_spec (last_status e) (last_status n)); [lia|done].
Qed.

(** C5. After any number of calls of [QueueNotification], at least one, with
    notifications of a set session id that share the key of session id and
    timestamp, on a manager whose buffer has nothing under that key, the
    buffer holds one notification more, under that key: the notification of
    one of the calls, with the timestamp of that call, and no call had a
    higher [last_status]. Queuing a notification a second time changes
    nothing. *)
Theorem QueueNotification_keeps_highest_last_status
    (self : QueueManager Payload) (key : string)
    (calls : list (GrrNotification * option Z)) :
  calls ≠ [] →
  Forall (λ c, session_id c.1 ≠ ""
               ∧ notification_key (session_id c.1) (timestamp_or_frozen self c.2) = key)
         calls →
  notifications self !! key = None →
  let self' := foldl (λ qm c, QueueNotification qm c.1 c.2) self calls in
  (∃ c, c ∈ calls
     ∧ notifications self'
       = <[key := set_timestamp c.1 (timestamp_or_frozen self c.2)]> (notifications self)
     ∧ Forall (λ c', last_status c'.1 <= last_status c.1) calls)
  ∧ size (notifications self') = S (size (notifications self))
  ∧ (∀ (s : QueueManager Payload) n ts,
       QueueNotification (QueueNotification s n ts) n ts = QueueNotification s n ts).
Proof.
  intros Hne Hall Hnone self'.
  destruct (QueueNotification_fold self key calls self eq_refl Hall)
    as (Hother & Hnew & Hmax & _).
  fold self' in Hother, Hnew, Hmax.
  assert (Hsome : ∃ c, c ∈ calls ∧ notifications self' !! key
             = Some (set_timestamp c.1 (timestamp_or_frozen self c.2))).
  { destruct Hnew as [Hsame|?]; [|done]. exfalso.
    destruct calls as [|c calls]; [done|].
    apply Forall_cons_1 in Hmax as [(n & Hn & _) _]. congruence. }
  destruct Hsome as (c & Hc & Hlookup).
  assert (Heq : notifications self'
          = <[key := set_timestamp c.1 (timestamp_or_frozen self c.2)]> (notifications self)).
  { apply map_eq. intros k. destruct (decide (k = key)) as [->|Hk].
    - by rewrite lookup_insert_eq.
    - rewrite lookup_insert_ne by done. by apply Hother. }
  split_and!.
  - exists c. split_and!; [done..|].
    eapply Forall_impl; [exact Hmax|]. intros c' (n & Hn & Hle). simpl in *.
    rewrite Hlookup in Hn. injection Hn as <-. exact Hle.
  - rewrite Heq. by apply map_size_insert_None.
  - intros s n ts. apply QueueNotification_again.
Qed.
End QueueProperties.

(** * Properties of the dispatcher and of the commit protocol *)

Section FlowProperties.
Context {Payload : Type}.
Context (MakeGrrStatus : Payload → GrrStatus).
Context (SessionQueue : string → string) (ClientQueue : string → string).
Context (Worker_queue_shards : Z).

Implicit Types (self : Flow Payload) (env : Env) (counters : gmap string Z).
Implicit Types (trace : list (Event Payload)) (pool : MutationPool Payload).

Local Arguments bind : simpl never.
Local Arguments FlushMessages : simpl never.

(** *** The writes of [QueueManager.Flush] *)

Lemma Delete_task_writes q ids pool :
  Forall task_write pool → Forall task_write (Delete q ids pool).
Proof.
  intros H. unfold Delete. case_bool_decide; [done|].
  apply Forall_app. split; [done|]. by repeat constructor.
Qed.

Lemma Schedule_task_writes (qm : QueueManager Payload) env scheduled ts pool :
  Forall task_write pool → Forall task_write (Schedule qm env scheduled ts pool).
Proof.
  unfold Schedule. generalize (iteritems (dict_order env) (GroupBy scheduled queue)).
  intros groups.
  revert pool. induction groups as [|[q queued] groups IH]; intros pool H; simpl; [done|].
  apply IH. case_bool_decide; [done|].
  apply Forall_app. split; [done|]. by repeat constructor.
Qed.

(** A call of [GetNotificationShard] raises when the manager has no shard,
    and only then. *)
Lemma GetNotificationShard_result (qm : QueueManager Payload) q counters :
  (GetNotificationShard qm q counters).1
  = if bool_decide (num_notification_shards qm = 0) then Raise ZeroDivisionError
    else Ok (let i := (default 0 (counters !! q) + 1) `mod` num_notification_shards qm in
             if 0 <? i then urn_Add q (pretty i) else q).
Proof. unfold GetNotificationShard. by case_bool_decide. Qed.

Lemma NotifyQueue_result (qm : QueueManager Payload) env n pool counters :
  (NotifyQueue SessionQueue qm env n pool counters).1
  = if bool_decide (num_notification_shards qm = 0) then Raise ZeroDivisionError
    else Ok (pool ++ [CreateNotifications
                        (let q := SessionQueue (session_id n) in
                         let i := (default 0 (counters !! q) + 1)
                                    `mod` num_notification_shards qm in
                         if 0 <? i then urn_Add q (pretty i) else q)
                        (omap (λ notification,
                                 if bool_decide (first_queued notification = 0) then
                                   Some (set_first_queued notification
                                           (frozen_timestamp_or_Now qm env))
                                 else if (Now env - first_queued notification) `div` 1000000
                                         >=? notification_expiry_time
                                 then None
                                 else Some notification) [n])]).
Proof.
  unfold NotifyQueue, _MultiNotifyQueue.
  pose proof (GetNotificationShard_result qm (SessionQueue (session_id n)) counters) as H.
  destruct (GetNotificationShard _ _ _) as [shard counters']. simpl in H. subst shard.
  by case_bool_decide.
Qed.

Lemma notify_each_result (qm : QueueManager Payload) env ns pool counters :
  match (notify_each SessionQueue qm env ns pool counters).1 with
  | Ok pool' =>
      (num_notification_shards qm ≠ 0 ∨ ns = [])
      ∧ ∃ written, pool' = pool ++ written ∧ Forall notification_write written
  | Raise e => e = ZeroDivisionError ∧ num_notification_shards qm = 0 ∧ ns ≠ []
  end.
Proof.
  revert pool counters. induction ns as [|n ns IH]; intros pool counters; simpl.
  { split; [by right|]. exists []. by rewrite app_nil_r. }
  pose proof (NotifyQueue_result qm env n pool counters) as Hn.
  destruct (NotifyQueue SessionQueue qm env n pool counters) as [notified c1].
  simpl in Hn. subst notified. case_bool_decide as Hzero; simpl; [done|].
  match goal with |- context [notify_each _ _ _ _ (pool ++ [?w]) _] =>
    specialize (IH (pool ++ [w]) c1) end.
  destruct (notify_each _ _ _ _ _ _) as [[pool'|e] c2]; simpl in *.
  - destruct IH as [_ (written & -> & Hw)]. split; [by left|].
    eexists (_ :: written). rewrite <- app_assoc. split; [done|].
    constructor; [done|exact Hw].
  - by destruct IH as (_ & ? & _).
Qed.

Lemma QueueManager_Flush_writes (qm : QueueManager Payload) env counters :
  ∃ tasks_written notifications_written,
    (QueueManager_Flush SessionQueue ClientQueue qm env counters).2
    = StoreRequestsAndResponses (request_queue qm) (response_queue qm)
        (requests_to_delete qm)
      :: tasks_written ++ notifications_written
    ∧ Forall task_write tasks_written
    ∧ Forall notification_write notifications_written.
Proof.
  unfold QueueManager_Flush.
  set (deleted := foldl _ _ (iteritems _ (client_messages_to_delete qm))).
  assert (Hdel : Forall task_write deleted).
  { subst deleted. generalize (iteritems (dict_order env) (client_messages_to_delete qm)).
    assert (Hnil : Forall task_write ([] : MutationPool Payload)) by constructor.
    revert Hnil. generalize ([] : MutationPool Payload).
    intros pool Hpool l. revert pool Hpool.
    induction l as [|[c ms] l IH]; intros pool Hpool; simpl; [done|].
    apply IH. by apply Delete_task_writes. }
  set (tasks_written := if bool_decide (new_client_messages qm ≠ []) then _ else deleted).
  assert (Htasks : Forall task_write tasks_written).
  { subst tasks_written. case_bool_decide; [|done].
    generalize (iteritems (dict_order env) (GroupBy (new_client_messages qm) snd)).
    revert Hdel. generalize deleted. intros pool Hpool l. revert pool Hpool.
    induction l as [|[ts ms] l IH]; intros pool Hpool; simpl; [done|].
    apply IH. by apply Schedule_task_writes. }
  pose proof (notify_each_result qm env
                (iteritems (dict_order env) (map_to_list (notifications qm))).*2
                [] counters) as Hn.
  destruct (if bool_decide (notifications qm ≠ ∅) then _ else _)
    as [notified counters'] eqn:Hnotified.
  assert (match notified with
          | Ok written => Forall notification_write written
          | Raise _ => True
          end) as Hwritten.
  { revert Hnotified. case_bool_decide.
    - intros Heq. rewrite Heq in Hn. simpl in Hn. destruct notified; [|done].
      by destruct Hn as [_ (written & -> & ?)].
    - intros [= <- <-]. constructor. }
  destruct notified as [written|e]; simpl.
  - by exists tasks_written, written.
  - exists tasks_written, []. rewrite app_nil_r. split_and!; [done|done|constructor].
Qed.

(** [Flush] raises when it has a notification to place and the manager has
    no shard, and only then; otherwise it leaves the buffers empty. *)
Lemma QueueManager_Flush_result (qm : QueueManager Payload) env counters :
  match (QueueManager_Flush SessionQueue ClientQueue qm env counters).1.1 with
  | Ok flushed =>
      (num_notification_shards qm ≠ 0 ∨ notifications qm = ∅)
      ∧ flushed = flushed_manager qm
  | Raise e =>
      e = ZeroDivisionError ∧ num_notification_shards qm = 0 ∧ notifications qm ≠ ∅
  end.
Proof.
  unfold QueueManager_Flush.
  pose proof (notify_each_result qm env
                (iteritems (dict_order env) (map_to_list (notifications qm))).*2
                [] counters) as Hn.
  destruct (decide (notifications qm = ∅)) as [Hempty|Hsome].
  - rewrite bool_decide_false by (intros H; by apply H). simpl. split; [by right|done].
  - rewrite bool_decide_true by done.
    destruct (notify_each _ _ _ _ _ _) as [[written|e] counters']; simpl in *.
    + destruct Hn as [[Hshards|Hnil] _]; [split; [by left|done]|].
      exfalso. apply Hsome. apply fmap_nil_inv in Hnil.
      apply map_to_list_empty_iff, Permutation_nil_r.
      by rewrite <- (iteritems_order (dict_order env)), Hnil.
    + by destruct Hn as (-> & ? & _).
Qed.

(** *** Traces in the order of the stages *)

Lemma in_stage_order_app trace1 trace2 k :
  in_stage_order trace1 → in_stage_order trace2 →
  Forall (λ e, (stage e <= k)%nat) trace1 →
  Forall (λ e, (k <= stage e)%nat) trace2 →
  in_stage_order (trace1 ++ trace2).
Proof.
  intros H1 H2 Hle Hge. apply StronglySorted_app. split_and!; [|done|done].
  intros e1 e2 He1 He2. rewrite Forall_forall in Hle, Hge.
  specialize (Hle e1 He1). specialize (Hge e2 He2). lia.
Qed.

Lemma in_stage_order_same trace k :
  Forall (λ e, stage e = k) trace → in_stage_order trace.
Proof.
  induction 1 as [|e trace He Htrace IH]; [constructor|].
  constructor; [done|]. eapply Forall_impl; [exact Htrace|]. simpl. lia.
Qed.

Lemma in_stage_order_all_before (P Q : Event Payload → bool) trace :
  in_stage_order trace →
  (∀ e e', Q e = true → P e' = true → (stage e' < stage e)%nat) →
  all_before P Q trace.
Proof.
  intros Hs HPQ t1 e t2 -> HQ.
  apply StronglySorted_app_1_r in Hs. apply StronglySorted_cons in Hs as [Hle _].
  eapply Forall_impl; [exact Hle|]. intros e' Hstage. simpl in Hstage.
  destruct (P e') eqn:HP; [|done].
  specialize (HPQ e e' HQ HP). lia.
Qed.

Lemma queue_writes_in_stage_order (qm : QueueManager Payload) env counters :
  in_stage_order (Write <$> (QueueManager_Flush SessionQueue ClientQueue qm env counters).2)
  ∧ Forall (λ e, (2 <= stage e)%nat)
      (Write <$> (QueueManager_Flush SessionQueue ClientQueue qm env counters).2).
Proof.
  destruct (QueueManager_Flush_writes qm env counters) as (tw & nw & -> & Htw & Hnw).
  assert (Htw' : Forall (λ e : Event Payload, stage e = 3%nat) (Write <$> tw)).
  { apply Forall_fmap. eapply Forall_impl; [exact Htw|]. done. }
  assert (Hnw' : Forall (λ e : Event Payload, stage e = 4%nat) (Write <$> nw)).
  { apply Forall_fmap. eapply Forall_impl; [exact Hnw|]. done. }
  rewrite fmap_cons, fmap_app. split.
  - apply (in_stage_order_app [_] _ 2).
    + repeat constructor.
    + apply (in_stage_order_app _ _ 3).
      * by eapply in_stage_order_same.
      * by eapply in_stage_order_same.
      * eapply Forall_impl; [exact Htw'|]. simpl. lia.
      * eapply Forall_impl; [exact Hnw'|]. simpl. lia.
    + repeat constructor.
    + apply Forall_app. split.
      * eapply Forall_impl; [exact Htw'|]. simpl. lia.
      * eapply Forall_impl; [exact Hnw'|]. simpl. lia.
  - constructor; [simpl; lia|]. apply Forall_app. split.
    + eapply Forall_impl; [exact Htw'|]. simpl. lia.
    + eapply Forall_impl; [exact Hnw'|]. simpl. lia.
Qed.

(** *** [Flush] and [Close] of a flow *)

Lemma FlushMessages_trace env self counters :
  FlushMessages SessionQueue ClientQueue Worker_queue_shards env self counters
  = match flow_class self with
    | WellKnownFlow => ([], Ok (self, counters))
    | GRRFlow =>
        let flushed :=
          QueueManager_Flush SessionQueue ClientQueue
            (queue_manager (GetRunner Worker_queue_shards self).2) env counters in
        (Write <$> flushed.2,
         match flushed.1.1 with
         | Ok qm =>
             Ok (set_runner (GetRunner Worker_queue_shards self).1
                   (Some {| queue_manager := qm |}), flushed.1.2)
         | Raise e => Raise e
         end)
    end.
Proof.
  unfold FlushMessages. destruct (flow_class self); [|done].
  destruct (GetRunner Worker_queue_shards self) as [self1 r]. simpl.
  by destruct (QueueManager_Flush _ _ _ _ _) as [[flushed c] writes].
Qed.

Lemma FlushMessages_in_stage_order env self counters :
  in_stage_order
    (FlushMessages SessionQueue ClientQueue Worker_queue_shards env self counters).1
  ∧ Forall (λ e, (2 <= stage e)%nat)
      (FlushMessages SessionQueue ClientQueue Worker_queue_shards env self counters).1.
Proof.
  rewrite FlushMessages_trace. destruct (flow_class self); simpl.
  - apply queue_writes_in_stage_order.
  - split; constructor.
Qed.

Lemma bind_trace {A B} (c : M Payload A) (k : A → M Payload B) :
  (bind c k).1 = c.1 ++ match c.2 with Ok a => (k a).1 | Raise _ => [] end.
Proof.
  unfold bind. destruct c as [t [a|e]]; simpl; [|by rewrite app_nil_r].
  by destruct (k a).
Qed.

Lemma commit_tail_in_stage_order env self counters :
  in_stage_order
    (bind (AFF4_Flush self)
       (λ self, FlushMessages SessionQueue ClientQueue Worker_queue_shards
                  env self counters)).1.
Proof.
  rewrite bind_trace. unfold AFF4_Flush.
  destruct (new_attributes self) as [|a attrs]; simpl.
  - apply FlushMessages_in_stage_order.
  - constructor; [apply FlushMessages_in_stage_order|].
    eapply Forall_impl; [apply FlushMessages_in_stage_order|]. simpl. lia.
Qed.

Lemma hooks_then_in_stage_order hooks trace :
  Forall (λ e : Event Payload, stage e = 0%nat) hooks →
  in_stage_order trace → in_stage_order (hooks ++ trace).
Proof.
  intros Hh Ht. apply (in_stage_order_app _ _ 0); [|done| |].
  - by eapply in_stage_order_same.
  - eapply Forall_impl; [exact Hh|]. simpl. lia.
  - apply Forall_forall. intros. lia.
Qed.

(** [WriteState] writes nothing itself: it raises, or it returns the flow. *)
Lemma WriteState_trace self : (WriteState self).1 = [].
Proof.
  unfold WriteState, _ValidateState.
  destruct (char_in "w" (mode self)); [|done].
  destruct (flow_class self); [destruct (context self)|]; done.
Qed.

Lemma FlowBase_Flush_in_stage_order env self counters :
  in_stage_order
    (FlowBase_Flush SessionQueue ClientQueue Worker_queue_shards env self counters).1.
Proof.
  unfold FlowBase_Flush, CheckLease, Save, Load. rewrite bind_trace.
  destruct (lease_expired self); simpl; [constructor|].
  rewrite bind_trace. simpl.
  apply (hooks_then_in_stage_order [_]); [by repeat constructor|].
  rewrite bind_trace, WriteState_trace. simpl.
  destruct (WriteState self).2 as [self1|e]; [|constructor].
  rewrite bind_trace. simpl.
  apply (hooks_then_in_stage_order [_]); [by repeat constructor|].
  apply commit_tail_in_stage_order.
Qed.

Lemma FlowBase_Close_in_stage_order env self counters :
  in_stage_order
    (FlowBase_Close SessionQueue ClientQueue Worker_queue_shards env self counters).1.
Proof.
  unfold FlowBase_Close, CheckLease, Save. rewrite bind_trace.
  destruct (lease_expired self); simpl; [constructor|].
  rewrite bind_trace. simpl.
  apply (hooks_then_in_stage_order [_]); [by repeat constructor|].
  rewrite bind_trace, WriteState_trace. simpl.
  destruct (WriteState self).2 as [self1|e]; [|constructor].
  apply commit_tail_in_stage_order.
Qed.

Lemma GetRunner_set_new_attributes self attrs :
  (GetRunner Worker_queue_shards (set_new_attributes self attrs)).2
  = (GetRunner Worker_queue_shards self).2.
Proof. unfold GetRunner. simpl. by destruct (runner self). Qed.

Lemma state_write_before_queue_write (e e' : Event Payload) :
  is_queue_write e = true → is_state_write e' = true → (stage e' < stage e)%nat.
Proof.
  destruct e as [| w | | | |]; try done. destruct e' as [| w' | | | |]; try done.
  destruct w, w'; simpl; try done; lia.
Qed.

Lemma request_write_before_notification_write (e e' : Event Payload) :
  is_notification_write e = true → is_request_write e' = true → (stage e' < stage e)%nat.
Proof.
  destruct e as [| w | | | |]; try done. destruct e' as [| w' | | | |]; try done.
  destruct w, w'; simpl; try done; lia.
Qed.

(** What is left of a commit once the state is validated: the attributes are
    written, then the queue manager is flushed. *)
Lemma commit_tail env self ctx counters :
  bind (AFF4_Flush (set_new_attributes self
          (new_attributes self ++
           [("aff4:flow_args", flow_args self); ("aff4:flow_context", ctx);
            ("aff4:flow_runner_args", runner_args self);
            ("aff4:flow_state_dict", state self)])))
    (λ self, FlushMessages SessionQueue ClientQueue Worker_queue_shards env self counters)
  = (state_write self ctx
     :: (FlushMessages SessionQueue ClientQueue Worker_queue_shards env
           (set_new_attributes self []) counters).1,
     (FlushMessages SessionQueue ClientQueue Worker_queue_shards env
        (set_new_attributes self []) counters).2).
Proof.
  unfold AFF4_Flush, state_write. simpl.
  set (attrs := new_attributes self ++ _).
  assert (Hne : attrs ≠ []).
  { subst attrs. intros H. apply app_eq_nil in H as [_ H]. done. }
  destruct attrs as [|a others] eqn:Hattrs; [done|].
  unfold bind, ret, emit. simpl.
  by destruct (FlushMessages _ _ _ _ _ _) as [t res].
Qed.

(** The commit of a flow that is open for writing and passes the validation
    of its state, after the lease check. *)
Lemma commit_writes env self ctx counters :
  let tail :=
    FlushMessages SessionQueue ClientQueue Worker_queue_shards env
      (set_new_attributes self []) counters in
  lease_expired self = false → char_in "w" (mode self) = true →
  (_ValidateState self).2 = Ok tt → default "" (context self) = ctx →
  FlowBase_Flush SessionQueue ClientQueue Worker_queue_shards env self counters
  = ([Hook "Save"; Hook "Load"] ++ state_write self ctx :: tail.1, tail.2)
  ∧ FlowBase_Close SessionQueue ClientQueue Worker_queue_shards env self counters
    = ([Hook "Save"] ++ state_write self ctx :: tail.1, tail.2).
Proof.
  intros tail Hlease Hw Hvalid Hctx.
  assert (WriteState self
          = ([], Ok (set_new_attributes self
                       (new_attributes self ++
                        [("aff4:flow_args", flow_args self); ("aff4:flow_context", ctx);
                         ("aff4:flow_runner_args", runner_args self);
                         ("aff4:flow_state_dict", state self)])))) as Hwrite.
  { unfold WriteState. rewrite Hw, Hctx. revert Hvalid. unfold _ValidateState.
    destruct (flow_class self); [destruct (context self)|]; done. }
  pose proof (commit_tail env self ctx counters) as Htail. fold tail in Htail.
  split.
  - unfold FlowBase_Flush, CheckLease, Save, Load. rewrite Hlease, Hwrite.
    unfold bind at 1 2 3 4. simpl. by rewrite Htail.
  - unfold FlowBase_Close, AFF4_Close, CheckLease, Save. rewrite Hlease, Hwrite.
    unfold bind at 1 2 3. simpl. by rewrite Htail.
Qed.


(** *** The dispatcher *)

(** C7, as amended. On a flow object that is open for reading (["r"] in its
    mode) and whose PENDING_TERMINATION attribute is set, as
    [MarkForTermination] sets it, the dispatcher calls [Error] with the
    recorded reason and returns [None]: nothing else happens, the resource
    usage is not recorded, no counter moves and the state method does not
    run. [Error] goes through the runner of the flow and raises
    [AttributeError] on an object that has none. *)
Theorem Decorated_pending_termination
    (auth_required : bool) (f_name : string) (f : StateMethod Payload) self
    (responses : ResponsesArgument Payload) (req : option RequestState)
    (direct_response : option (Responses Payload)) :
  char_in "r" (mode self) = true →
  (∀ p, PENDING_TERMINATION self = Some p →
     Decorated MakeGrrStatus Worker_queue_shards auth_required f_name f self
       responses req direct_response
     = match runner self with
       | Some _ => ([RunnerError (reason p)], Ok (self, None))
       | None => ([], Raise AttributeError)
       end)
  ∧ (∀ why,
       Decorated MakeGrrStatus Worker_queue_shards auth_required f_name f
         (MarkForTermination self why) responses req direct_response
       = match runner self with
         | Some _ => ([RunnerError why], Ok (MarkForTermination self why, None))
         | None => ([], Raise AttributeError)
         end).
Proof.
  intros Hr. split.
  - intros p Hp. unfold Decorated. rewrite Hr, Hp. unfold Error.
    by destruct (runner self).
  - intros why. unfold Decorated. simpl. rewrite Hr. unfold Error. simpl.
    by destruct (runner self).
Qed.
End FlowProperties.

(** * The properties on the worked examples *)

Example example_responses_collated :
  ∃ self, Responses_init example_status (Some example_request)
            (Some example_responses) true = Ok self
    ∧ success self = true
    ∧ Responses_iter ∅ self = (["a"; "b"; "c"], None)
    ∧ Responses_len self = 4%nat.
Proof. eexists. split; [reflexivity|]. by vm_compute. Qed.

Example example_client_request_unknown_action :
  ∃ self, Responses_init example_status (Some example_client_request)
            (Some example_responses) true = Ok self
    ∧ Responses_iter ∅ self = ([], Some (RuntimeError "Got unknown client action.")).
Proof. eexists. split; [reflexivity|]. by vm_compute. Qed.

Lemma Responses_yield_in_order_example :
  example_responses ≠ []
  ∧ Forall (λ m, auth_state m = AUTHENTICATED) example_responses
  ∧ Exists (λ m, type m = STATUS) example_responses
  ∧ ∃ self pre st post ms,
      Responses_init example_status (Some example_request) (Some example_responses) true
      = Ok self
      ∧ first_status_at (sort_by_response_id example_responses) pre st post
      ∧ status self = Some (example_status (payload st))
      ∧ (success self = true ↔ status_code (example_status (payload st)) = OK)
      ∧ one_per_response_id pre ms
      ∧ (Responses_iter ∅ self).1 `prefix_of` (payload <$> ms)
      ∧ (type_check_passes ∅ (Some example_request) ms →
         Responses_iter ∅ self = (payload <$> ms, None)).
Proof.
  assert (H1 : example_responses ≠ []) by done.
  assert (H2 : Forall (λ m, auth_state m = AUTHENTICATED) example_responses)
    by (repeat constructor).
  assert (H3 : Exists (λ m, type m = STATUS) example_responses)
    by (do 4 apply Exists_cons_tl; by apply Exists_cons_hd).
  split_and!; [done..|].
  exact (Responses_yield_in_order_without_duplicates example_status ∅
           (Some example_request) true example_responses H1 H2 H3).
Defined.

Lemma Responses_without_status_example :
  example_responses_without_status ≠ []
  ∧ Forall (λ m, is_dropped true m = false → type m ≠ STATUS)
      example_responses_without_status
  ∧ Responses_init example_status (Some example_request)
      (Some example_responses_without_status) true
    = Raise (FlowError "No valid Status message.").
Proof.
  assert (H1 : example_responses_without_status ≠ []) by done.
  assert (H2 : Forall (λ m, is_dropped true m = false → type m ≠ STATUS)
                 example_responses_without_status).
  { repeat constructor; simpl; intros; done. }
  split_and!; [done..|].
  exact (Responses_without_status_raise example_status (Some example_request) true
           example_responses_without_status H1 H2).
Defined.



Example example_lease_of_two :
  ∃ returned store' stats',
    QueryAndOwn 5 example_manager example_env example_queue 10 2
      example_store example_stats = (Ok returned, store', stats')
    ∧ task_id <$> returned = [1%N; 2%N]
    ∧ task_ttl <$> returned = [4; 4]
    ∧ row_timestamp <$> rows_of store' example_queue = [100; 9000; 10001000; 10001000].
Proof. eexists _, _, _. split; [vm_compute; reflexivity|]. by vm_compute. Qed.

(** C2 fails as stated: with a limit of two the call returns the first two
    visible tasks, of priorities 0 and 2, in that order, and does not reach the
    third visible task, whose TTL would have dropped to zero: it stays in the
    queue and is not counted. *)
Lemma QueryAndOwn_not_sorted_by_priority :
  let outcome := QueryAndOwn 5 example_manager example_env example_queue 10 2
                   example_store example_stats in
  ∃ returned,
    outcome.1.1 = Ok returned
    ∧ priority <$> returned = [0; 2]
    ∧ ¬ sorted_by_descending_priority returned
    ∧ example_row 3 1 1 100 ∈ ResolvePrefix example_store example_queue
                                TASK_PREDICATE_PREFIX (0, Now example_env)
    ∧ example_row 3 1 1 100 ∈ rows_of outcome.1.2 example_queue
    ∧ grr_task_ttl_expired_count outcome.2 = 0%nat.
Proof.
  eexists. split; [vm_compute; reflexivity|].
  split_and!; [done| | | |by vm_compute];
    [|apply (bool_decide_unpack _); by vm_compute..].
  intros H. apply StronglySorted_cons in H as [H _].
  apply Forall_cons_1 in H as [H _]. simpl in H. lia.
Qed.

Lemma QueryAndOwn_leases_in_scan_order_example :
  store_answers example_env ∧ 1 <= 2
  ∧ let lease_tag := lease_tag_of (default "" (token example_manager)) example_env in
    ∃ scanned rest store' stats',
      ResolvePrefix example_store example_queue TASK_PREDICATE_PREFIX
        (0, frozen_timestamp_or_Now example_manager example_env) = scanned ++ rest
      ∧ QueryAndOwn 5 example_manager example_env example_queue 10 2
          example_store example_stats
        = (Ok (leased_task lease_tag <$> survivors scanned), store', stats')
      ∧ Forall (λ r, task_ttl (leased_task lease_tag r) = task_ttl (value r) - 1) scanned
      ∧ rows_of store' example_queue
        ≡ₚ filter (λ row, predicate row ∉ predicate <$> scanned)
             (rows_of example_store example_queue)
           ++ (leased_row lease_tag (time_time example_env + 10 * 1000000)
                 <$> survivors scanned)
      ∧ grr_task_ttl_expired_count stats'
        = (grr_task_ttl_expired_count example_stats + length (expired scanned))%nat
      ∧ Z.of_nat (length (survivors scanned)) <= 2
      ∧ (rest ≠ [] → Z.of_nat (length (survivors scanned)) = 2)
      ∧ (∀ init tail, scanned = init ++ tail → tail ≠ [] →
           Z.of_nat (length (survivors init)) < 2)
      ∧ (Z.of_nat (length (survivors scanned)) = 2 →
         ∃ init r, scanned = init ++ [r] ∧ 1 < task_ttl (value r)).
Proof.
  assert (H1 : store_answers example_env) by (by repeat split).
  assert (H2 : 1 <= 2) by lia.
  split_and!; [done..|].
  exact (QueryAndOwn_leases_in_scan_order 5 example_manager example_env example_queue
           10 2 example_store example_stats H1 H2).
Defined.

Lemma example_store_well_formed :
  queue_well_formed (rows_of example_store example_queue).
Proof.
  split.
  - apply (bool_decide_unpack _). by vm_compute.
  - vm_compute. by repeat constructor.
Defined.

Lemma QueryAndOwn_counts_down_ttl_example :
  let outcome := QueryAndOwn 5 example_manager example_env example_queue 10 5
                   example_store example_stats in
  store_answers example_env
  ∧ queue_well_formed (rows_of example_store example_queue)
  ∧ queue_well_formed (rows_of outcome.1.2 example_queue)
  ∧ grr_task_ttl_expired_count outcome.2 = 1%nat
  ∧ ∀ calls : list (Call string),
      Forall (λ result, ∀ ts, result = Ok ts → Forall (λ t, task_id t ≠ 3%N) ts)
        (QueryAndOwn_repeatedly 5 example_queue calls outcome.1.2 outcome.2).1.1.
Proof.
  intros outcome.
  assert (H1 : store_answers example_env) by (by repeat split).
  pose proof example_store_well_formed as H2.
  split; [exact H1|]. split; [exact H2|].
  destruct (QueryAndOwn_counts_down_ttl 5 example_manager example_env example_queue
              10 5 example_store example_stats H1 H2)
    as (scanned & rest & returned & store' & stats' & _ & Hq & Hwf & _ & _ & _ & _ & Hnever).
  fold outcome in Hq.
  assert (Hstore : store' = outcome.1.2) by (by rewrite Hq).
  assert (Hstats : stats' = outcome.2) by (by rewrite Hq).
  subst store' stats'.
  split; [exact Hwf|]. split; [by vm_compute|].
  apply Hnever. apply (bool_decide_unpack _). by vm_compute.
Defined.

Lemma QueryAndOwn_returns_empty_list_example :
  is_caught DBSubjectLockError
  ∧ raised_during_leasing example_env_locked DBSubjectLockError
  ∧ (QueryAndOwn 5 example_manager example_env_locked example_queue 10 1
       example_store example_stats).1.1 = Ok []
  ∧ ResolvePrefix example_store "aff4:/C.2000000000000000/tasks" TASK_PREDICATE_PREFIX
      (0, frozen_timestamp_or_Now example_manager example_env) = []
  ∧ QueryAndOwn 5 example_manager example_env "aff4:/C.2000000000000000/tasks" 10 1
      example_store example_stats = (Ok [], example_store, example_stats).
Proof.
  assert (H1 : is_caught DBSubjectLockError) by (by left).
  assert (H2 : raised_during_leasing example_env_locked DBSubjectLockError) by (by left).
  assert (H3 : ResolvePrefix example_store "aff4:/C.2000000000000000/tasks"
                 TASK_PREDICATE_PREFIX
                 (0, frozen_timestamp_or_Now example_manager example_env) = [])
    by reflexivity.
  split; [exact H1|]. split; [exact H2|]. split; [|split; [exact H3|]].
  - exact (proj1 (QueryAndOwn_returns_empty_list 5 example_manager example_env_locked
                    example_queue 10 1 example_store example_stats)
             DBSubjectLockError H1 H2).
  - exact (proj2 (QueryAndOwn_returns_empty_list 5 example_manager example_env
                    "aff4:/C.2000000000000000/tasks" 10 1 example_store example_stats)
             eq_refl eq_refl H3).
Defined.

Lemma QueueNotification_keeps_highest_example :
  let key := "aff4:/flows/W:ABCDEF!42" in
  example_calls ≠ []
  ∧ Forall (λ c, session_id c.1 ≠ ""
                 ∧ notification_key (session_id c.1)
                     (timestamp_or_frozen example_manager c.2) = key)
      example_calls
  ∧ notifications example_manager !! key = None
  ∧ ∃ c, c ∈ example_calls
      ∧ notifications (foldl (λ qm c, QueueNotification qm c.1 c.2)
                         example_manager example_calls)
        = <[key := set_timestamp c.1 (timestamp_or_frozen example_manager c.2)]>
            (notifications example_manager)
      ∧ Forall (λ c', last_status c'.1 <= last_status c.1) example_calls.
Proof.
  intros key.
  assert (H1 : example_calls ≠ []) by done.
  assert (H2 : Forall (λ c, session_id c.1 ≠ ""
                 ∧ notification_key (session_id c.1)
                     (timestamp_or_frozen example_manager c.2) = key) example_calls).
  { repeat constructor; simpl; done. }
  assert (H3 : notifications example_manager !! key = None) by reflexivity.
  split_and!; [done..|].
  exact (proj1 (QueueNotification_keeps_highest_last_status example_manager key
                  example_calls H1 H2 H3)).
Defined.

Example example_notifications_queued :
  notifications (foldl (λ qm c, QueueNotification qm c.1 c.2) example_manager example_calls)
  !! "aff4:/flows/W:ABCDEF!42"
  = Some (set_timestamp (example_notification 3) (Some 42)).
Proof. by vm_compute. Qed.

Example example_commit_trace :
  (FlowBase_Flush (λ session, "aff4:/W") (λ client, client +:+ "/tasks") 5
     example_env example_busy_flow ∅).1
  = [Hook "Save"; Hook "Load";
     Write (WriteAttributes "aff4:/C.1000000000000000/flows/F:ABCDEF"
              [("aff4:flow_args", ""); ("aff4:flow_context", "RUNNING");
               ("aff4:flow_runner_args", ""); ("aff4:flow_state_dict", "{}")]);
     Write (StoreRequestsAndResponses [(example_client_request, None)] [] []);
     Write (DeleteAttributes "C.1000000000000000/tasks" ["task:00000007"]);
     Write (ScheduleTasks example_queue [("task:00000008", [example_task 8 1 5])] None);
     Write (CreateNotifications "aff4:/W/1"
              [set_first_queued (example_notification 3) 1000])].
Proof. by vm_compute. Qed.


(** A well-known flow is written also without a context, and flushes no
    queue manager. *)
Example example_well_known_commit :
  FlowBase_Close (λ session, "aff4:/W") (λ client, client +:+ "/tasks") 5
    example_env example_well_known_flow ∅
  = ([Hook "Save";
      Write (WriteAttributes "aff4:/flows/W:Stats"
               [("aff4:flow_args", ""); ("aff4:flow_context", "");
                ("aff4:flow_runner_args", ""); ("aff4:flow_state_dict", "{}")])],
     Ok (example_well_known_flow, ∅)).
Proof. by vm_compute. Qed.

(** C7 fails as stated: on a flow object that is open for writing only, the
    attribute that [MarkForTermination] has set is not looked at and the state
    method runs. *)
Lemma Decorated_ignores_pending_termination :
  let flow := MarkForTermination (example_flow "w" false) (Some "x") in
  PENDING_TERMINATION flow = Some {| reason := Some "x" |}
  ∧ Decorated example_status 5 true "Process" example_state_method flow
      NoResponses None None
    = ([IncrementCounter "grr_worker_states_run"; HandlerStep "Process"],
       Ok (flow, Some "done")).
Proof. split; reflexivity. Qed.

Lemma Decorated_pending_termination_example :
  let flow := MarkForTermination (example_flow "rw" false) (Some "x") in
  char_in "r" (mode (example_flow "rw" false)) = true
  ∧ PENDING_TERMINATION flow = Some {| reason := Some "x" |}
  ∧ Decorated example_status 5 true "Process" example_state_method flow
      NoResponses None None
    = ([RunnerError (Some "x")], Ok (flow, None)).
Proof.
  intros flow.
  assert (H1 : char_in "r" (mode (example_flow "rw" false)) = true) by reflexivity.
  split; [exact H1|]. split; [reflexivity|].
  exact (proj2 (Decorated_pending_termination example_status 5 true "Process"
                  example_state_method (example_flow "rw" false) NoResponses None None H1)
           (Some "x")).
Defined.

(** * Further properties of the queue manager *)

(** *** Columns of tasks *)

Lemma digit_value_pretty_N_char y : (y < 10)%N → digit_value (pretty_N_char y) = y.
Proof.
  intros Hy.
  assert (y = 0 ∨ y = 1 ∨ y = 2 ∨ y = 3 ∨ y = 4 ∨ y = 5 ∨ y = 6 ∨ y = 7
          ∨ y = 8 ∨ y = 9)%N as Hcases by lia.
  repeat (destruct Hcases as [->|Hcases]; [reflexivity|]). by subst.
Qed.

Lemma append_cons c s1 s2 : String c s1 +:+ s2 = String c (s1 +:+ s2).
Proof. reflexivity. Qed.

Lemma digits_value_app a s1 s2 :
  digits_value a (s1 +:+ s2) = digits_value (digits_value a s1) s2.
Proof. revert a. induction s1 as [|c s1 IH]; intros a; simpl; [done|]. apply IH. Qed.

Lemma pretty_N_go_digits x :
  ∃ ds, (∀ s, pretty_N_go x s = ds +:+ s)
        ∧ ∀ a, ∃ k, digits_value a ds = (a * k + x)%N.
Proof.
  induction (N.lt_wf_0 x) as [x _ IH].
  assert (x = 0 ∨ 0 < x)%N as [->|Hx] by lia.
  { exists "". split; [done|]. intros a. exists 1%N. simpl. lia. }
  destruct (IH (x `div` 10)%N) as (ds & Hgo & Hval).
  { by apply N.div_lt. }
  exists (ds +:+ String (pretty_N_char (x `mod` 10)) "").
  split.
  - intros s. rewrite pretty_N_go_step by done. etrans; [apply Hgo|].
    clear. induction ds as [|c ds IH]; [done|]. rewrite !append_cons. f_equal. exact IH.
  - intros a. destruct (Hval a) as (k & Hk). exists (10 * k)%N.
    rewrite digits_value_app, Hk. simpl.
    rewrite digit_value_pretty_N_char by (apply N.mod_lt; lia).
    pose proof (N.div_mod x 10). lia.
Qed.

Lemma digits_value_pretty (n : N) : digits_value 0 (pretty n) = n.
Proof.
  unfold pretty, pretty_N. destruct (decide (n = 0)%N) as [->|Hn]; [done|].
  destruct (pretty_N_go_digits n) as (ds & Hgo & Hval).
  rewrite Hgo. destruct (Hval 0%N) as (k & Hk).
  rewrite digits_value_app, Hk. simpl. lia.
Qed.

Lemma digits_value_zeros k : digits_value 0 (zeros k) = 0%N.
Proof. induction k as [|k IH]; simpl; [done|]. exact IH. Qed.

Lemma format_08d_inj i j : format_08d i = format_08d j → i = j.
Proof.
  intros H. apply (f_equal (digits_value 0)) in H. unfold format_08d in H.
  by rewrite !digits_value_app, !digits_value_zeros, !digits_value_pretty in H.
Qed.

Lemma _TaskIdToColumn_inj i j : _TaskIdToColumn i = _TaskIdToColumn j → i = j.
Proof.
  unfold _TaskIdToColumn, TASK_PREDICATE_PREFIX. simpl.
  intros [= H]. by apply format_08d_inj.
Qed.

Lemma _TaskIdToColumn_prefix i :
  String.prefix TASK_PREDICATE_PREFIX (_TaskIdToColumn i) = true.
Proof.
  unfold _TaskIdToColumn, TASK_PREDICATE_PREFIX.
  rewrite !append_cons. simpl. by destruct (format_08d i).
Qed.


Section MoreQueueProperties.
Context {Payload : Type}.
Context (max_ttl : Z).

Implicit Types (r row : Row) (rows scanned rest : list Row).
Implicit Types (store : DataStore) (stats : Stats) (env : Env).
Implicit Types (self : QueueManager Payload).

(** *** Sorting in descending order *)

Lemma insert_descending_perm {A} (key : A → Z) a (l : list A) :
  insert_descending key a l ≡ₚ a :: l.
Proof.
  induction l as [|x l IH]; simpl; [done|].
  destruct (key x <=? key a); [done|].
  rewrite IH. apply Permutation_swap.
Qed.

Lemma sort_descending_perm {A} (key : A → Z) (l : list A) :
  sort_descending key l ≡ₚ l.
Proof.
  induction l as [|x l IH]; simpl; [done|].
  rewrite insert_descending_perm. by rewrite IH.
Qed.

Lemma insert_descending_sorted {A} (key : A → Z) a (l : list A) :
  StronglySorted (λ x y, key y <= key x) l →
  StronglySorted (λ x y, key y <= key x) (insert_descending key a l).
Proof.
  induction 1 as [|x l Hs IH Hx]; simpl.
  { repeat constructor. }
  destruct (Z.leb_spec (key x) (key a)).
  - constructor; [by constructor|].
    constructor; [done|]. eapply Forall_impl; [exact Hx|]. simpl. intros. lia.
  - constructor; [done|].
    rewrite insert_descending_perm. constructor; [lia|done].
Qed.

Lemma sort_descending_sorted {A} (key : A → Z) (l : list A) :
  StronglySorted (λ x y, key y <= key x) (sort_descending key l).
Proof.
  induction l as [|x l IH]; simpl; [constructor|].
  by apply insert_descending_sorted.
Qed.

Lemma slice_to_prefix {A} (l : list A) limit :
  ∃ others, l = slice_to l limit ++ others.
Proof.
  unfold slice_to. destruct (limit <? 0).
  - exists (drop (length l - Z.to_nat (- limit)) l). by rewrite take_drop.
  - exists (drop (Z.to_nat limit) l). by rewrite take_drop.
Qed.

(** X1. [Query] gives a read-only snapshot of a queue: of the tasks stored under
    the prefix, whatever their timestamps (so leased tasks too), it returns
    those of highest priority, in descending order of priority, each with the
    timestamp of its row as [eta]; with a limit that is not negative it
    returns [limit] tasks, or all of them when there are fewer. *)
Theorem Query_returns_highest_priorities self q limit task store :
  0 <= limit →
  let prefix := default TASK_PREDICATE_PREFIX task in
  let stored := (λ r, set_eta (value r) (row_timestamp r))
                  <$> ResolvePrefix_ALL_TIMESTAMPS store q prefix in
  ∃ others,
    Query self q limit task store ++ others ≡ₚ stored
    ∧ sorted_by_descending_priority (Query self q limit task store)
    ∧ length (Query self q limit task store)
      = (Z.to_nat limit `min` length stored)%nat
    ∧ (∀ t t', t ∈ Query self q limit task store → t' ∈ others →
         priority t' <= priority t).
Proof.
  intros Hlimit prefix stored.
  assert (Query self q limit task store
          = take (Z.to_nat limit) (sort_descending priority stored)) as ->.
  { unfold Query, slice_to. destruct (Z.ltb_spec limit 0); [lia|].
    by destruct task. }
  pose proof (sort_descending_sorted priority stored) as Hsorted.
  pose proof (sort_descending_perm priority stored) as Hperm.
  exists (drop (Z.to_nat limit) (sort_descending priority stored)).
  rewrite <- (take_drop (Z.to_nat limit) (sort_descending priority stored)) in Hsorted.
  apply StronglySorted_app in Hsorted as (Hcross & Htake & _).
  split_and!.
  - by rewrite take_drop.
  - exact Htake.
  - rewrite length_take. by rewrite Hperm.
  - intros t t' Ht Ht'. by apply Hcross.
Qed.

End MoreQueueProperties.

Section MoreLeaseProperties.
Context {Payload : Type}.
Context (max_ttl : Z).

Implicit Types (r row : Row) (rows scanned rest : list Row).
Implicit Types (store : DataStore) (stats : Stats) (env : Env).
Implicit Types (self : QueueManager Payload).

(** The tasks that a call returns are leased from rows that were visible to
    it, whatever the store does. *)
Lemma _QueryAndOwn_returns_visible self env q lease_seconds limit user store stats
    returned store' stats' :
  _QueryAndOwn max_ttl self env q lease_seconds limit user store stats
    = (Ok returned, store', stats') →
  ∀ t, t ∈ returned →
    ∃ r, r ∈ ResolvePrefix store q TASK_PREDICATE_PREFIX
               (0, frozen_timestamp_or_Now self env)
         ∧ t = leased_task (lease_tag_of user env) r.
Proof.
  unfold _QueryAndOwn.
  destruct (ResolvePrefix_raises env) as [e|]; [done|].
  set (rows := ResolvePrefix _ _ _ _).
  set (s0 := {| tasks := []; delete_attrs := ∅; serialized_tasks_dict := [];
                scan_stats := stats |}).
  destruct (scan_tasks_spec max_ttl limit (lease_tag_of user env) rows s0)
    as (scanned & rest & Hrows & Ht & _).
  set (s := scan_tasks max_ttl limit (lease_tag_of user env) rows s0) in *.
  simpl in Ht.
  assert (Htasks : ∀ t, t ∈ tasks s →
            ∃ r, r ∈ rows ∧ t = leased_task (lease_tag_of user env) r).
  { intros t. rewrite Ht. intros (r & -> & Hr)%list_elem_of_fmap.
    apply elem_of_survivors in Hr as [_ Hr]. exists r. split; [|done].
    rewrite Hrows. apply elem_of_app. by left. }
  case_bool_decide.
  - destruct (MultiSet_raises env) as [e|]; [done|].
    intros [= <- <- <-]. apply Htasks.
  - intros [= <- <- <-]. apply Htasks.
Qed.

Lemma QueryAndOwn_returns_visible self env q lease_seconds limit store stats
    returned store' stats' :
  QueryAndOwn max_ttl self env q lease_seconds limit store stats
    = (Ok returned, store', stats') →
  ∀ t, t ∈ returned →
    ∃ r, r ∈ ResolvePrefix store q TASK_PREDICATE_PREFIX
               (0, frozen_timestamp_or_Now self env)
         ∧ t = leased_task (lease_tag_of (default "" (token self)) env) r.
Proof.
  unfold QueryAndOwn.
  destruct (LockRetryWrapper_raises env) as [e|].
  { destruct e; intros [= <- <- <-] t Ht; by apply elem_of_nil in Ht. }
  destruct (_QueryAndOwn _ _ _ _ _ _ _ _ _) as [[res st] sts] eqn:Hq.
  destruct res as [ts'|e].
  { intros [= <- <- <-]. by eapply _QueryAndOwn_returns_visible. }
  destruct e; intros [= <- <- <-] t Ht; by apply elem_of_nil in Ht.
Qed.

(** X2. A lease is exclusive while it lasts. On a queue that stores each task in
    the column of its id, the tasks that a call of [QueryAndOwn] leases are
    not returned by the next call on the queue, by any manager and whatever
    the store does during it, when that call reads the queue up to a time
    (its frozen timestamp, or its clock) before the end of the lease. *)
Theorem QueryAndOwn_lease_is_exclusive
    self env q lease_seconds limit store stats
    self2 env2 lease_seconds2 limit2 :
  store_answers env →
  Forall (λ r, predicate r = _TaskIdToColumn (task_id (value r))) (rows_of store q) →
  frozen_timestamp_or_Now self2 env2 < time_time env + lease_seconds * 1000000 →
  ∃ returned store' stats',
    QueryAndOwn max_ttl self env q lease_seconds limit store stats
      = (Ok returned, store', stats')
    ∧ ∀ returned2,
        (QueryAndOwn max_ttl self2 env2 q lease_seconds2 limit2 store' stats').1.1
          = Ok returned2 →
        ∀ t t2, t ∈ returned → t2 ∈ returned2 → task_id t ≠ task_id t2.
Proof.
  intros (HL & HR & HM) Hwf Hend.
  destruct (_QueryAndOwn_spec max_ttl self env q lease_seconds limit
              (default "" (token self)) store stats HR HM)
    as (scanned & rest & store' & stats' & Hv & Hq & Hrows & _).
  set (lease_tag := lease_tag_of (default "" (token self)) env) in *.
  set (lease_end := time_time env + lease_seconds * 1000000) in *.
  rewrite Forall_forall in Hwf.
  assert (Hin : ∀ r, r ∈ scanned → r ∈ rows_of store q).
  { intros r Hr. eapply elem_of_sublist;
      [|apply (ResolvePrefix_sublist store q TASK_PREDICATE_PREFIX
                 (0, frozen_timestamp_or_Now self env))].
    rewrite Hv. apply elem_of_app. by left. }
  exists (leased_task lease_tag <$> survivors scanned), store', stats'.
  split; [by apply QueryAndOwn_locked|].
  intros returned2 Hq2 t t2 Ht Ht2 Hid.
  destruct (QueryAndOwn max_ttl self2 env2 q lease_seconds2 limit2 store' stats')
    as [[res2 store2] stats2] eqn:Hcall2.
  simpl in Hq2. subst res2.
  destruct (QueryAndOwn_returns_visible _ _ _ _ _ _ _ _ _ _ Hcall2 t2 Ht2)
    as (r2 & Hr2 & ->).
  apply list_elem_of_fmap in Ht as (r1 & -> & Hr1).
  apply elem_of_survivors in Hr1 as [_ Hr1]. simpl in Hid.
  unfold ResolvePrefix in Hr2. apply list_elem_of_filter in Hr2 as [[_ Hts] Hr2].
  simpl in Hts. rewrite Hrows in Hr2. apply elem_of_app in Hr2 as [Hr2|Hr2].
  - apply list_elem_of_filter in Hr2 as [Hp Hr2]. apply Hp.
    rewrite (Hwf r2 Hr2), <- Hid, <- (Hwf r1 (Hin r1 Hr1)).
    by apply list_elem_of_fmap_2.
  - apply list_elem_of_fmap in Hr2 as (r & -> & _). simpl in Hts. lia.
Qed.

(** *** Deleting and scheduling without a mutation pool *)

Lemma rows_of_DB_DeleteAttributes store q predicates :
  rows_of (DB_DeleteAttributes store q predicates) q
  = filter (λ r, predicate r ∉ predicates) (rows_of store q).
Proof. unfold DB_DeleteAttributes. by rewrite rows_of_insert. Qed.

(** X5. A deleted task is gone for good. On a queue that stores each task in the
    column of its id, after [Delete] of some task ids no later sequence of
    calls of [QueryAndOwn] on the queue returns a task with one of these ids,
    whatever the store does during the calls; the tasks of other ids stay as
    they were, and deleting the same ids again changes nothing. *)
Theorem Delete_removes_tasks_for_good q task_ids store :
  q ≠ "" →
  Forall (λ r, predicate r = _TaskIdToColumn (task_id (value r))) (rows_of store q) →
  let store' := Delete_in_store q task_ids store in
  (∀ i (calls : list (Call Payload)) stats, i ∈ task_ids →
     Forall (λ result, ∀ ts, result = Ok ts → Forall (λ t, task_id t ≠ i) ts)
       (QueryAndOwn_repeatedly max_ttl q calls store' stats).1.1)
  ∧ (∀ r, r ∈ rows_of store q → task_id (value r) ∉ task_ids → r ∈ rows_of store' q)
  ∧ Delete_in_store q task_ids store' = store'.
Proof.
  intros Hq Hwf store'. subst store'. unfold Delete_in_store.
  rewrite bool_decide_false by done.
  rewrite Forall_forall in Hwf.
  split_and!.
  - intros i calls stats Hi. apply QueryAndOwn_repeatedly_never_returns.
    + rewrite rows_of_DB_DeleteAttributes. apply Forall_forall.
      intros r [_ Hr]%list_elem_of_filter. by apply Hwf.
    + rewrite rows_of_DB_DeleteAttributes.
      intros (r & Hp & [Hr _]%list_elem_of_filter)%list_elem_of_fmap.
      apply Hr. rewrite <- Hp. by apply list_elem_of_fmap_2.
  - intros r Hr Hid. rewrite rows_of_DB_DeleteAttributes.
    apply list_elem_of_filter. split; [|done].
    intros (i & Hp & Hi)%list_elem_of_fmap. apply Hid.
    rewrite (Hwf r Hr) in Hp. apply _TaskIdToColumn_inj in Hp. by rewrite Hp.
  - unfold DB_DeleteAttributes at 1. rewrite rows_of_DB_DeleteAttributes.
    unfold DB_DeleteAttributes. rewrite insert_insert_eq. f_equal.
    rewrite list_filter_filter. apply list_filter_iff. tauto.
Qed.

End MoreLeaseProperties.

Section MoreRetryProperties.
Context {Payload : Type}.
Context (max_ttl : Z).

Implicit Types (r row : Row) (rows scanned rest : list Row).
Implicit Types (store : DataStore) (stats : Stats) (env : Env).
Implicit Types (self : QueueManager Payload).

(** X3. A leased task comes back. On a queue that stores each task in the column
    of its id, a task that a call of [QueryAndOwn] leases with a TTL still
    above one is returned again, with the TTL lowered by one more, by the next
    call on the queue that obtains the lock, reads the queue up to a time that
    is not before the end of the lease, and has a limit that is not below the
    number of tasks in the queue. *)
Theorem QueryAndOwn_leases_again_after_the_lease
    self env q lease_seconds limit store stats
    self2 env2 lease_seconds2 limit2 :
  store_answers env → store_answers env2 →
  Forall (λ r, predicate r = _TaskIdToColumn (task_id (value r))) (rows_of store q) →
  0 <= time_time env + lease_seconds * 1000000 <= frozen_timestamp_or_Now self2 env2 →
  ∃ returned store' stats' returned2 store2 stats2,
    QueryAndOwn max_ttl self env q lease_seconds limit store stats
      = (Ok returned, store', stats')
    ∧ QueryAndOwn max_ttl self2 env2 q lease_seconds2 limit2 store' stats'
      = (Ok returned2, store2, stats2)
    ∧ (Z.of_nat (length (rows_of store' q)) <= limit2 →
       ∀ t, t ∈ returned → 1 < task_ttl t →
         ∃ t2, t2 ∈ returned2 ∧ task_id t2 = task_id t
               ∧ task_ttl t2 = task_ttl t - 1
               ∧ eta t2 = time_time env + lease_seconds * 1000000).
Proof.
  intros (HL & HR & HM) (HL2 & HR2 & HM2) Hwf Hend.
  destruct (_QueryAndOwn_spec max_ttl self env q lease_seconds limit
              (default "" (token self)) store stats HR HM)
    as (scanned & rest & store' & stats' & Hv & Hq & Hrows & _).
  destruct (_QueryAndOwn_spec max_ttl self2 env2 q lease_seconds2 limit2
              (default "" (token self2)) store' stats' HR2 HM2)
    as (scanned2 & rest2 & store2 & stats2 & Hv2 & Hq2 & _ & _ & _ & Hfull2 & _).
  set (lease_tag := lease_tag_of (default "" (token self)) env) in *.
  set (lease_end := time_time env + lease_seconds * 1000000) in *.
  rewrite Forall_forall in Hwf.
  assert (Hin : ∀ r, r ∈ scanned → r ∈ rows_of store q).
  { intros r Hr. eapply elem_of_sublist;
      [|apply (ResolvePrefix_sublist store q TASK_PREDICATE_PREFIX
                 (0, frozen_timestamp_or_Now self env))].
    rewrite Hv. apply elem_of_app. by left. }
  eexists _, store', stats', _, store2, stats2.
  split; [by apply QueryAndOwn_locked|]. split; [by apply QueryAndOwn_locked|].
  intros Hlimit t (r & -> & Hr)%list_elem_of_fmap Httl. simpl in Httl.
  assert (Hrest2 : rest2 = []).
  { destruct rest2 as [|r2 rest2]; [done|]. exfalso.
    specialize (Hfull2 ltac:(done)).
    pose proof (sublist_length _ _ (survivors_sublist scanned2)) as Hs.
    pose proof (sublist_length _ _ (ResolvePrefix_sublist store' q TASK_PREDICATE_PREFIX
                   (0, frozen_timestamp_or_Now self2 env2))) as Hv2len.
    rewrite Hv2, length_app in Hv2len. simpl in Hv2len. lia. }
  subst rest2. rewrite app_nil_r in Hv2.
  apply elem_of_survivors in Hr as [_ Hr].
  exists (leased_task (lease_tag_of (default "" (token self2)) env2)
            (leased_row lease_tag lease_end r)).
  split; [|done].
  apply list_elem_of_fmap_2. apply elem_of_survivors. split; [simpl; lia|].
  rewrite <- Hv2. unfold ResolvePrefix. apply list_elem_of_filter. split.
  - simpl. split; [|lia]. rewrite (Hwf r (Hin r Hr)). apply _TaskIdToColumn_prefix.
  - rewrite Hrows. apply elem_of_app. right. apply list_elem_of_fmap_2.
    apply elem_of_survivors. split; [lia|done].
Qed.

(** *** How often a task is handed out *)

(** What a call does to the queue, whatever the store does: nothing, giving
    no task; or what [_QueryAndOwn_spec] says. *)
Lemma QueryAndOwn_outcome self env q lease_seconds limit store stats :
  let outcome := QueryAndOwn max_ttl self env q lease_seconds limit store stats in
  (outcome.1.2 = store ∧ ∀ returned, outcome.1.1 = Ok returned → returned = [])
  ∨ ∃ scanned rest,
      ResolvePrefix store q TASK_PREDICATE_PREFIX (0, frozen_timestamp_or_Now self env)
        = scanned ++ rest
      ∧ outcome.1.1
        = Ok (leased_task (lease_tag_of (default "" (token self)) env) <$> survivors scanned)
      ∧ rows_of outcome.1.2 q
        ≡ₚ filter (λ row, predicate row ∉ predicate <$> scanned) (rows_of store q)
           ++ (leased_row (lease_tag_of (default "" (token self)) env)
                 (time_time env + lease_seconds * 1000000) <$> survivors scanned).
Proof.
  intros outcome. subst outcome.
  destruct (LockRetryWrapper_raises env) as [e|] eqn:HL.
  { left. unfold QueryAndOwn. rewrite HL. destruct e; simpl; split; congruence. }
  destruct (ResolvePrefix_raises env) as [e|] eqn:HR.
  { left. unfold QueryAndOwn, _QueryAndOwn. rewrite HL, HR.
    destruct e; simpl; split; congruence. }
  destruct (MultiSet_raises env) as [e|] eqn:HM.
  - left. unfold QueryAndOwn, _QueryAndOwn. rewrite HL, HR, HM.
    set (rows := ResolvePrefix _ _ _ _).
    set (s0 := {| tasks := []; delete_attrs := ∅; serialized_tasks_dict := [];
                  scan_stats := stats |}).
    destruct (scan_tasks_spec max_ttl limit (lease_tag_of (default "" (token self)) env)
                rows s0) as (scanned & rest & _ & Ht & _ & Hk & _).
    set (s := scan_tasks max_ttl limit _ rows s0) in *. simpl in Ht, Hk.
    case_bool_decide as Hw.
    { destruct e; simpl; split; congruence. }
    simpl. split; [done|]. intros returned [= <-]. rewrite Ht.
    destruct (survivors scanned) as [|r l] eqn:Hs; [done|]. exfalso. apply Hw. right.
    assert (predicate r ∈ (serialized_tasks_dict s).*1) as Hp.
    { apply Hk. right. by left. }
    intros Hnil. rewrite Hnil in Hp. by apply elem_of_nil in Hp.
  - right.
    destruct (_QueryAndOwn_spec max_ttl self env q lease_seconds limit
                (default "" (token self)) store stats HR HM)
      as (scanned & rest & store' & stats' & Hv & Hq & Hrows & _).
    exists scanned, rest.
    rewrite (QueryAndOwn_locked max_ttl _ _ _ _ _ _ _ _ _ _ HL Hq). by split_and!.
Qed.

Lemma filter_NoDup_length {A B} `{EqDecision B} (f : A → B) (b : B) (l : list A) :
  NoDup (f <$> l) → (length (filter (λ a, f a = b) l) <= 1)%nat.
Proof.
  induction l as [|a l IH]; intros Hnd; [simpl; lia|].
  rewrite fmap_cons in Hnd.
  apply NoDup_cons in Hnd as [Ha Hnd]. specialize (IH Hnd).
  destruct (decide (f a = b)) as [<-|Hne].
  - rewrite filter_cons_True by done. simpl.
    assert (filter (λ a0, f a0 = f a) l = []) as ->; [|simpl; lia].
    destruct (filter (λ a0, f a0 = f a) l) as [|x l'] eqn:Hf; [done|]. exfalso.
    assert (x ∈ filter (λ a0, f a0 = f a) l) as Hx by (rewrite Hf; by left).
    apply list_elem_of_filter in Hx as [Hfx Hx]. apply Ha. rewrite <- Hfx.
    by apply list_elem_of_fmap_2.
  - by rewrite filter_cons_False.
Qed.

Lemma times_returned_cons i result results :
  times_returned i (result :: results)
  = (times_returned i [result] + times_returned i results)%nat.
Proof. unfold times_returned. simpl. by rewrite Nat.add_0_r. Qed.

Lemma QueryAndOwn_call_bound self env q lease_seconds limit store stats i k :
  queue_well_formed (rows_of store q) →
  ttl_at_most (rows_of store q) i k →
  let outcome := QueryAndOwn max_ttl self env q lease_seconds limit store stats in
  queue_well_formed (rows_of outcome.1.2 q)
  ∧ ttl_at_most (rows_of outcome.1.2 q) i k
  ∧ (times_returned i [outcome.1.1] <= 1)%nat
  ∧ (times_returned i [outcome.1.1] = 1%nat →
     1 < k ∧ ttl_at_most (rows_of outcome.1.2 q) i (k - 1)).
Proof.
  intros [Hnd Hwf] Hbound. cbv zeta.
  pose proof (QueryAndOwn_outcome self env q lease_seconds limit store stats) as Hcall.
  cbv zeta in Hcall.
  set (outcome := QueryAndOwn max_ttl self env q lease_seconds limit store stats) in *.
  destruct Hcall as [[Hstore Hnone]|(scanned & rest & Hv & Hres & Hrows)].
  { rewrite Hstore. split_and!; [by split|done|..].
    - unfold times_returned. simpl. destruct (outcome.1.1) as [returned|e]; [|simpl; lia].
      rewrite (Hnone returned eq_refl). simpl. lia.
    - unfold times_returned. simpl. destruct (outcome.1.1) as [returned|e]; [|done].
      by rewrite (Hnone returned eq_refl). }
  set (lease_tag := lease_tag_of (default "" (token self)) env) in *.
  set (lease_end := time_time env + lease_seconds * 1000000) in *.
  rewrite Forall_forall in Hwf.
  assert (Hsub : scanned `sublist_of` rows_of store q).
  { etrans; [|apply (ResolvePrefix_sublist store q TASK_PREDICATE_PREFIX
                       (0, frozen_timestamp_or_Now self env))].
    rewrite Hv. by apply sublist_inserts_r. }
  assert (Hin : ∀ r, r ∈ scanned → r ∈ rows_of store q).
  { intros r Hr. by eapply elem_of_sublist. }
  assert (Hnds : NoDup (predicate <$> scanned)).
  { eapply sublist_NoDup; [exact Hnd|]. by apply fmap_sublist. }
  assert (Hpl : predicate <$> (leased_row lease_tag lease_end <$> survivors scanned)
                = predicate <$> survivors scanned).
  { by rewrite <- list_fmap_compose. }
  assert (Hids : NoDup (task_id <$> (leased_task lease_tag <$> survivors scanned))).
  { rewrite <- list_fmap_compose.
    apply NoDup_fmap_2_strong.
    - intros r1 r2 [_ Hr1]%elem_of_survivors [_ Hr2]%elem_of_survivors Hid. simpl in Hid.
      eapply (NoDup_fmap_eq predicate scanned); [done..|].
      rewrite (Hwf r1), (Hwf r2) by auto. by rewrite Hid.
    - eapply sublist_NoDup; [|apply survivors_sublist].
      eapply NoDup_fmap_1. exact Hnds. }
  assert (Hscanned_gone : ∀ r row, r ∈ survivors scanned →
            row ∈ filter (λ row, predicate row ∉ predicate <$> scanned) (rows_of store q) →
            task_id (value row) ≠ task_id (value r)).
  { intros r row [_ Hr]%elem_of_survivors [Hp Hrow]%list_elem_of_filter Hid.
    apply Hp. rewrite (Hwf row Hrow), Hid, <- (Hwf r (Hin r Hr)).
    by apply list_elem_of_fmap_2. }
  split_and!.
  - split.
    + rewrite Hrows, fmap_app. apply NoDup_app. split_and!.
      * eapply sublist_NoDup; [exact Hnd|]. apply fmap_sublist, sublist_filter.
      * intros p (row & -> & Hrow)%list_elem_of_fmap. rewrite Hpl.
        apply list_elem_of_filter in Hrow as [Hrow _].
        intros (r & Hp & Hr)%list_elem_of_fmap. apply Hrow. rewrite Hp.
        apply list_elem_of_fmap_2. by apply elem_of_survivors in Hr as [_ ?].
      * rewrite Hpl. eapply sublist_NoDup; [exact Hnds|].
        apply fmap_sublist, survivors_sublist.
    + apply Forall_forall. intros row. rewrite Hrows, elem_of_app.
      intros [Hrow|Hrow].
      * apply list_elem_of_filter in Hrow as [_ Hrow]. by apply Hwf.
      * apply list_elem_of_fmap in Hrow as (r & -> & Hr). simpl.
        apply Hwf, Hin. by apply elem_of_survivors in Hr as [_ ?].
  - intros row. rewrite Hrows, elem_of_app. intros [Hrow|Hrow] Hid.
    + apply list_elem_of_filter in Hrow as [_ Hrow]. by apply Hbound.
    + apply list_elem_of_fmap in Hrow as (r & -> & Hr). simpl in *.
      apply elem_of_survivors in Hr as [_ Hr].
      specialize (Hbound r (Hin r Hr) Hid). lia.
  - unfold times_returned. rewrite Hres. simpl. rewrite Nat.add_0_r.
    by apply (filter_NoDup_length task_id).
  - unfold times_returned. rewrite Hres. simpl. rewrite Nat.add_0_r. intros Hone.
    destruct (filter (λ t, task_id t = i) (leased_task lease_tag <$> survivors scanned))
      as [|t l] eqn:Hf; [done|].
    assert (t ∈ filter (λ t, task_id t = i) (leased_task lease_tag <$> survivors scanned))
      as Ht by (rewrite Hf; by left).
    apply list_elem_of_filter in Ht as [Hid (r & -> & Hr)%list_elem_of_fmap].
    simpl in Hid. pose proof Hr as Hr'. apply elem_of_survivors in Hr' as [Httl Hr'].
    pose proof (Hbound r (Hin r Hr') Hid) as Hk. split; [lia|].
    intros row. rewrite Hrows, elem_of_app. intros [Hrow|Hrow] Hid'.
    + exfalso. apply (Hscanned_gone r row Hr Hrow). congruence.
    + apply list_elem_of_fmap in Hrow as (r2 & -> & Hr2). simpl in *.
      apply elem_of_survivors in Hr2 as [_ Hr2].
      specialize (Hbound r2 (Hin r2 Hr2) Hid'). lia.
Qed.

(** X4. A task is handed out at most as many times as its TTL allows. On a queue
    that stores each task once, in the column of its id, any sequence of
    calls of [QueryAndOwn] on the queue, by any managers, at any times and
    whatever the store does during them, returns a task of the queue at most
    [task_ttl - 1] times in all (never, for a TTL of one or less). *)
Theorem QueryAndOwn_hands_out_at_most_ttl_times q (calls : list (Call Payload))
    store stats r :
  queue_well_formed (rows_of store q) →
  r ∈ rows_of store q →
  (times_returned (task_id (value r))
     (QueryAndOwn_repeatedly max_ttl q calls store stats).1.1
   <= Z.to_nat (task_ttl (value r) - 1))%nat.
Proof.
  intros Hwf Hr.
  assert (Hbound : ttl_at_most (rows_of store q) (task_id (value r)) (task_ttl (value r))).
  { intros r' Hr' Hid. destruct Hwf as [Hnd Hcol]. rewrite Forall_forall in Hcol.
    assert (r' = r) as ->; [|lia].
    eapply (NoDup_fmap_eq predicate (rows_of store q)); [done..|].
    rewrite (Hcol r'), (Hcol r) by done. by rewrite Hid. }
  revert Hwf Hbound. generalize (task_ttl (value r)) as k.
  generalize (task_id (value r)) as i. clear r Hr.
  intros i k. revert store stats k.
  induction calls as [|c calls IH]; intros store stats k Hwf Hbound; simpl.
  { unfold times_returned. simpl. lia. }
  pose proof (QueryAndOwn_call_bound (call_manager c) (call_env c) q
                (call_lease_seconds c) (call_limit c) store stats i k Hwf Hbound)
    as (Hwf' & Hbound' & Hle & Hone).
  destruct (QueryAndOwn max_ttl (call_manager c) (call_env c) q (call_lease_seconds c)
              (call_limit c) store stats) as [[result store1] stats1].
  simpl in Hwf', Hbound', Hle, Hone.
  pose proof (IH store1 stats1 k Hwf' Hbound') as IHsame.
  pose proof (IH store1 stats1 (k - 1) Hwf') as IHless.
  destruct (QueryAndOwn_repeatedly max_ttl q calls store1 stats1) as [[results store2] stats2].
  cbn [fst snd] in *.
  rewrite times_returned_cons.
  destruct (decide (times_returned i [result] = 1%nat)) as [Hc|Hc].
  - destruct (Hone Hc) as [Hk Hbound1]. specialize (IHless Hbound1). lia.
  - lia.
Qed.

End MoreRetryProperties.

Section MoreScheduleProperties.
Context {Payload : Type}.
Context (max_ttl : Z).

Implicit Types (r row : Row) (rows scanned rest : list Row).
Implicit Types (store : DataStore) (stats : Stats) (env : Env).
Implicit Types (self : QueueManager Payload).

Lemma GroupBy_same_key {K A} `{EqDecision K} (key : A → K) (k : K) (l : list A) :
  l ≠ [] → Forall (λ a, key a = k) l → GroupBy l key = [(k, l)].
Proof.
  intros Hl Hk. destruct l as [|a l]; [done|].
  apply Forall_cons_1 in Hk as [Ha Hk]. unfold GroupBy. simpl. rewrite Ha.
  assert (∀ vs, foldl (λ d b, setdefault_append (key b) b d) [(k, vs)] l
                = [(k, vs ++ l)]) as Hfold.
  { clear Hl Ha. induction Hk as [|b l Hb Hk IH]; intros vs; simpl.
    { by rewrite app_nil_r. }
    rewrite Hb. rewrite decide_True by done. rewrite IH.
    by rewrite <- app_assoc. }
  apply (Hfold [a]).
Qed.

Lemma dict_set_fresh {K V} `{EqDecision K} (k : K) (v : V) (d : list (K * V)) :
  k ∉ d.*1 → dict_set k v d = d ++ [(k, v)].
Proof.
  induction d as [|[k' v'] d IH]; simpl; intros Hk; [done|].
  apply not_elem_of_cons in Hk as [Hne Hk].
  rewrite decide_False by done. by rewrite IH.
Qed.

Lemma dict_NoDup {K V} `{EqDecision K} (pairs : list (K * V)) :
  NoDup pairs.*1 → dict pairs = pairs.
Proof.
  unfold dict. intros Hnd.
  assert (∀ d, NoDup (d.*1 ++ pairs.*1) →
            foldl (λ d kv, dict_set kv.1 kv.2 d) d pairs = d ++ pairs) as Hfold.
  { clear Hnd. induction pairs as [|[k v] pairs IH]; intros d Hnd; simpl.
    { by rewrite app_nil_r. }
    simpl in Hnd. apply NoDup_app in Hnd as (Hd & Hdk & Hk).
    apply NoDup_cons in Hk as [Hk Hpairs].
    rewrite dict_set_fresh.
    - rewrite IH; [by rewrite <- app_assoc|].
      rewrite fmap_app. simpl. rewrite <- app_assoc. simpl.
      apply NoDup_app. split_and!; [done| |by constructor].
      intros x Hx. apply Hdk in Hx. done.
    - intros Hin. apply (Hdk k Hin). by left. }
  by apply (Hfold []).
Qed.

(** X6. Scheduling and leasing compose. When tasks of different ids, all for the
    queue [q] and with a TTL above one, are scheduled on the empty queue [q],
    a call of [QueryAndOwn] on the queue that obtains the lock and has a limit
    of at least their number returns nothing while the timestamp of the
    schedule (the one given, else the frozen one, else the time of the write)
    lies after the time up to which the call reads; after that it returns all
    of them, each once, each with its TTL lowered by one, the timestamp of the
    schedule as [eta], and the lease tag of the caller. They come in the
    order in which the store holds them, which is the order in which the
    dictionary of [Schedule] yielded them and need not be the order in which
    they were scheduled. *)
Theorem Schedule_then_QueryAndOwn
    (self0 : QueueManager Payload) env0 scheduled ts store q
    self env lease_seconds limit stats :
  q ≠ "" → scheduled ≠ [] →
  Forall (λ t, queue t = q ∧ 1 < task_ttl t) scheduled →
  NoDup (task_id <$> scheduled) →
  rows_of store q = [] →
  store_answers env →
  Z.of_nat (length scheduled) <= limit →
  let written_at := default (Now env0) (timestamp_or_frozen self0 ts) in
  0 <= written_at →
  let lease_tag := lease_tag_of (default "" (token self)) env in
  ∃ returned,
    (QueryAndOwn max_ttl self env q lease_seconds limit
       (Schedule_in_store self0 env0 scheduled ts store) stats).1.1
    = Ok returned
    ∧ returned
      ≡ₚ (if bool_decide (written_at <= frozen_timestamp_or_Now self env)
          then (λ t, {| task_id := task_id t; queue := queue t;
                        priority := priority t; task_ttl := task_ttl t - 1;
                        eta := written_at; last_lease := lease_tag;
                        args := args t |}) <$> scheduled
          else []).
Proof.
  intros Hq Hne Hall Hnd Hempty (HL & HR & HM) Hlimit written_at Hwritten lease_tag.
  set (to_row := λ t : Task, {| predicate := _TaskIdToColumn (task_id t); value := t;
                               row_timestamp := written_at |}).
  assert (Hstore : rows_of (Schedule_in_store self0 env0 scheduled ts store) q
                   ≡ₚ to_row <$> scheduled).
  { unfold Schedule_in_store.
    rewrite (GroupBy_same_key queue q scheduled Hne).
    2:{ eapply Forall_impl; [exact Hall|]. by intros t [? _]. }
    rewrite iteritems_singleton. simpl. rewrite bool_decide_false by done.
    unfold MultiSet. rewrite rows_of_insert, Hempty. simpl.
    rewrite (iteritems_order (dict_order env0)).
    rewrite dict_NoDup.
    2:{ rewrite <- list_fmap_compose.
        replace (fst ∘ (λ task, (_TaskIdToColumn (task_id task), [task])))
          with (_TaskIdToColumn ∘ task_id) by done.
        rewrite list_fmap_compose. apply NoDup_fmap_2; [|done].
        intros i j. apply _TaskIdToColumn_inj. }
    fold written_at. clear. induction scheduled as [|t l IH]; [done|].
    rewrite fmap_cons, bind_cons. simpl. by rewrite IH. }
  destruct (_QueryAndOwn_spec max_ttl self env q lease_seconds limit
              (default "" (token self))
              (Schedule_in_store self0 env0 scheduled ts store) stats HR HM)
    as (scanned & rest & store' & stats' & Hv & Hcall & _ & _ & _ & Hfull & _).
  fold lease_tag in Hcall.
  rewrite (QueryAndOwn_locked max_ttl _ _ _ _ _ _ _ _ _ _ HL Hcall). simpl.
  eexists. split; [reflexivity|].
  unfold ResolvePrefix in Hv. revert Hv Hstore.
  generalize (rows_of (Schedule_in_store self0 env0 scheduled ts store) q).
  intros rows Hv Hstore. simpl in Hv.
  assert (Hrows : ∀ r, r ∈ rows → ∃ t, r = to_row t ∧ t ∈ scheduled).
  { intros r Hr. rewrite Hstore in Hr. by apply list_elem_of_fmap in Hr. }
  case_bool_decide as Hvisible.
  - rewrite filter_all in Hv.
    2:{ apply Forall_forall. intros r (t & -> & _)%Hrows. simpl.
        split; [apply _TaskIdToColumn_prefix|lia]. }
    assert (Hsurvive : ∀ l, l `sublist_of` rows → survivors l = l).
    { intros l Hl. apply filter_all. apply Forall_forall. intros r Hr.
      apply (elem_of_sublist _ _ _ Hr) in Hl.
      apply Hrows in Hl as (t & -> & Ht). simpl.
      rewrite Forall_forall in Hall. by apply Hall. }
    assert (Hrest : rest = []).
    { destruct rest as [|r rest]; [done|]. exfalso.
      specialize (Hfull ltac:(done)).
      rewrite Hsurvive in Hfull by (rewrite Hv; by apply sublist_inserts_r).
      apply Permutation_length in Hstore.
      rewrite Hv, length_fmap, length_app in Hstore. simpl in Hstore. lia. }
    subst rest. rewrite app_nil_r in Hv. subst scanned.
    rewrite Hsurvive by done. rewrite Hstore, <- list_fmap_compose. done.
  - destruct scanned as [|r scanned]; [done|]. exfalso.
    assert (Hr : r ∈ filter (λ r, String.prefix TASK_PREDICATE_PREFIX (predicate r) = true
                                  ∧ 0 <= row_timestamp r
                                       <= frozen_timestamp_or_Now self env)
                       rows).
    { rewrite Hv. by left. }
    apply list_elem_of_filter in Hr as [[_ Hts] (t & -> & _)%Hrows].
    simpl in Hts. lia.
Qed.

End MoreScheduleProperties.

Section MoreShardProperties.
Context {Payload : Type}.
Context (SessionQueue : string → string).

Implicit Types (self : QueueManager Payload) (env : Env) (counters : gmap string Z).

Lemma string_length_app (s1 s2 : string) :
  String.length (s1 +:+ s2) = (String.length s1 + String.length s2)%nat.
Proof. induction s1 as [|c s1 IH]; [done|]. rewrite append_cons. simpl. by rewrite IH. Qed.

Lemma urn_Add_ne q c : urn_Add q c ≠ q.
Proof.
  intros H. apply (f_equal String.length) in H. unfold urn_Add in H.
  rewrite !string_length_app in H. simpl in H. lia.
Qed.

Lemma urn_Add_inj q c1 c2 : urn_Add q c1 = urn_Add q c2 → c1 = c2.
Proof.
  unfold urn_Add. intros H. apply (inj (String.append q)) in H.
  rewrite !append_cons in H. by injection H.
Qed.

Lemma shard_name_inj q i j : 0 <= i → 0 <= j → shard_name q i = shard_name q j → i = j.
Proof.
  unfold shard_name. intros Hi Hj.
  destruct (Z.ltb_spec 0 i), (Z.ltb_spec 0 j); intros Heq.
  - apply urn_Add_inj in Heq. by apply (inj pretty) in Heq.
  - by apply urn_Add_ne in Heq.
  - symmetry in Heq. by apply urn_Add_ne in Heq.
  - lia.
Qed.

Lemma GetAllNotificationShards_names self q :
  0 < num_notification_shards self →
  GetAllNotificationShards self q
  = shard_name q <$> seqZ 0 (num_notification_shards self).
Proof.
  intros Hn. unfold GetAllNotificationShards.
  rewrite (seqZ_cons 0) by lia. rewrite fmap_cons. f_equal.
  replace (Z.pred (num_notification_shards self))
    with (num_notification_shards self - 1) by lia.
  apply Forall_fmap_ext_1, Forall_seqZ. intros i Hi. unfold shard_name.
  destruct (Z.ltb_spec 0 i); [done|lia].
Qed.

Lemma GetNotificationShard_name self q counters :
  num_notification_shards self ≠ 0 →
  GetNotificationShard self q counters
  = (Ok (shard_name q
           ((default 0 (counters !! q) + 1) `mod` num_notification_shards self)),
     <[q := default 0 (counters !! q) + 1]> counters).
Proof. intros Hn. unfold GetNotificationShard. by rewrite bool_decide_false. Qed.

(** The shard that a call chooses is one of the shards of the queue. *)
Lemma GetNotificationShard_elem self q counters :
  0 < num_notification_shards self →
  ∃ shard, (GetNotificationShard self q counters).1 = Ok shard
           ∧ shard ∈ GetAllNotificationShards self q.
Proof.
  intros Hn. rewrite GetNotificationShard_name, GetAllNotificationShards_names by lia.
  eexists. split; [reflexivity|]. apply list_elem_of_fmap_2, elem_of_seqZ.
  pose proof (Z.mod_pos_bound (default 0 (counters !! q) + 1)
                (num_notification_shards self) Hn). lia.
Qed.

Lemma GetNotificationShard_repeatedly_names self q k counters :
  num_notification_shards self ≠ 0 →
  (GetNotificationShard_repeatedly self q k counters).1
  = (λ i, Ok (shard_name q
                ((default 0 (counters !! q) + i) `mod` num_notification_shards self)))
      <$> seqZ 1 (Z.of_nat k).
Proof.
  intros Hn. revert counters. induction k as [|k IH]; intros counters; [done|].
  cbn [GetNotificationShard_repeatedly]. rewrite GetNotificationShard_name by done.
  specialize (IH (<[q := default 0 (counters !! q) + 1]> counters)).
  destruct (GetNotificationShard_repeatedly _ _ _ _) as [shards counters'].
  cbn [fst] in *. rewrite IH. rewrite lookup_insert_eq. cbn [default].
  rewrite (seqZ_cons 1 (Z.of_nat (S k))) by lia. rewrite fmap_cons. f_equal.
  replace (Z.pred (Z.of_nat (S k))) with (Z.of_nat k) by lia.
  rewrite <- (fmap_add_seqZ 1 1). rewrite <- list_fmap_compose.
  apply Forall_fmap_ext_1, Forall_forall. intros i _. simpl. do 3 f_equal. lia.
Qed.

Lemma mod_window_Permutation (c n : Z) :
  0 < n → (λ i, (c + i) `mod` n) <$> seqZ 1 n ≡ₚ seqZ 0 n.
Proof.
  intros Hn. apply submseteq_length_Permutation.
  - apply NoDup_submseteq.
    + apply NoDup_fmap_2_strong; [|apply NoDup_seqZ].
      intros i j Hi%elem_of_seqZ Hj%elem_of_seqZ Heq.
      pose proof (Z.div_mod (c + i) n ltac:(lia)).
      pose proof (Z.div_mod (c + j) n ltac:(lia)).
      assert ((c + i) `div` n = (c + j) `div` n) by nia. lia.
    + intros x (i & -> & _)%list_elem_of_fmap. apply elem_of_seqZ.
      pose proof (Z.mod_pos_bound (c + i) n Hn). lia.
  - by rewrite length_fmap, !length_seqZ.
Qed.

(** X7. The shards of a queue are its notification queues: the queue itself and
    one more for each further shard, all different. [GetNotificationShard]
    spreads the notifications over them evenly: as many calls in a row as
    there are shards choose each shard once, wherever the counter of the queue
    stands, and none of them raises. *)
Theorem GetNotificationShard_takes_turns self q counters :
  0 < num_notification_shards self →
  NoDup (GetAllNotificationShards self q)
  ∧ length (GetAllNotificationShards self q) = Z.to_nat (num_notification_shards self)
  ∧ (GetNotificationShard_repeatedly self q
       (Z.to_nat (num_notification_shards self)) counters).1
    ≡ₚ Ok <$> GetAllNotificationShards self q.
Proof.
  intros Hn. rewrite GetAllNotificationShards_names by done. split_and!.
  - apply NoDup_fmap_2_strong; [|apply NoDup_seqZ].
    intros i j Hi%elem_of_seqZ Hj%elem_of_seqZ. apply shard_name_inj; lia.
  - by rewrite length_fmap, length_seqZ.
  - rewrite GetNotificationShard_repeatedly_names, Z2Nat.id by lia.
    rewrite <- (mod_window_Permutation (default 0 (counters !! q))
                  (num_notification_shards self) Hn).
    by rewrite <- !list_fmap_compose.
Qed.

Lemma GroupBy_entries_fold {K A} `{EqDecision K} (key : A → K) (l : list A)
    (d : list (K * list A)) :
  entries (foldl (λ d a, setdefault_append (key a) a d) d l)
  ≡ₚ entries d ++ ((λ a, (key a, a)) <$> l).
Proof.
  revert d. induction l as [|a l IH]; intros d; simpl.
  { by rewrite app_nil_r. }
  rewrite IH, setdefault_append_entries. by rewrite <- app_assoc.
Qed.

Lemma GroupBy_entries {K A} `{EqDecision K} (key : A → K) (l : list A) :
  entries (GroupBy l key) ≡ₚ (λ a, (key a, a)) <$> l.
Proof. unfold GroupBy. by rewrite GroupBy_entries_fold. Qed.

Lemma elem_of_entries {K A} (d : list (K * list A)) k a :
  (k, a) ∈ entries d ↔ ∃ vs, (k, vs) ∈ d ∧ a ∈ vs.
Proof.
  unfold entries. rewrite list_elem_of_bind. split.
  - intros ([k' vs] & Hin & Hd). apply list_elem_of_fmap in Hin as (v & [= -> ->] & Hv).
    by exists vs.
  - intros (vs & Hd & Ha). exists (k, vs). split; [|done].
    by apply (list_elem_of_fmap_2 (λ v, (k, v))).
Qed.

(** X8. [DeleteNotifications] deletes for all the session ids or for none. With no
    session id it does nothing; with an argument that is not a session id it
    raises [RuntimeError] before anything is deleted; otherwise it asks the
    store, for each session id, to delete the notifications of the session in
    every shard of the queue of the session, from [start] (zero if not given)
    to [end] (if not given, the frozen timestamp, or else the time of the
    call), and it deletes for no other session. *)
Theorem DeleteNotifications_covers_all_shards self env session_ids start end_time :
  match DeleteNotifications SessionQueue self env session_ids start end_time with
  | Raise e =>
      e = RuntimeError "Can only delete notifications for rdfvalue.SessionIDs."
      ∧ ∃ repr, NotASessionID repr ∈ session_ids
  | Ok deletions =>
      (session_ids = [] → deletions = [])
      ∧ (∀ s, s ∈ session_ids → is_SessionID s = true)
      ∧ (∀ s, SessionID s ∈ session_ids →
           ∃ d, d ∈ deletions ∧ s ∈ deleted_session_ids d
                ∧ deleted_shards d = GetAllNotificationShards self (SessionQueue s))
      ∧ (∀ d s, d ∈ deletions → s ∈ deleted_session_ids d →
           SessionID s ∈ session_ids
           ∧ deleted_shards d = GetAllNotificationShards self (SessionQueue s)
           ∧ deleted_start d = default 0 start
           ∧ deleted_end d = default (frozen_timestamp_or_Now self env) end_time)
  end.
Proof.
  unfold DeleteNotifications. case_bool_decide as Hempty.
  { subst. split_and!; [done|..]; intros; exfalso; eapply elem_of_nil; eauto. }
  destruct (forallb is_SessionID session_ids) eqn:Hall; simpl.
  - assert (Hall' : ∀ a, a ∈ session_ids → is_SessionID a = true).
    { intros a Ha. eapply forallb_forall; [exact Hall|]. by apply list_elem_of_In. }
    assert (Hids : ∀ s, s ∈ session_id_string <$> session_ids ↔ SessionID s ∈ session_ids).
    { intros s. rewrite list_elem_of_fmap. split.
      - intros (a & -> & Ha). specialize (Hall' a Ha). by destruct a.
      - intros Hs. by exists (SessionID s). }
    split_and!; [done| |..].
    + exact Hall'.
    + intros s Hs.
      assert ((SessionQueue s, s) ∈ entries (GroupBy (session_id_string <$> session_ids)
                                               SessionQueue)) as Hentry.
      { rewrite GroupBy_entries. apply (list_elem_of_fmap_2 (λ a, (SessionQueue a, a))).
        by apply Hids. }
      apply elem_of_entries in Hentry as (ids & Hgroup & Hs').
      exists {| deleted_shards := GetAllNotificationShards self (SessionQueue s);
                deleted_session_ids := ids;
                deleted_start := default 0 start;
                deleted_end := default (frozen_timestamp_or_Now self env) end_time |}.
      split; [|done]. apply list_elem_of_fmap. exists (SessionQueue s, ids).
      split; [done|]. by apply iteritems_elem_of.
    + intros d s ([q ids] & -> & Hgroup)%list_elem_of_fmap Hs. simpl in *.
      apply iteritems_elem_of in Hgroup.
      assert ((q, s) ∈ entries (GroupBy (session_id_string <$> session_ids)
                                  SessionQueue)) as Hentry.
      { apply elem_of_entries. by exists ids. }
      rewrite GroupBy_entries in Hentry.
      apply list_elem_of_fmap in Hentry as (s' & [= -> ->] & Hs'').
      split_and!; [by apply Hids|done..].
  - split; [done|].
    assert (¬ Forall (λ a, is_SessionID a = true) session_ids) as Hnot.
    { intros HF. rewrite Forall_forall in HF.
      assert (forallb is_SessionID session_ids = true); [|congruence].
      apply forallb_forall. intros a Ha. apply HF. by apply list_elem_of_In. }
    apply not_Forall_Exists in Hnot; [|intros a; apply _].
    apply Exists_exists in Hnot as (a & Ha & Hna).
    destruct a as [s|repr]; [by destruct Hna|]. by exists repr.
Qed.

(** X9. A notification can be deleted wherever it was written. The shard in which
    [NotifyQueue] writes the notification of a session is one of the shards in
    which [DeleteNotification] deletes for the session, by a manager with the
    same number of shards and whatever the counter of the queue was. *)
Theorem DeleteNotification_reaches_notified_shard
    self env notification (pool : MutationPool Payload) counters
    (self2 : QueueManager Payload) env2 start end_time :
  0 < num_notification_shards self →
  num_notification_shards self2 = num_notification_shards self →
  ∃ shard written deletion,
    (NotifyQueue SessionQueue self env notification pool counters).1
      = Ok (pool ++ [CreateNotifications shard written])
    ∧ DeleteNotification SessionQueue self2 env2
        (SessionID (session_id notification)) start end_time = Ok [deletion]
    ∧ shard ∈ deleted_shards deletion
    ∧ deleted_session_ids deletion = [session_id notification].
Proof.
  intros Hn Hsame. unfold NotifyQueue, _MultiNotifyQueue.
  destruct (GetNotificationShard_elem self
              (SessionQueue (session_id notification)) counters Hn)
    as (shard & Hshard & Hin).
  destruct (GetNotificationShard self _ counters) as [chosen counters'].
  simpl in Hshard. subst chosen.
  unfold DeleteNotification, DeleteNotifications. simpl.
  unfold GroupBy. simpl. rewrite iteritems_singleton. simpl.
  eexists shard, _, _. split_and!; [reflexivity|reflexivity|..].
  - simpl. unfold GetAllNotificationShards in *. by rewrite Hsame.
  - done.
Qed.

End MoreShardProperties.

Section MoreNotificationProperties.
Context {Payload : Type}.
Context (DB_GetNotifications : string → Z → list GrrNotification).

Implicit Types (self : QueueManager Payload) (env : Env).
Implicit Types (d : gmap string GrrNotification) (m n x : GrrNotification).

Lemma not_later_refl n : not_later n n.
Proof. unfold not_later. lia. Qed.

Lemma not_later_trans m n x : not_later m n → not_later n x → not_later m x.
Proof. unfold not_later. lia. Qed.

Lemma scheduled_later_spec x n :
  if scheduled_later x n then not_later n x else not_later x n.
Proof.
  unfold scheduled_later, not_later.
  destruct (Z.ltb_spec (first_queued n) (first_queued x)); simpl; [lia|].
  destruct (Z.eqb_spec (first_queued x) (first_queued n)); simpl; [|lia].
  destruct (Z.ltb_spec (last_status n) (last_status x)); lia.
Qed.

Lemma _GetUnsortedNotifications_fold self env shard by_session :
  _GetUnsortedNotifications DB_GetNotifications self env shard by_session
  = foldl keep_latest (default ∅ by_session)
      (DB_GetNotifications shard (frozen_timestamp_or_Now self env)).
Proof. done. Qed.

Lemma keep_latest_grows d x k n :
  d !! k = Some n → ∃ n', keep_latest d x !! k = Some n' ∧ not_later n n'.
Proof.
  intros Hk. unfold keep_latest.
  destruct (decide (k = session_id x)) as [->|Hne].
  - rewrite Hk. pose proof (scheduled_later_spec x n) as Hspec.
    destruct (scheduled_later x n).
    + exists x. by rewrite lookup_insert_eq.
    + exists n. split; [done|apply not_later_refl].
  - exists n. split; [|apply not_later_refl].
    destruct (d !! session_id x) as [existing|];
      [destruct (scheduled_later x existing)|]; by rewrite ?lookup_insert_ne.
Qed.

Lemma keep_latest_holds d x :
  ∃ n, keep_latest d x !! session_id x = Some n ∧ not_later x n.
Proof.
  unfold keep_latest. destruct (d !! session_id x) as [existing|] eqn:Hk.
  - pose proof (scheduled_later_spec x existing) as Hspec.
    destruct (scheduled_later x existing).
    + exists x. rewrite lookup_insert_eq. split; [done|apply not_later_refl].
    + by exists existing.
  - exists x. rewrite lookup_insert_eq. split; [done|apply not_later_refl].
Qed.

Lemma keep_latest_origin d x k n :
  keep_latest d x !! k = Some n → d !! k = Some n ∨ (n = x ∧ k = session_id x).
Proof.
  unfold keep_latest.
  destruct (d !! session_id x) as [existing|];
    [destruct (scheduled_later x existing)|]; [|by left|];
    (destruct (decide (k = session_id x)) as [->|Hne];
       [rewrite lookup_insert_eq; intros [= <-]; by right
       |rewrite lookup_insert_ne by done; by left]).
Qed.

Lemma keep_latest_fold (l : list GrrNotification) d :
  let d' := foldl keep_latest d l in
  (keyed_by_session_id d → keyed_by_session_id d')
  ∧ (∀ k n, d' !! k = Some n → d !! k = Some n ∨ (n ∈ l ∧ k = session_id n))
  ∧ (∀ k n, d !! k = Some n → ∃ n', d' !! k = Some n' ∧ not_later n n')
  ∧ (∀ m, m ∈ l → ∃ n, d' !! session_id m = Some n ∧ not_later m n).
Proof.
  revert d. induction l as [|x l IH]; intros d; simpl.
  { split_and!; [done|by left| |].
    - intros k n Hk. exists n. split; [done|apply not_later_refl].
    - intros m Hm. by apply elem_of_nil in Hm. }
  destruct (IH (keep_latest d x)) as (IHkey & IHorigin & IHgrow & IHhold).
  split_and!.
  - intros Hkey. apply IHkey. intros k n Hk.
    apply keep_latest_origin in Hk as [Hk|[-> ->]]; [by apply Hkey|done].
  - intros k n Hk. apply IHorigin in Hk as [Hk|[Hn ->]].
    + apply keep_latest_origin in Hk as [Hk|[-> ->]]; [by left|].
      right. split; [by left|done].
    + right. split; [by right|done].
  - intros k n Hk.
    destruct (keep_latest_grows d x k n Hk) as (n1 & Hk1 & Hle1).
    destruct (IHgrow k n1 Hk1) as (n2 & Hk2 & Hle2).
    exists n2. split; [done|]. by eapply not_later_trans.
  - intros m [->|Hm]%elem_of_cons.
    + destruct (keep_latest_holds d x) as (n1 & Hk1 & Hle1).
      destruct (IHgrow _ n1 Hk1) as (n2 & Hk2 & Hle2).
      exists n2. split; [done|]. by eapply not_later_trans.
    + by apply IHhold.
Qed.

(** X10. Reading the notifications of a shard into a dictionary keeps, for each
    session id, the notification that was scheduled last: the dictionary
    afterwards holds one notification for every session that it held one for
    or that the shard has one for, and none for another session; what it holds
    for a session comes from the dictionary before or from the shard, and no
    notification of the session, in the dictionary before or in the shard,
    was scheduled later (has a later [first_queued], or the same and a higher
    [last_status]). *)
Theorem GetUnsortedNotifications_keeps_latest self env shard d :
  keyed_by_session_id d →
  let stored := DB_GetNotifications shard (frozen_timestamp_or_Now self env) in
  let d' := _GetUnsortedNotifications DB_GetNotifications self env shard (Some d) in
  keyed_by_session_id d'
  ∧ (∀ k n, d' !! k = Some n → d !! k = Some n ∨ n ∈ stored)
  ∧ (∀ k n, d !! k = Some n → ∃ n', d' !! k = Some n' ∧ not_later n n')
  ∧ (∀ m, m ∈ stored → ∃ n, d' !! session_id m = Some n ∧ not_later m n).
Proof.
  intros Hkey stored d'. subst d'. rewrite _GetUnsortedNotifications_fold. simpl.
  destruct (keep_latest_fold stored d) as (H1 & H2 & H3 & H4).
  split_and!; [by apply H1| |done|done].
  intros k n Hk. apply H2 in Hk as [Hk|[Hn _]]; [by left|by right].
Qed.

Lemma values_session_ids env d :
  keyed_by_session_id d → session_id <$> values env d ≡ₚ (map_to_list d).*1.
Proof.
  intros Hkey. unfold values. rewrite (iteritems_order (dict_order env)).
  rewrite <- list_fmap_compose.
  assert ((session_id ∘ snd) <$> map_to_list d = (map_to_list d).*1) as ->; [|done].
  apply Forall_fmap_ext_1, Forall_forall. intros [k n] Hkn. simpl.
  apply elem_of_map_to_list in Hkn. by apply Hkey.
Qed.

Lemma elem_of_values env d n : n ∈ values env d ↔ ∃ k, d !! k = Some n.
Proof.
  unfold values. rewrite list_elem_of_fmap. split.
  - intros ([k n'] & -> & Hkn). exists k.
    by apply iteritems_elem_of, elem_of_map_to_list in Hkn.
  - intros (k & Hk). exists (k, n). split; [done|].
    by apply iteritems_elem_of, elem_of_map_to_list.
Qed.

Lemma all_shards_fold self env (shards : list string) d :
  foldl (λ by_session shard,
           _GetUnsortedNotifications DB_GetNotifications self env shard (Some by_session))
        d shards
  = foldl keep_latest d
      (shards ≫= λ shard, DB_GetNotifications shard (frozen_timestamp_or_Now self env)).
Proof.
  revert d. induction shards as [|shard shards IH]; intros d; [done|].
  rewrite bind_cons, foldl_app. simpl. by rewrite IH.
Qed.

(** X11. [GetNotificationsForAllShards] returns, of the notifications that the
    store holds in the shards of the queue up to the frozen timestamp (or else
    the time of the call), one for each session that has any: a notification
    of the session than which none was scheduled later. The list is in
    descending order of priority. *)
Theorem GetNotificationsForAllShards_one_per_session self env q :
  let stored :=
    GetAllNotificationShards self q
      ≫= λ shard, DB_GetNotifications shard (frozen_timestamp_or_Now self env) in
  let result := GetNotificationsForAllShards DB_GetNotifications self env q in
  StronglySorted (λ n1 n2, notification_priority n2 <= notification_priority n1) result
  ∧ NoDup (session_id <$> result)
  ∧ (∀ n, n ∈ result → n ∈ stored)
  ∧ (∀ m, m ∈ stored →
       ∃ n, n ∈ result ∧ session_id n = session_id m ∧ not_later m n).
Proof.
  intros stored result. subst result. unfold GetNotificationsForAllShards.
  rewrite all_shards_fold. fold stored.
  destruct (keep_latest_fold stored ∅) as (Hkey & Horigin & _ & Hhold).
  set (d' := foldl keep_latest ∅ stored) in *.
  assert (keyed_by_session_id d') as Hkey'.
  { apply Hkey. intros k n Hk. by rewrite lookup_empty in Hk. }
  split_and!.
  - apply sort_descending_sorted.
  - rewrite sort_descending_perm, values_session_ids by done.
    apply NoDup_fst_map_to_list.
  - intros n. rewrite sort_descending_perm. intros (k & Hk)%elem_of_values.
    apply Horigin in Hk as [Hk|[Hn _]]; [by rewrite lookup_empty in Hk|done].
  - intros m Hm. destruct (Hhold m Hm) as (n & Hk & Hle).
    exists n. split_and!; [|by apply Hkey'|done].
    rewrite sort_descending_perm. apply elem_of_values. by exists (session_id m).
Qed.

End MoreNotificationProperties.

Section MoreBufferProperties.
Context {Payload : Type}.
Context (SessionQueue : string → string) (ClientQueue : string → string).

Implicit Types (self : QueueManager Payload) (env : Env) (counters : gmap string Z).
Implicit Types (pool : MutationPool Payload).

Lemma UnfreezeTimestamp_FreezeTimestamp self env :
  UnfreezeTimestamp (FreezeTimestamp self env) = Ok self.
Proof.
  unfold UnfreezeTimestamp, FreezeTimestamp. simpl.
  rewrite reverse_app. simpl. rewrite reverse_involutive. by destruct self.
Qed.

Lemma freeze_all_snoc self envs env :
  freeze_all self (envs ++ [env]) = FreezeTimestamp (freeze_all self envs) env.
Proof. unfold freeze_all. by rewrite foldl_app. Qed.

(** X12. Freezing nests. After any number of nested calls of [FreezeTimestamp] the
    frozen timestamp is the time of the last one, and as many calls of
    [UnfreezeTimestamp] bring the manager back to where it was, its frozen
    timestamp included; on a new manager one more call raises [RuntimeError],
    as any call does without a freeze before it. *)
Theorem UnfreezeTimestamp_undoes_FreezeTimestamp self envs user shards :
  unfreeze_all (length envs) (freeze_all self envs) = Ok self
  ∧ (∀ env, frozen_timestamp (freeze_all self (envs ++ [env])) = Some (Now env))
  ∧ unfreeze_all (S (length envs))
      (freeze_all (QueueManager_init (Payload:=Payload) user shards) envs)
    = Raise (RuntimeError "Unbalanced UnfreezeTimestamp call.").
Proof.
  assert (Hundo : ∀ k (qm : QueueManager Payload),
            unfreeze_all (length envs + k) (freeze_all qm envs) = unfreeze_all k qm).
  { induction envs as [|env envs' IH] using rev_ind; intros k qm; [done|].
    rewrite length_app, freeze_all_snoc. simpl.
    replace (length envs' + 1 + k)%nat with (S (length envs' + k)) by lia.
    simpl. rewrite UnfreezeTimestamp_FreezeTimestamp. apply IH. }
  split_and!.
  - rewrite <- (Nat.add_0_r (length envs)). by rewrite Hundo.
  - intros env. by rewrite freeze_all_snoc.
  - replace (S (length envs)) with (length envs + 1)%nat by lia. by rewrite Hundo.
Qed.

(** *** The [with] block *)

Lemma run_calls_frozen self body :
  prev_frozen_timestamps (run_calls self body) = prev_frozen_timestamps self
  ∧ frozen_timestamp (run_calls self body) = frozen_timestamp self
  ∧ token (run_calls self body) = token self
  ∧ num_notification_shards (run_calls self body) = num_notification_shards self.
Proof.
  revert self. induction body as [|c body IH]; intros self; [done|].
  unfold run_calls in *. simpl. destruct (IH (run_call self c)) as (-> & -> & -> & ->).
  destruct c; simpl; try done.
  - unfold QueueNotification. case_bool_decide; [done|].
    destruct (notifications self !! _) as [existing|]; [|done].
    by destruct (last_status existing <? _).
  - unfold DeQueueClientRequest. by case_bool_decide.
Qed.

Lemma run_call_stamped (A : option Z → Prop) self c :
  A (frozen_timestamp self) →
  (∀ t, call_timestamp c = Some t → A (Some t)) →
  buffers_stamped A self → buffers_stamped A (run_call self c).
Proof.
  intros Hfrozen Hcall (Hreq & Hresp & Hmsg & Hnot).
  assert (Hts : ∀ ts, call_timestamp c = ts → A (timestamp_or_frozen self ts)).
  { intros [t|] Hc; simpl; [by apply Hcall|done]. }
  destruct c; simpl in *.
  - split_and!; try done. apply Forall_app. split; [done|].
    constructor; [|done]. simpl. by apply Hts.
  - split_and!; try done. apply Forall_app. split; [done|].
    constructor; [|done]. simpl. by apply Hts.
  - split_and!; try done. apply Forall_app. split; [done|].
    constructor; [|done]. simpl. by apply Hts.
  - unfold QueueNotification. case_bool_decide; [done|].
    assert (buffers_stamped A
              (set_notifications self
                 (<[notification_key (session_id (set_timestamp notification
                                         (timestamp_or_frozen self ts)))
                      (timestamp_or_frozen self ts)
                    := set_timestamp notification (timestamp_or_frozen self ts)]>
                    (notifications self)))) as Hset.
    { split_and!; try done. simpl. intros k n.
      destruct (decide (k = notification_key (session_id (set_timestamp notification
                                         (timestamp_or_frozen self ts)))
                      (timestamp_or_frozen self ts))) as [->|Hne].
      - rewrite lookup_insert_eq. intros [= <-]. simpl. by apply Hts.
      - rewrite lookup_insert_ne by done. apply Hnot. }
    destruct (notifications self !! _) as [existing|]; [|done].
    by destruct (last_status existing <? _).
  - unfold DeQueueClientRequest. by case_bool_decide.
Qed.

Lemma GroupBy_keys_fold {K A} `{EqDecision K} (key : A → K) (l : list A)
    (d : list (K * list A)) k :
  k ∈ (foldl (λ d a, setdefault_append (key a) a d) d l).*1
  ↔ k ∈ d.*1 ∨ k ∈ key <$> l.
Proof.
  revert d. induction l as [|a l IH]; intros d; simpl.
  { rewrite elem_of_nil. tauto. }
  rewrite IH, setdefault_append_keys, elem_of_cons. tauto.
Qed.

Lemma GroupBy_values_fold {K A} `{EqDecision K} (key : A → K) (l : list A)
    (d : list (K * list A)) k vs a :
  (k, vs) ∈ foldl (λ d a, setdefault_append (key a) a d) d l → a ∈ vs →
  (∃ vs', (k, vs') ∈ d ∧ a ∈ vs') ∨ a ∈ l.
Proof.
  intros Hk Ha.
  assert ((k, a) ∈ entries (foldl (λ d a, setdefault_append (key a) a d) d l)) as He.
  { apply elem_of_entries. by exists vs. }
  rewrite GroupBy_entries_fold in He. apply elem_of_app in He as [He|He].
  - left. by apply elem_of_entries.
  - right. by apply list_elem_of_fmap in He as (a' & [= _ ->] & Ha').
Qed.

Lemma Schedule_stamped (A : option Z → Prop) self env scheduled ts pool :
  A (timestamp_or_frozen self ts) →
  Forall (λ w, Forall A (write_timestamps w)) pool →
  Forall (λ w, Forall A (write_timestamps w)) (Schedule self env scheduled ts pool).
Proof.
  intros Hts. unfold Schedule.
  generalize (iteritems (dict_order env) (GroupBy scheduled queue)). intros groups.
  revert pool. induction groups as [|[q queued] groups IH]; intros pool H; simpl; [done|].
  apply IH. case_bool_decide; [done|].
  apply Forall_app. split; [done|]. by repeat constructor.
Qed.

Lemma notify_each_stamped (A : option Z → Prop) self env
    (ns : list GrrNotification) pool counters :
  (∀ n, n ∈ ns → A (timestamp n)) →
  Forall (λ w, Forall A (write_timestamps w)) pool →
  match (notify_each SessionQueue self env ns pool counters).1 with
  | Ok pool' => Forall (λ w, Forall A (write_timestamps w)) pool'
  | Raise _ => True
  end.
Proof.
  revert pool counters. induction ns as [|n ns IH]; intros pool counters Hns Hpool; simpl.
  { done. }
  pose proof (NotifyQueue_result SessionQueue self env n pool counters) as Hn.
  destruct (NotifyQueue SessionQueue self env n pool counters) as [notified c1].
  simpl in Hn. subst notified. case_bool_decide as Hzero; simpl; [done|].
  apply IH; [intros n' Hn'; apply Hns; by right|].
  apply Forall_app. split; [done|]. constructor; [|done]. simpl.
  assert (A (timestamp n)) as Hn by (apply Hns; by left).
  case_bool_decide; simpl; [by constructor|].
  destruct (_ >=? _); simpl; [done|by constructor].
Qed.

Lemma QueueManager_Flush_stamped (A : option Z → Prop) self env counters :
  (∀ ts, A ts → ts ≠ None) →
  buffers_stamped A self →
  Forall (λ w, Forall A (write_timestamps w))
    (QueueManager_Flush SessionQueue ClientQueue self env counters).2.
Proof.
  intros HA (Hreq & Hresp & Hmsg & Hnot). unfold QueueManager_Flush.
  set (deleted := foldl _ _ (iteritems _ (client_messages_to_delete self))).
  assert (Hdel : Forall (λ w, Forall A (write_timestamps w)) deleted).
  { subst deleted. generalize (iteritems (dict_order env) (client_messages_to_delete self)).
    assert (Hnil : Forall (λ w, Forall A (write_timestamps w))
                     ([] : MutationPool Payload)) by constructor.
    revert Hnil. generalize ([] : MutationPool Payload).
    intros pool Hpool l. revert pool Hpool.
    induction l as [|[c ms] l IH]; intros pool Hpool; simpl; [done|].
    apply IH. unfold Delete. case_bool_decide; [done|].
    apply Forall_app. split; [done|]. by repeat constructor. }
  set (tasks_written := if bool_decide (new_client_messages self ≠ []) then _ else deleted).
  assert (Htasks : Forall (λ w, Forall A (write_timestamps w)) tasks_written).
  { subst tasks_written. case_bool_decide; [|done].
    assert (Hkeys : ∀ ts, ts ∈ (iteritems (dict_order env)
                                  (GroupBy (new_client_messages self) snd)).*1 → A ts).
    { intros ts Hts. apply iteritems_keys in Hts.
      unfold GroupBy in Hts. apply GroupBy_keys_fold in Hts as [Hts|Hts].
      { by apply elem_of_nil in Hts. }
      apply list_elem_of_fmap in Hts as (p & -> & Hp).
      rewrite Forall_forall in Hmsg. by apply Hmsg. }
    revert Hkeys.
    generalize (iteritems (dict_order env) (GroupBy (new_client_messages self) snd)).
    revert Hdel. generalize deleted. intros pool Hpool l. revert pool Hpool.
    induction l as [|[ts ms] l IH]; intros pool Hpool Hkeys; simpl; [done|].
    apply IH.
    - apply Schedule_stamped; [|done].
      assert (A ts) as Hts by (apply Hkeys; by left).
      destruct ts as [t|]; [done|]. by destruct (HA None Hts).
    - intros ts' Hts'. apply Hkeys. by right. }
  assert (Hrequests : Forall A (write_timestamps
            (StoreRequestsAndResponses (request_queue self) (response_queue self)
               (requests_to_delete self) : StoreWrite Payload))).
  { simpl. apply Forall_app. split; by apply Forall_fmap. }
  assert (Hvalues : ∀ n, n ∈ (iteritems (dict_order env)
                                 (map_to_list (notifications self))).*2 →
                         A (timestamp n)).
  { intros n ([k n'] & -> & Hkn)%list_elem_of_fmap.
    apply iteritems_elem_of, elem_of_map_to_list in Hkn. by eapply Hnot. }
  pose proof (notify_each_stamped A self env
                (iteritems (dict_order env) (map_to_list (notifications self))).*2
                [] counters Hvalues ltac:(constructor)) as Hn.
  destruct (if bool_decide (notifications self ≠ ∅) then _ else _)
    as [notified counters'] eqn:Hnotified.
  assert (match notified with
          | Ok written => Forall (λ w, Forall A (write_timestamps w)) written
          | Raise _ => True
          end) as Hwritten.
  { revert Hnotified. case_bool_decide.
    - intros Heq. by rewrite Heq in Hn.
    - intros [= <- <-]. constructor. }
  destruct notified as [written|e]; simpl.
  - constructor; [done|]. by apply Forall_app.
  - constructor; [done|]. done.
Qed.

(** X13. A [with] block leaves the manager as it found it, and what is queued in
    it is written at the frozen time. For a manager with empty buffers and a
    positive number of notification shards, and whatever is queued inside the
    block ([QueueResponse], [QueueRequest], [QueueClientMessage],
    [QueueNotification], [DeQueueClientRequest]), leaving the block does not
    raise and gives back the manager as it was before the block, with its
    former frozen timestamp; and every timestamp that the flush writes (of a
    request, a response, a schedule of tasks or a notification) is the time
    at which the block was entered, unless the call that queued the item gave
    a timestamp of its own. *)
Theorem with_block_writes_at_frozen_time self env body env' counters :
  buffers_empty self →
  0 < num_notification_shards self →
  let inside := run_calls (QueueManager_enter self env) body in
  let outcome := QueueManager_exit SessionQueue ClientQueue inside env' counters in
  outcome.1.1 = Ok self
  ∧ ∀ w ts, w ∈ outcome.2 → ts ∈ write_timestamps w →
      ts = Some (Now env) ∨ (ts ≠ None ∧ ts ∈ call_timestamp <$> body).
Proof.
  intros (E1 & E2 & E3 & E4 & E5 & E6) Hshards inside outcome.
  destruct (run_calls_frozen (QueueManager_enter self env) body)
    as (Hprev & Hfrozen & Htoken & Hnum).
  fold inside in Hprev, Hfrozen, Htoken, Hnum. simpl in Hprev, Hfrozen, Htoken, Hnum.
  split.
  - subst outcome. unfold QueueManager_exit.
    pose proof (QueueManager_Flush_result SessionQueue ClientQueue inside env' counters)
      as Hresult.
    destruct (QueueManager_Flush _ _ _ _ _) as [[flushed c'] ws]. simpl in Hresult.
    destruct flushed as [flushed|e]; [|destruct Hresult as (_ & Hzero & _); lia].
    destruct Hresult as [_ ->]. simpl.
    unfold UnfreezeTimestamp, flushed_manager. simpl.
    rewrite Hprev, reverse_app. simpl.
    rewrite reverse_involutive, Htoken, Hnum. unfold set_frozen. simpl.
    clear Hprev Hfrozen Htoken Hnum. clearbody inside.
    destruct self. simpl in *. by subst.
  - set (A := λ ts : option Z,
               ts = Some (Now env) ∨ (ts ≠ None ∧ ts ∈ call_timestamp <$> body)).
    assert (Hstamped : buffers_stamped A inside).
    { unfold inside, run_calls.
      assert (∀ calls qm, (∀ c, c ∈ calls → c ∈ body) →
                frozen_timestamp qm = Some (Now env) →
                buffers_stamped A qm → buffers_stamped A (foldl run_call qm calls))
        as Hfold.
      { induction calls as [|c calls IH]; intros qm Hin Hfr Hqm; [done|]. simpl.
        apply IH.
        - intros c' Hc'. apply Hin. by right.
        - destruct (run_calls_frozen qm [c]) as (_ & Hfr' & _).
          unfold run_calls in Hfr'. simpl in Hfr'. by rewrite Hfr'.
        - apply run_call_stamped; [rewrite Hfr; by left| |done].
          intros t Ht. right. split; [done|]. rewrite <- Ht.
          apply list_elem_of_fmap_2, Hin. by left. }
      apply Hfold; [done|done|].
      unfold buffers_stamped, QueueManager_enter, FreezeTimestamp. simpl.
      rewrite E1, E2, E5, E6. split_and!; [constructor..|].
      intros k n Hk. by rewrite lookup_empty in Hk. }
    intros w ts Hw Hts.
    assert (Forall (λ w, Forall A (write_timestamps w)) outcome.2) as Hall.
    { subst outcome. unfold QueueManager_exit.
      pose proof (QueueManager_Flush_stamped A inside env' counters) as HF.
      destruct (QueueManager_Flush _ _ _ _ _) as [[flushed c'] ws]. simpl in *.
      assert (Forall (λ w, Forall A (write_timestamps w)) ws) as Hws.
      { apply HF; [|done]. intros ts' [->|[? _]]; done. }
      by destruct flushed. }
    rewrite Forall_forall in Hall. specialize (Hall w Hw).
    rewrite Forall_forall in Hall. by apply Hall.
Qed.

(** X14. The buffers are written once. A second [Flush] right after a [Flush]
    that returned writes no request, response, task or notification (only
    the empty [StoreRequestsAndResponses] that every flush sends), chooses no
    shard, and leaves the manager as the first flush left it. A [Flush] does
    not return only when it has a notification to place and the manager has
    no shard: it then raises [ZeroDivisionError]. *)
Theorem QueueManager_Flush_writes_once self env counters env' :
  match QueueManager_Flush SessionQueue ClientQueue self env counters with
  | (Ok flushed, counters', _) =>
      QueueManager_Flush SessionQueue ClientQueue flushed env' counters'
      = (Ok flushed, counters', [StoreRequestsAndResponses [] [] []])
  | (Raise e, _, _) =>
      e = ZeroDivisionError
      ∧ num_notification_shards self = 0 ∧ notifications self ≠ ∅
  end.
Proof.
  pose proof (QueueManager_Flush_result SessionQueue ClientQueue self env counters)
    as Hresult.
  destruct (QueueManager_Flush _ _ self _ _) as [[flushed c'] ws]. simpl in Hresult.
  destruct flushed as [flushed|e]; [|done].
  destruct Hresult as [_ ->].
  unfold QueueManager_Flush, flushed_manager. simpl.
  rewrite iteritems_nil. simpl.
  rewrite bool_decide_false by (intros H; by apply H). done.
Qed.

Lemma Schedule_keeps self env scheduled ts pool w :
  w ∈ pool → w ∈ Schedule self env scheduled ts pool.
Proof.
  unfold Schedule.
  generalize (iteritems (dict_order env) (GroupBy scheduled queue)). intros groups.
  revert pool. induction groups as [|[q queued] groups IH]; intros pool H; simpl; [done|].
  apply IH. case_bool_decide; [done|]. apply elem_of_app. by left.
Qed.

Lemma Delete_fold_writes (groups : list (string * list N)) pool :
  (∀ w, w ∈ pool →
     w ∈ foldl (λ pool '(client, messages), Delete (ClientQueue client) messages pool)
           pool groups)
  ∧ (∀ client ids, (client, ids) ∈ groups → ClientQueue client ≠ "" →
       DeleteAttributes (ClientQueue client) (_TaskIdToColumn <$> ids)
       ∈ foldl (λ pool '(client, messages), Delete (ClientQueue client) messages pool)
           pool groups).
Proof.
  revert pool. induction groups as [|[c ms] groups IH]; intros pool; simpl.
  { split; [done|]. intros client ids H. by apply elem_of_nil in H. }
  destruct (IH (Delete (ClientQueue c) ms pool)) as [IHkeep IHnew].
  split.
  - intros w Hw. apply IHkeep. unfold Delete. case_bool_decide; [done|].
    apply elem_of_app. by left.
  - intros client ids [[= -> ->]|Hin]%elem_of_cons Hq.
    + apply IHkeep. unfold Delete. rewrite bool_decide_false by done.
      apply elem_of_app. right. by left.
    + by apply IHnew.
Qed.

(** X15. Deleting a request that was sent to a client takes the task of the
    request off the queue of the client. [DeleteRequest] removes the request
    from the store at once; the next [Flush] tells the store that the request
    is deleted and deletes, from the task queue of the client, the column of
    the task id of the request. *)
Theorem DeleteRequest_dequeues_client_task self req client_request env counters :
  request req = Some client_request →
  client_id req ≠ "" → ClientQueue (client_id req) ≠ "" →
  let writes :=
    (QueueManager_Flush SessionQueue ClientQueue (DeleteRequest self req).1
       env counters).2 in
  (DeleteRequest self req).2 = req
  ∧ (∃ new_requests new_responses to_delete,
       StoreRequestsAndResponses new_requests new_responses to_delete ∈ writes
       ∧ req ∈ to_delete)
  ∧ (∃ columns,
       DeleteAttributes (ClientQueue (client_id req)) columns ∈ writes
       ∧ _TaskIdToColumn (request_task_id client_request) ∈ columns).
Proof.
  intros Hreq Hclient Hqueue writes. subst writes.
  unfold DeleteRequest. rewrite Hreq. simpl.
  unfold DeQueueClientRequest. rewrite bool_decide_false by done.
  set (qm := set_queues _ _ _ _ _ _).
  split_and!; [done|..].
  - destruct (QueueManager_Flush_writes SessionQueue ClientQueue qm env counters)
      as (tw & nw & -> & _).
    eexists _, _, _. split; [by left|]. simpl. apply elem_of_app. right. by left.
  - assert ((client_id req, request_task_id client_request)
            ∈ entries (client_messages_to_delete qm)) as Hentry.
    { simpl. rewrite setdefault_append_entries. apply elem_of_app. right. by left. }
    apply elem_of_entries in Hentry as (ids & Hgroup & Hid).
    exists (_TaskIdToColumn <$> ids). split; [|by apply list_elem_of_fmap_2].
    unfold QueueManager_Flush.
    apply (iteritems_elem_of (dict_order env)) in Hgroup.
    destruct (Delete_fold_writes
                (iteritems (dict_order env) (client_messages_to_delete qm)) [])
      as [_ Hdel].
    specialize (Hdel _ _ Hgroup Hqueue).
    set (deleted := foldl _ _ (iteritems _ (client_messages_to_delete qm))) in *.
    assert (Htasks : DeleteAttributes (ClientQueue (client_id req)) (_TaskIdToColumn <$> ids)
                     ∈ (if bool_decide (new_client_messages qm ≠ [])
                        then foldl (λ pool '(ts, messages),
                                      Schedule qm env (messages.*1) ts pool)
                               deleted
                               (iteritems (dict_order env)
                                  (GroupBy (new_client_messages qm) snd))
                        else deleted)).
    { case_bool_decide; [|done].
      generalize (iteritems (dict_order env) (GroupBy (new_client_messages qm) snd)).
      revert Hdel. generalize deleted. intros pool Hpool l. revert pool Hpool.
      induction l as [|[ts ms] l IH]; intros pool Hpool; simpl; [done|].
      apply IH. by apply Schedule_keeps. }
    destruct (if bool_decide (notifications qm ≠ ∅) then _ else _) as [[nw|e] c'].
    + simpl. right. apply elem_of_app. by left.
    + simpl. right. exact Htasks.
Qed.

End MoreBufferProperties.

Section MoreFetchProperties.
Context {Payload : Type}.
Context (DB_ReadCompletedRequests :
           string → Z * Z → list (RequestState * GrrMessage Payload)).
Context (DB_ReadResponses :
           list RequestState → list (RequestState * list (GrrMessage Payload))).

Implicit Types (self : QueueManager Payload) (env : Env).
Implicit Types (completed : list (RequestState * GrrMessage Payload)).
Implicit Types (yielded read : list (RequestState * list (GrrMessage Payload))).

Lemma responses_count_app yielded read :
  responses_count (yielded ++ read) = responses_count yielded + responses_count read.
Proof. induction yielded as [|y l IH]; simpl; [done|]. rewrite IH. lia. Qed.

Lemma responses_count_nonneg yielded : 0 <= responses_count yielded.
Proof. induction yielded as [|y l IH]; simpl; lia. Qed.

Lemma collect_request_list_spec limit projected completed :
  completed ≠ [] →
  (collect_request_list limit projected completed).1 ≠ []
  ∧ completed.*1
    = (collect_request_list limit projected completed).1
      ++ (collect_request_list limit projected completed).2.*1
  ∧ (length (collect_request_list limit projected completed).2 < length completed)%nat.
Proof.
  revert projected. induction completed as [|[req st] completed IH]; intros projected Hne;
    [done|].
  simpl. destruct (limit <? projected + response_id st); simpl.
  { split_and!; [done|done|lia]. }
  destruct completed as [|c completed].
  { simpl. split_and!; [done|done|lia]. }
  destruct (IH (projected + response_id st) ltac:(done)) as (_ & Heq & Hlen).
  destruct (collect_request_list limit (projected + response_id st) (c :: completed))
    as [request_list rest].
  simpl in *. split_and!; [done|by rewrite Heq|lia].
Qed.

Lemma yield_responses_spec limit total read :
  total <= limit →
  let '(yielded, total', raised) := yield_responses limit total read in
  yielded `prefix_of` read
  ∧ total' = total + responses_count yielded
  ∧ if raised
    then ∃ before last_yield, yielded = before ++ [last_yield]
           ∧ total + responses_count before <= limit < total'
    else yielded = read ∧ total' <= limit.
Proof.
  revert total. induction read as [|[req responses] read IH]; intros total Htotal; simpl.
  { split_and!; [done|lia|done|lia]. }
  destruct (Z.ltb_spec limit (total + Z.of_nat (length responses))).
  { split_and!.
    - by exists read.
    - simpl. lia.
    - exists [], (req, responses). simpl. split; [done|lia]. }
  specialize (IH (total + Z.of_nat (length responses)) ltac:(lia)).
  destruct (yield_responses limit (total + Z.of_nat (length responses)) read)
    as [[yielded total'] raised].
  destruct IH as (Hprefix & -> & Hraised). split_and!.
  - by apply prefix_cons.
  - simpl. lia.
  - destruct raised.
    + destruct Hraised as (before & last_yield & -> & Hbounds).
      exists ((req, responses) :: before), last_yield. split; [done|]. simpl. lia.
    + destruct Hraised as [-> Hle]. split; [done|lia].
Qed.

Lemma fetch_rounds_spec rounds limit total completed :
  (length completed <= rounds)%nat → total <= limit →
  let '(yielded, e) :=
    fetch_rounds DB_ReadResponses rounds limit total completed in
  ∃ batches rest,
    completed.*1 = concat batches ++ rest
    ∧ Forall (λ batch, batch ≠ []) batches
    ∧ yielded `prefix_of` (batches ≫= DB_ReadResponses)
    ∧ match e with
      | None => rest = [] ∧ yielded = batches ≫= DB_ReadResponses
                ∧ total + responses_count yielded <= limit
      | Some e =>
          e = MoreDataException
          ∧ ∃ before last_yield, yielded = before ++ [last_yield]
              ∧ total + responses_count before <= limit
                < total + responses_count yielded
      end.
Proof.
  revert total completed. induction rounds as [|rounds IH]; intros total completed Hlen Htotal.
  { destruct completed; [|simpl in Hlen; lia]. simpl.
    exists [], []. split_and!; [done|done|done|done|done|simpl; lia]. }
  destruct completed as [|c completed].
  { simpl. exists [], []. split_and!; [done|done|done|done|done|simpl; lia]. }
  cbn [fetch_rounds].
  destruct (collect_request_list_spec limit total (c :: completed) ltac:(done))
    as (Hne & Heq & Hshorter).
  destruct (collect_request_list limit total (c :: completed)) as [request_list rest].
  cbn [fst snd] in Hne, Heq, Hshorter.
  pose proof (yield_responses_spec limit total (DB_ReadResponses request_list) Htotal)
    as Hyield.
  destruct (yield_responses limit total (DB_ReadResponses request_list))
    as [[yielded total'] raised].
  destruct Hyield as (Hprefix & -> & Hraised).
  destruct raised.
  - destruct Hraised as (before & last_yield & -> & Hbounds).
    exists [request_list], (rest.*1). refine (conj _ (conj _ (conj _ _))).
    + rewrite Heq. simpl. by rewrite app_nil_r.
    + by constructor.
    + rewrite bind_cons. simpl. by rewrite app_nil_r.
    + split; [done|]. by exists before, last_yield.
  - destruct Hraised as [-> Hle].
    specialize (IH (total + responses_count (DB_ReadResponses request_list)) rest
                  ltac:(simpl in *; lia) Hle).
    destruct (fetch_rounds DB_ReadResponses rounds limit _ rest) as [more e].
    destruct IH as (batches & rest' & Hcompleted & Hbatches & Hmore & He).
    exists (request_list :: batches), rest'. refine (conj _ (conj _ (conj _ _))).
    + rewrite Heq, Hcompleted. simpl. by rewrite app_assoc.
    + by constructor.
    + rewrite bind_cons. by apply prefix_app.
    + destruct e as [e|].
      * destruct He as (-> & before & last_yield & -> & Hbounds). split; [done|].
        exists (DB_ReadResponses request_list ++ before), last_yield.
        split; [by rewrite app_assoc|].
        rewrite !responses_count_app in *. lia.
      * destruct He as (-> & -> & Hle'). split_and!; [done|by rewrite bind_cons|].
        rewrite responses_count_app. lia.
Qed.

(** X16. [FetchCompletedResponses] reads the responses of the completed requests
    in batches of requests. With a limit that is not negative, the batches are
    not empty and cover the completed requests in their order, each request in
    one batch; what the generator yields is what the store returns for the
    batches, one after the other, up to the point where the iteration ends;
    and when it ends without raising, every completed request was read. *)
Theorem FetchCompletedResponses_reads_in_batches self env session ts limit :
  0 <= limit →
  let completed :=
    FetchCompletedRequests DB_ReadCompletedRequests self env session ts in
  let outcome :=
    FetchCompletedResponses DB_ReadCompletedRequests DB_ReadResponses
      self env session ts limit in
  ∃ batches unread,
    completed.*1 = concat batches ++ unread
    ∧ Forall (λ batch, batch ≠ []) batches
    ∧ outcome.1 `prefix_of` (batches ≫= DB_ReadResponses)
    ∧ (outcome.2 = None →
       unread = [] ∧ outcome.1 = batches ≫= DB_ReadResponses).
Proof.
  intros Hlimit completed outcome. subst outcome. unfold FetchCompletedResponses.
  assert (FetchCompletedRequests DB_ReadCompletedRequests self env session
            (Some (default (0, frozen_timestamp_or_Now self env) ts)) = completed) as ->.
  { by destruct ts. }
  pose proof (fetch_rounds_spec (length completed) limit 0 completed
                ltac:(done) Hlimit) as Hspec.
  destruct (fetch_rounds DB_ReadResponses (length completed) limit 0 completed)
    as [yielded e].
  destruct Hspec as (batches & rest & Hcompleted & Hbatches & Hprefix & He).
  exists batches, rest. split_and!; [done..|].
  simpl. intros ->. by destruct He as (-> & -> & _).
Qed.

(** X17. [FetchCompletedResponses] stops right after the yield that takes the
    number of responses above the limit. With a limit that is not negative,
    the iteration ends without raising only if the responses it has yielded
    are no more than the limit; otherwise it raises [MoreDataException], after
    a yield before which the responses yielded were no more than the limit
    and with which they are more. *)
Theorem FetchCompletedResponses_stops_above_limit self env session ts limit :
  0 <= limit →
  let outcome :=
    FetchCompletedResponses DB_ReadCompletedRequests DB_ReadResponses
      self env session ts limit in
  match outcome.2 with
  | None => responses_count outcome.1 <= limit
  | Some e =>
      e = MoreDataException
      ∧ ∃ before last_yield, outcome.1 = before ++ [last_yield]
          ∧ responses_count before <= limit < responses_count outcome.1
  end.
Proof.
  intros Hlimit outcome. subst outcome. unfold FetchCompletedResponses.
  set (completed := FetchCompletedRequests _ _ _ _ _).
  pose proof (fetch_rounds_spec (length completed) limit 0 completed
                ltac:(done) Hlimit) as Hspec.
  destruct (fetch_rounds DB_ReadResponses (length completed) limit 0 completed)
    as [yielded e].
  destruct Hspec as (batches & rest & _ & _ & _ & He). simpl.
  destruct e as [e|].
  - destruct He as (-> & before & last_yield & -> & Hbounds). split; [done|].
    exists before, last_yield. split; [done|lia].
  - destruct He as (_ & _ & Hle). lia.
Qed.

End MoreFetchProperties.

Section MoreClientIdProperties.

Lemma ascii_lower_idemp c : ascii_lower (ascii_lower c) = ascii_lower c.
Proof. destruct c as [[] [] [] [] [] [] [] []]; reflexivity. Qed.

Lemma lower_idemp s : lower (lower s) = lower s.
Proof. induction s as [|c s IH]; simpl; [done|]. by rewrite ascii_lower_idemp, IH. Qed.

Lemma string_prefix_cons x s1 y s2 :
  String.prefix (String x s1) (String y s2)
  = if ascii_dec x y then String.prefix s1 s2 else false.
Proof. done. Qed.

Lemma lower_fmap_idemp (l : list string) : lower <$> (lower <$> l) = lower <$> l.
Proof.
  rewrite <- list_fmap_compose. apply Forall_fmap_ext_1, Forall_forall.
  intros s _. apply lower_idemp.
Qed.

(** X18. [_GetClientIdFromQueue] does not look at the case of the letters, and the
    client id it returns is in one form: a capital [C] followed by lower-case
    letters, for which the function returns the id itself. It returns an id
    only for a URN of two components, the second of which is [tasks] and the
    first of which begins with [c.], in any case; for a URN of more than two
    components it raises [ValueError] instead of returning [None]. *)
Theorem GetClientIdFromQueue_gives_canonical_id (split : list string) :
  _GetClientIdFromQueue (lower <$> split) = _GetClientIdFromQueue split
  ∧ match _GetClientIdFromQueue split with
    | Ok (Some client) =>
        (∃ a b, split = [a; b] ∧ lower b = "tasks"
                ∧ String.prefix "c." (lower a) = true
                ∧ client = "C" +:+ string_tail (lower a))
        ∧ _GetClientIdFromQueue [client; "tasks"] = Ok (Some client)
    | Ok None =>
        (length split < 2)%nat
        ∨ ∃ a b, split = [a; b]
                 ∧ (String.prefix "c." (lower a) = false ∨ lower b ≠ "tasks")
    | Raise e =>
        (2 < length split)%nat ∧ e = ValueError "too many values to unpack"
    end.
Proof.
  split.
  { unfold _GetClientIdFromQueue. by rewrite lower_fmap_idemp, length_fmap. }
  unfold _GetClientIdFromQueue.
  destruct split as [|a [|b [|c rest]]]; simpl; [left; lia|left; lia| |split; [lia|done]].
  destruct (String.prefix "c." (lower a)) eqn:Hprefix; simpl.
  2:{ right. exists a, b. split; [done|]. by left. }
  case_bool_decide as Htasks; simpl.
  2:{ right. exists a, b. split; [done|]. by right. }
  split.
  { exists a, b. done. }
  destruct (lower a) as [|c1 tail] eqn:Hlower; [done|]. simpl.
  assert (c1 = "c"%char) as ->.
  { rewrite string_prefix_cons in Hprefix. by destruct (ascii_dec "c" c1). }
  assert (lower tail = tail) as Htail.
  { pose proof (lower_idemp a) as Hidemp. rewrite Hlower in Hidemp. simpl in Hidemp.
    by injection Hidemp. }
  rewrite string_prefix_cons in Hprefix.
  destruct (ascii_dec "c" "c") as [_|?]; [|done].
  rewrite !append_cons. simpl. change ("" +:+ tail) with tail.
  by rewrite Htail, Hprefix.
Qed.

End MoreClientIdProperties.

(** * Further properties of the flows *)

Section MoreBehaviourProperties.
Context (LEXICON : gset string).

Implicit Types (self other_behaviours : Behaviour) (other : string).

Lemma Behaviour_init_loop_spec (arguments : list string) (behaviours : gset string) :
  match Behaviour_init_loop LEXICON arguments behaviours with
  | Ok b => Forall (λ arg, arg ∈ LEXICON) arguments
            ∧ b = behaviours ∪ list_to_set arguments
  | Raise e => ∃ arg, arg ∈ arguments ∧ (arg ∉ LEXICON)
                 ∧ e = ValueError ("Behaviour " +:+ arg +:+ " not known.")
  end.
Proof.
  revert behaviours. induction arguments as [|arg arguments IH]; intros behaviours; simpl.
  { split; [done|]. by rewrite union_empty_r_L. }
  case_bool_decide as Harg.
  - specialize (IH (behaviours ∪ {[arg]})).
    destruct (Behaviour_init_loop LEXICON arguments (behaviours ∪ {[arg]})) as [b|e].
    + destruct IH as [Hall ->]. split; [by constructor|]. simpl. by rewrite (assoc_L (∪)).
    + destruct IH as (arg' & Hin & Hnot & ->). exists arg'.
      split; [by apply elem_of_cons; right|]. by split.
  - exists arg. split; [by apply elem_of_cons; left|]. by split.
Qed.

(** X19. A [Behaviour] holds behaviours of the lexicon only. The constructor
    returns an object exactly when every argument is a key of [LEXICON], and
    the object then holds the arguments as a set; otherwise it raises
    [ValueError] for an argument that is not a key. *)
Theorem Behaviour_init_accepts_the_lexicon (arguments : list string) :
  match Behaviour_init LEXICON arguments with
  | Ok b => Forall (λ arg, arg ∈ LEXICON) arguments
            ∧ b = list_to_set arguments ∧ b ⊆ LEXICON
  | Raise e => ∃ arg, arg ∈ arguments ∧ (arg ∉ LEXICON)
                 ∧ e = ValueError ("Behaviour " +:+ arg +:+ " not known.")
  end.
Proof.
  unfold Behaviour_init.
  pose proof (Behaviour_init_loop_spec arguments ∅) as Hspec.
  destruct (Behaviour_init_loop LEXICON arguments ∅) as [b|e]; [|done].
  destruct Hspec as [Hall ->]. rewrite union_empty_l_L. split_and!; [done..|].
  intros arg Harg%elem_of_list_to_set. rewrite Forall_forall in Hall. by apply Hall.
Qed.

Lemma Behaviour_init_elements (behaviours : gset string) :
  behaviours ⊆ LEXICON → Behaviour_init LEXICON (elements behaviours) = Ok behaviours.
Proof.
  intros Hsub. unfold Behaviour_init.
  pose proof (Behaviour_init_loop_spec (elements behaviours) ∅) as Hspec.
  destruct (Behaviour_init_loop LEXICON (elements behaviours) ∅) as [b|e].
  - destruct Hspec as [_ ->]. by rewrite union_empty_l_L, list_to_set_elements_L.
  - destruct Hspec as (arg & Hin & Hnot & _). exfalso. apply Hnot, Hsub.
    by apply elem_of_elements.
Qed.

(** X20. Adding and removing behaviours. On an object that holds behaviours of the
    lexicon only (as every constructed object does), removing a behaviour
    never raises, also for a behaviour that is unknown or not held; adding a
    behaviour raises [ValueError] exactly when it is not a key of [LEXICON];
    both results hold behaviours of the lexicon only. Removing a behaviour
    after adding it gives what removing it gives, and an object supports the
    object that a removal leaves and is supported by the one that an addition
    gives. *)
Theorem Behaviour_add_and_sub self other :
  self ⊆ LEXICON →
  Behaviour_sub LEXICON self other = Ok (self ∖ {[ other ]})
  ∧ Behaviour_add LEXICON self other
    = (if bool_decide (other ∈ LEXICON) then Ok ({[ other ]} ∪ self)
       else Raise (ValueError ("Behaviour " +:+ other +:+ " not known.")))
  ∧ self ∖ {[ other ]} ⊆ LEXICON
  ∧ (other ∈ LEXICON → {[ other ]} ∪ self ⊆ LEXICON)
  ∧ Behaviour_sub LEXICON ({[ other ]} ∪ self) other = Ok (self ∖ {[ other ]})
  ∧ IsSupported (self ∖ {[ other ]}) self = true
  ∧ IsSupported self ({[ other ]} ∪ self) = true.
Proof.
  intros Hsub.
  assert (Hminus : self ∖ {[other]} ⊆ LEXICON).
  { intros x [Hx _]%elem_of_difference. by apply Hsub. }
  assert (Hplus : other ∈ LEXICON → {[other]} ∪ self ⊆ LEXICON).
  { intros Hother x [->%elem_of_singleton|Hx]%elem_of_union; [done|by apply Hsub]. }
  split_and!; [| |done|done| | |].
  - unfold Behaviour_sub. by apply Behaviour_init_elements.
  - unfold Behaviour_add. case_bool_decide as Hother; [|done].
    unfold Behaviour_init. simpl. rewrite bool_decide_true by done.
    pose proof (Behaviour_init_loop_spec (elements self) (∅ ∪ {[other]})) as Hspec.
    destruct (Behaviour_init_loop LEXICON (elements self) (∅ ∪ {[other]})) as [b|e].
    + destruct Hspec as [_ ->]. by rewrite union_empty_l_L, list_to_set_elements_L.
    + destruct Hspec as (arg & Hin & Hnot & _). exfalso. apply Hnot, Hsub.
      by apply elem_of_elements.
  - unfold Behaviour_sub.
    assert (({[other]} ∪ self) ∖ {[other]} = self ∖ {[other]}) as ->.
    { apply set_eq. intros x.
      rewrite !elem_of_difference, elem_of_union, elem_of_singleton. tauto. }
    by apply Behaviour_init_elements.
  - unfold IsSupported. apply bool_decide_eq_true.
    intros x [Hx _]%elem_of_difference. done.
  - unfold IsSupported. apply bool_decide_eq_true.
    intros x Hx. apply elem_of_union. by right.
Qed.

End MoreBehaviourProperties.

Section MoreArgumentProperties.
Context {Value : Type}.

(** X21. [FilterArgsFromSemanticProtobuf] takes from the keyword arguments exactly
    those that name a field of the protobuf: afterwards the keyword arguments
    are the ones given under other names, unchanged (they are what [StartFlow]
    reports as unknown), and each field holds the value given for it, if one
    was given and is not [None], and else the value it held. *)
Theorem FilterArgsFromSemanticProtobuf_takes_the_fields
    (type_infos : list string) (protobuf : gmap string Value)
    (kwargs : gmap string (option Value)) :
  let '(protobuf', kwargs') :=
    FilterArgsFromSemanticProtobuf type_infos protobuf kwargs in
  ∀ field_name,
    kwargs' !! field_name
    = (if bool_decide (field_name ∈ type_infos) then None else kwargs !! field_name)
    ∧ protobuf' !! field_name
      = match kwargs !! field_name with
        | Some (Some v) =>
            if bool_decide (field_name ∈ type_infos) then Some v
            else protobuf !! field_name
        | _ => protobuf !! field_name
        end.
Proof.
  unfold FilterArgsFromSemanticProtobuf.
  revert protobuf kwargs. induction type_infos as [|d type_infos IH];
    intros protobuf kwargs; simpl.
  { intros k. split; [done|]. by repeat case_match. }
  set (p1 := match default None (kwargs !! d) with
             | Some v => (<[d:=v]> protobuf, delete d kwargs)
             | None => (protobuf, delete d kwargs)
             end).
  assert (p1 = (match kwargs !! d with
                | Some (Some v) => <[d:=v]> protobuf
                | _ => protobuf
                end, delete d kwargs)) as ->.
  { subst p1. by destruct (kwargs !! d) as [[v|]|]. }
  specialize (IH (match kwargs !! d with
                  | Some (Some v) => <[d:=v]> protobuf
                  | _ => protobuf
                  end) (delete d kwargs)).
  destruct (foldl _ _ type_infos) as [protobuf' kwargs'].
  intros k. destruct (IH k) as [-> ->].
  destruct (decide (k = d)) as [->|Hne].
  - rewrite lookup_delete_eq. rewrite (bool_decide_true (d ∈ d :: type_infos)) by by left.
    split; [by case_bool_decide|].
    destruct (kwargs !! d) as [[v|]|]; by rewrite ?lookup_insert_eq.
  - rewrite lookup_delete_ne by done.
    assert (bool_decide (k ∈ d :: type_infos) = bool_decide (k ∈ type_infos)) as ->.
    { apply bool_decide_ext. rewrite elem_of_cons. tauto. }
    split; [done|].
    assert (match kwargs !! d with
            | Some (Some v) => <[d:=v]> protobuf
            | _ => protobuf
            end !! k = protobuf !! k) as ->; [|done].
    destruct (kwargs !! d) as [[v|]|]; by rewrite ?lookup_insert_ne.
Qed.

End MoreArgumentProperties.

Section MoreCollatorProperties.
Context {Payload : Type}.
Context (MakeGrrStatus : Payload → GrrStatus).

Implicit Types (m : GrrMessage Payload) (l msgs : list (GrrMessage Payload)).
Implicit Types (self : Responses Payload).

Lemma StronglySorted_sublist {A} (R : relation A) (l1 l2 : list A) :
  l1 `sublist_of` l2 → StronglySorted R l2 → StronglySorted R l1.
Proof.
  induction 1 as [|x l1 l2 Hsub IH|x l1 l2 Hsub IH]; intros Hsorted; [done|..].
  - apply StronglySorted_inv in Hsorted as [Hl2 Hx]. constructor; [by apply IH|].
    apply Forall_forall. intros y Hy. rewrite Forall_forall in Hx. apply Hx.
    by eapply elem_of_sublist.
  - apply StronglySorted_inv in Hsorted as [Hl2 _]. by apply IH.
Qed.

Lemma filter_responses_kept msgs self :
  ∃ kept, _responses (filter_responses MakeGrrStatus msgs self) = _responses self ++ kept
          ∧ kept `sublist_of` msgs
          ∧ Forall (λ m, is_dropped (_auth_required self) m = false ∧ type m = MESSAGE) kept.
Proof.
  revert self. induction msgs as [|m msgs IH]; intros self; simpl.
  { exists []. by rewrite app_nil_r. }
  destruct (is_dropped (_auth_required self) m) eqn:Hdropped.
  { destruct (IH {| status := status self; success := success self;
             rs_request := rs_request self; _auth_required := _auth_required self;
             _responses := _responses self;
             _dropped_responses := _dropped_responses self ++ [m];
             iterator := iterator self |}) as (kept & -> & Hsub & Hkept).
    exists kept. split_and!; [done|by apply sublist_cons|done]. }
  case_bool_decide as Hiterator.
  { destruct (IH {| status := status self; success := success self;
             rs_request := rs_request self; _auth_required := _auth_required self;
             _responses := _responses self;
             _dropped_responses := _dropped_responses self;
             iterator := Some (payload m) |}) as (kept & -> & Hsub & Hkept).
    exists kept. split_and!; [done|by apply sublist_cons|done]. }
  case_bool_decide as Hstatus.
  { exists []. simpl. rewrite app_nil_r. split_and!; [done|apply sublist_nil_l|done]. }
  destruct (IH {| status := status self; success := success self;
             rs_request := rs_request self; _auth_required := _auth_required self;
             _responses := _responses self ++ [m];
             _dropped_responses := _dropped_responses self;
             iterator := iterator self |}) as (kept & -> & Hsub & Hkept).
  exists (m :: kept). simpl. rewrite <- app_assoc.
  split_and!; [done|by apply sublist_skip|].
  constructor; [|done]. split; [done|]. by destruct (type m).
Qed.

Lemma Responses_init_sorted req responses auth_required self :
  Responses_init MakeGrrStatus req responses auth_required = Ok self →
  StronglySorted (λ m1 m2, response_id m1 <= response_id m2) (_responses self).
Proof.
  unfold Responses_init. intros H.
  destruct responses as [[|m l]|]; try (injection H as <-; constructor).
  pose proof (sort_by_response_id_sorted (m :: l)) as Hsorted.
  set (sorted := sort_by_response_id (m :: l)) in *. clearbody sorted.
  destruct (status _) eqn:Hs in H; [|done]. injection H as <-.
  destruct (filter_responses_kept sorted
              {| status := None; success := true; rs_request := req;
                 _auth_required := auth_required; _responses := [];
                 _dropped_responses := []; iterator := None |}) as (kept & -> & Hsub & _).
  simpl. by eapply StronglySorted_sublist.
Qed.

(** X22. [First] returns the payload of the record of lowest response id that the
    constructor kept, or [None] when it kept none. It leaves the iteration
    after the first record: when the request lets that record through the
    type verification, [First] returns its payload whatever the records after
    it are, also those for which the iteration would raise. *)
Theorem Responses_First_returns_lowest_response_id
    (action_registry : ActionRegistry) (req : RequestState)
    (responses : option (list (GrrMessage Payload))) (auth_required : bool) self :
  Responses_init MakeGrrStatus (Some req) responses auth_required = Ok self →
  type_check_passes action_registry (Some req) (take 1 (_responses self)) →
  Responses_First action_registry self = Ok (payload <$> head (_responses self))
  ∧ (∀ m m', head (_responses self) = Some m → m' ∈ _responses self →
       response_id m <= response_id m')
  ∧ Responses_nonzero self = bool_decide (head (_responses self) ≠ None).
Proof.
  intros Hinit Hcheck.
  pose proof (Responses_init_sorted _ _ _ _ Hinit) as Hsorted.
  apply Responses_init_messages in Hinit as [Hty Hreq].
  destruct Hcheck as (r & [= <-] & Hcheck).
  split_and!.
  - unfold Responses_First, Responses_iter. rewrite Hreq.
    destruct (_responses self) as [|m rest] eqn:Hkept; simpl in *.
    { destruct Hcheck as [->|(cr & classes & -> & -> & _)]; done. }
    apply Forall_cons_1 in Hty as [Hm _].
    destruct Hcheck as [->|(cr & classes & -> & -> & Hclasses & Hm')].
    + simpl. rewrite bool_decide_true by done.
      by destruct (iter_responses false [] (Some (response_id m)) rest).
    + simpl. rewrite bool_decide_true by done.
      rewrite Forall_singleton in Hm'. destruct Hm' as [Hname Hin].
      destruct classes as [|c classes]; [done|].
      rewrite bool_decide_false by done. rewrite bool_decide_true by done.
      by destruct (iter_responses true (c :: classes) (Some (response_id m)) rest).
  - intros m m' Hhead Hm'. destruct (_responses self) as [|m0 rest]; [done|].
    injection Hhead as ->. apply StronglySorted_inv in Hsorted as [_ Hall].
    apply elem_of_cons in Hm' as [->|Hm']; [lia|].
    rewrite Forall_forall in Hall. by apply Hall.
  - unfold Responses_nonzero. by destruct (_responses self).
Qed.

Lemma Responses_init_kept req l auth_required self :
  Responses_init MakeGrrStatus req (Some l) auth_required = Ok self →
  Forall (λ m, m ∈ l ∧ is_dropped auth_required m = false ∧ type m = MESSAGE)
    (_responses self).
Proof.
  unfold Responses_init. intros H.
  destruct l as [|m0 l]; [injection H as <-; constructor|].
  pose proof (sort_by_response_id_perm (m0 :: l)) as Hperm.
  set (sorted := sort_by_response_id (m0 :: l)) in *. clearbody sorted.
  destruct (status _) eqn:Hs in H; [|done]. injection H as <-.
  destruct (filter_responses_kept sorted
              {| status := None; success := true; rs_request := req;
                 _auth_required := auth_required; _responses := [];
                 _dropped_responses := []; iterator := None |})
    as (kept & -> & Hsub & Hkept).
  simpl in *. apply Forall_forall. intros m Hm.
  rewrite Forall_forall in Hkept. destruct (Hkept m Hm) as [Hauth Hty].
  split_and!; [|done..]. rewrite <- Hperm. by eapply elem_of_sublist.
Qed.

Lemma iter_responses_origin c classes old msgs y :
  y ∈ (iter_responses c classes old msgs).1 → ∃ m, m ∈ msgs ∧ payload m = y.
Proof.
  revert old. induction msgs as [|m msgs IH]; intros old; simpl.
  { intros Hy. by apply elem_of_nil in Hy. }
  assert (Hrest : ∀ old', y ∈ (iter_responses c classes old' msgs).1 →
                    ∃ m', m' ∈ m :: msgs ∧ payload m' = y).
  { intros old' Hy. destruct (IH old' Hy) as (m' & Hm' & Hp). exists m'.
    split; [by right|done]. }
  case_bool_decide; [apply Hrest|].
  case_bool_decide; [|apply Hrest].
  destruct (verify_response c classes m); simpl.
  { intros Hy. by apply elem_of_nil in Hy. }
  specialize (Hrest (Some (response_id m))).
  destruct (iter_responses c classes (Some (response_id m)) msgs) as [ys e]. simpl in *.
  intros [->|Hy]%elem_of_cons; [|by apply Hrest].
  exists m. split; [by left|done].
Qed.

(** X23. The iteration yields only what passed the authentication check. Every
    payload that a constructed collator yields is the payload of a message
    record of the list it was built from, and that record is not
    desynchronized and, when the state method requires authentication, is
    authenticated; the same holds of every record that the collator counts
    in its length. *)
Theorem Responses_yield_only_checked_records
    (action_registry : ActionRegistry) (req : option RequestState)
    (auth_required : bool) l self :
  Responses_init MakeGrrStatus req (Some l) auth_required = Ok self →
  ∀ y, y ∈ (Responses_iter action_registry self).1 →
    ∃ m, m ∈ l ∧ payload m = y ∧ type m = MESSAGE
         ∧ auth_state m ≠ DESYNCHRONIZED
         ∧ (auth_required = true → auth_state m = AUTHENTICATED).
Proof.
  intros Hinit y Hy.
  pose proof (Responses_init_kept _ _ _ _ Hinit) as Hkept.
  rewrite Forall_forall in Hkept.
  assert (∃ m, m ∈ _responses self ∧ payload m = y) as (m & Hm & Hp).
  { unfold Responses_iter in Hy.
    destruct (rs_request self) as [r|]; [|by apply elem_of_nil in Hy].
    destruct (request r) as [cr|]; [|by eapply iter_responses_origin].
    destruct (action_registry !! name cr); [|by apply elem_of_nil in Hy].
    by eapply iter_responses_origin. }
  destruct (Hkept m Hm) as (Hl & Hdropped & Hty).
  exists m. split_and!; [done..| |].
  - intros Hd. unfold is_dropped in Hdropped. rewrite Hd in Hdropped.
    by rewrite bool_decide_true in Hdropped.
  - intros ->. unfold is_dropped in Hdropped.
    destruct (decide (auth_state m = AUTHENTICATED)) as [|Hne]; [done|].
    rewrite (bool_decide_false (auth_state m = AUTHENTICATED)) in Hdropped by done.
    simpl in Hdropped. by rewrite orb_true_r in Hdropped.
Qed.

Lemma filter_responses_iterator pre st post self :
  Forall (λ m, is_dropped (_auth_required self) m = false) (pre ++ [st]) →
  Forall (λ m, type m ≠ STATUS) pre →
  type st = STATUS →
  iterator (filter_responses MakeGrrStatus (pre ++ st :: post) self)
  = match last (filter (λ m, type m = ITERATOR) pre) with
    | Some m => Some (payload m)
    | None => iterator self
    end.
Proof.
  revert self. induction pre as [|m pre IH]; intros self Hauth Hpre Hst; simpl.
  - simpl in Hauth. rewrite Forall_singleton in Hauth. rewrite Hauth.
    rewrite bool_decide_false by congruence.
    by rewrite bool_decide_true by done.
  - simpl in Hauth. apply Forall_cons_1 in Hauth as [Hm Hauth].
    apply Forall_cons_1 in Hpre as [Hty Hpre].
    rewrite Hm. destruct (decide (type m = ITERATOR)) as [Hit|Hit].
    + rewrite (bool_decide_true _ Hit).
      rewrite filter_cons_True by done.
      rewrite (IH {| status := status self; success := success self;
             rs_request := rs_request self; _auth_required := _auth_required self;
             _responses := _responses self;
             _dropped_responses := _dropped_responses self;
             iterator := Some (payload m) |} Hauth Hpre Hst). simpl.
      rewrite last_cons. by destruct (last _).
    + rewrite (bool_decide_false _ Hit), (bool_decide_false _ Hty).
      rewrite filter_cons_False by done.
      by rewrite (IH {| status := status self; success := success self;
             rs_request := rs_request self; _auth_required := _auth_required self;
             _responses := _responses self ++ [m];
             _dropped_responses := _dropped_responses self;
             iterator := iterator self |} Hauth Hpre Hst).
Qed.

(** X24. The collator keeps the last iterator. For a non-empty list of
    authenticated responses that holds a status record, the [iterator] of the
    collator is the payload of the last iterator record before the first
    status record, in response-id order, and [None] when there is none; an
    iterator record after the status record is not looked at. *)
Theorem Responses_keep_last_iterator
    (req : option RequestState) (auth_required : bool) l :
  l ≠ [] →
  Forall (λ m, auth_state m = AUTHENTICATED) l →
  Exists (λ m, type m = STATUS) l →
  ∃ self pre st post,
    Responses_init MakeGrrStatus req (Some l) auth_required = Ok self
    ∧ first_status_at (sort_by_response_id l) pre st post
    ∧ iterator self = payload <$> last (filter (λ m, type m = ITERATOR) pre).
Proof.
  intros Hne Hauth Hex.
  pose proof (sort_by_response_id_perm l) as Hperm.
  rewrite <- Hperm in Hauth, Hex.
  destruct (Exists_first_split _ _ Hex) as (pre & st & post & Hsplit & Hst & Hpre).
  set (self0 := {| status := None; success := true; rs_request := req;
       _auth_required := auth_required; _responses := [];
       _dropped_responses := []; iterator := None |} : Responses Payload).
  assert (Hnd : Forall (λ m, is_dropped (_auth_required self0) m = false) (pre ++ [st])).
  { rewrite Hsplit in Hauth. apply Forall_app in Hauth as [Ha1 Ha2].
    apply Forall_cons_1 in Ha2 as [Ha2 _].
    apply Forall_app. split; [|apply Forall_singleton; by apply authenticated_not_dropped].
    eapply Forall_impl; [exact Ha1|]. intros; by apply authenticated_not_dropped. }
  destruct (filter_responses_split MakeGrrStatus pre st post self0 Hnd Hpre Hst)
    as (Hstatus & _ & _).
  pose proof (filter_responses_iterator pre st post self0 Hnd Hpre Hst) as Hiterator.
  rewrite <- Hsplit in Hstatus, Hiterator.
  exists (filter_responses MakeGrrStatus (sort_by_response_id l) self0), pre, st, post.
  split_and!; [|done|].
  - unfold Responses_init. destruct l as [|m l]; [done|].
    fold self0. by rewrite Hstatus.
  - rewrite Hiterator. simpl. by destruct (last _).
Qed.

End MoreCollatorProperties.

Section MoreDispatcherProperties.
Context {Payload : Type}.
Context (MakeGrrStatus : Payload → GrrStatus).
Context (Worker_queue_shards : Z).

Implicit Types (self : Flow Payload) (l : list (GrrMessage Payload)).

Lemma Responses_init_with_status (req : option RequestState) (auth_required : bool) l :
  l ≠ [] →
  Forall (λ m, auth_state m = AUTHENTICATED) l →
  Exists (λ m, type m = STATUS) l →
  ∃ r pre st post,
    Responses_init MakeGrrStatus req (Some l) auth_required = Ok r
    ∧ first_status_at (sort_by_response_id l) pre st post
    ∧ status r = Some (MakeGrrStatus (payload st))
    ∧ success r = bool_decide (status_code (MakeGrrStatus (payload st)) = OK).
Proof.
  intros Hne Hauth Hex.
  pose proof (sort_by_response_id_perm l) as Hperm.
  rewrite <- Hperm in Hauth, Hex.
  destruct (Exists_first_split _ _ Hex) as (pre & st & post & Hsplit & Hst & Hpre).
  set (self0 := {| status := None; success := true; rs_request := req;
       _auth_required := auth_required; _responses := [];
       _dropped_responses := []; iterator := None |} : Responses Payload).
  assert (Hnd : Forall (λ m, is_dropped (_auth_required self0) m = false) (pre ++ [st])).
  { rewrite Hsplit in Hauth. apply Forall_app in Hauth as [Ha1 Ha2].
    apply Forall_cons_1 in Ha2 as [Ha2 _].
    apply Forall_app. split; [|apply Forall_singleton; by apply authenticated_not_dropped].
    eapply Forall_impl; [exact Ha1|]. intros; by apply authenticated_not_dropped. }
  destruct (filter_responses_split MakeGrrStatus pre st post self0 Hnd Hpre Hst)
    as (Hstatus & Hsucc & _).
  rewrite <- Hsplit in Hstatus, Hsucc.
  exists (filter_responses MakeGrrStatus (sort_by_response_id l) self0), pre, st, post.
  split_and!; [|done..].
  unfold Responses_init. destruct l as [|m l]; [done|].
  fold self0. by rewrite Hstatus.
Qed.

(** X25. A state method runs after the bookkeeping, also for a request that
    failed. When no pending termination is seen (the flow is not open for
    reading, or the attribute is not set) and the responses are a list of
    authenticated records with a status record, the dispatcher builds the
    collator, records the resource usage of the first status record in
    response-id order, counts the state run (and the flow start, for the state
    [Start]), and then runs the state method on the collator and on the flow
    with its runner; it does so whether the status is [OK] or not, and the
    success flag of the collator tells the method which. *)
Theorem Decorated_runs_state_method_after_bookkeeping
    (auth_required : bool) (f_name : string) (f : StateMethod Payload) self
    (req : option RequestState) l :
  char_in "r" (mode self) = false ∨ PENDING_TERMINATION self = None →
  l ≠ [] →
  Forall (λ m, auth_state m = AUTHENTICATED) l →
  Exists (λ m, type m = STATUS) l →
  ∃ r pre st post,
    Responses_init MakeGrrStatus req (Some l) auth_required = Ok r
    ∧ first_status_at (sort_by_response_id l) pre st post
    ∧ success r = bool_decide (status_code (MakeGrrStatus (payload st)) = OK)
    ∧ Decorated MakeGrrStatus Worker_queue_shards auth_required f_name f self
        (ResponseList l) req None
      = ([SaveResourceUsage (MakeGrrStatus (payload st));
          IncrementCounter "grr_worker_states_run"]
         ++ (if bool_decide (f_name = "Start")
             then [IncrementCounter "flow_starts"] else [])
         ++ (f (GetRunner Worker_queue_shards self).1 r).1,
         match (f (GetRunner Worker_queue_shards self).1 r).2 with
         | Ok (self', result) => Ok (self', Some result)
         | Raise e => Raise e
         end).
Proof.
  intros Hpending Hne Hauth Hex.
  destruct (Responses_init_with_status req auth_required l Hne Hauth Hex)
    as (r & pre & st & post & Hinit & Hfirst & Hstatus & Hsuccess).
  exists r, pre, st, post. split_and!; [done..|].
  unfold Decorated.
  assert ((if char_in "r" (mode self) then PENDING_TERMINATION self else None) = None)
    as ->.
  { destruct Hpending as [-> | ->]; [done|]. by destruct (char_in "r" (mode self)). }
  destruct (GetRunner Worker_queue_shards self) as [self1 runner1]. cbn [fst].
  rewrite Hinit. unfold bind, ret, emit. simpl. rewrite Hstatus. simpl.
  destruct (f self1 r) as [trace [[self' result]|e]];
    destruct (bool_decide (f_name = "Start")); simpl; by rewrite ?app_nil_r.
Qed.

(** X26. A state method does not run on responses without a status. When no
    pending termination is seen and the responses are a non-empty list in
    which no record that passes the authentication check is a status record,
    the dispatcher raises [FlowError]: it records no resource usage, counts
    nothing and does not run the state method, whichever it is. *)
Theorem Decorated_without_status_does_not_run
    (auth_required : bool) (f_name : string) (f : StateMethod Payload) self
    (req : option RequestState) l :
  char_in "r" (mode self) = false ∨ PENDING_TERMINATION self = None →
  l ≠ [] →
  Forall (λ m, is_dropped auth_required m = false → type m ≠ STATUS) l →
  Decorated MakeGrrStatus Worker_queue_shards auth_required f_name f self
    (ResponseList l) req None
  = ([], Raise (FlowError "No valid Status message.")).
Proof.
  intros Hpending Hne Hall. unfold Decorated.
  assert ((if char_in "r" (mode self) then PENDING_TERMINATION self else None) = None)
    as ->.
  { destruct Hpending as [-> | ->]; [done|]. by destruct (char_in "r" (mode self)). }
  destruct (GetRunner Worker_queue_shards self) as [self1 runner1].
  assert (Responses_init MakeGrrStatus req (Some l) auth_required
          = Raise (FlowError "No valid Status message.")) as ->.
  { unfold Responses_init. destruct l as [|m l']; [done|].
    rewrite filter_responses_no_status; [done|]. simpl _auth_required.
    by rewrite sort_by_response_id_perm. }
  done.
Qed.

End MoreDispatcherProperties.

Section MoreCommitProperties.
Context {Payload : Type}.
Context (SessionQueue : string → string) (ClientQueue : string → string).
Context (Worker_queue_shards : Z).

Implicit Types (self : Flow Payload) (env : Env) (counters : gmap string Z).

(** X27. A flow without a context is not committed. For a flow of the ordinary
    class that is open for writing and holds an unexpired lease but has no
    context, [Flush] and [Close] run the [Save] hook and then raise [IOError],
    with the URN of the flow in its message: neither the state of the flow nor
    anything that its queue manager has buffered is written. *)
Theorem commit_without_context_writes_nothing env self counters :
  lease_expired self = false → flow_class self = GRRFlow →
  char_in "w" (mode self) = true → context self = None →
  Forall (λ commit : Env → Flow Payload → gmap string Z
                     → M Payload (Flow Payload * gmap string Z),
      commit env self counters
      = ([Hook "Save"],
         Raise (IOError ("Trying to write a flow without context: "
                         +:+ urn self +:+ "."))))
    [FlowBase_Flush SessionQueue ClientQueue Worker_queue_shards;
     FlowBase_Close SessionQueue ClientQueue Worker_queue_shards].
Proof.
  intros Hlease Hclass Hw Hcontext.
  repeat constructor;
    unfold FlowBase_Flush, FlowBase_Close, CheckLease, WriteState, _ValidateState, Save;
    by rewrite Hlease, Hw, Hclass, Hcontext.
Qed.

End MoreCommitProperties.

(** * The further properties on the worked examples *)

Lemma Query_returns_highest_priorities_example :
  0 <= 2
  ∧ sorted_by_descending_priority
      (Query example_manager example_queue 2 None example_store)
  ∧ length (Query example_manager example_queue 2 None example_store) = 2%nat.
Proof.
  assert (H1 : 0 <= 2) by lia.
  destruct (Query_returns_highest_priorities example_manager example_queue 2 None
              example_store H1) as (others & _ & Hsorted & Hlength & _).
  split_and!; [exact H1|exact Hsorted|]. rewrite Hlength. reflexivity.
Defined.

Lemma QueryAndOwn_lease_is_exclusive_example :
  store_answers example_env
  ∧ Forall (λ r, predicate r = _TaskIdToColumn (task_id (value r)))
      (rows_of example_store example_queue)
  ∧ frozen_timestamp_or_Now example_manager example_env
    < time_time example_env + 10 * 1000000
  ∧ ∃ returned store' stats',
      QueryAndOwn 5 example_manager example_env example_queue 10 5
        example_store example_stats = (Ok returned, store', stats')
      ∧ ∀ returned2,
          (QueryAndOwn 5 example_manager example_env example_queue 10 5
             store' stats').1.1 = Ok returned2 →
          ∀ t t2, t ∈ returned → t2 ∈ returned2 → task_id t ≠ task_id t2.
Proof.
  assert (H1 : store_answers example_env) by (by repeat split).
  pose proof (proj2 example_store_well_formed) as H2.
  assert (H3 : frozen_timestamp_or_Now example_manager example_env
               < time_time example_env + 10 * 1000000) by (by vm_compute).
  split_and!; [done..|].
  exact (QueryAndOwn_lease_is_exclusive 5 example_manager example_env example_queue
           10 5 example_store example_stats example_manager example_env 10 5
           H1 H2 H3).
Defined.

Lemma Delete_removes_tasks_for_good_example :
  example_queue ≠ ""
  ∧ Forall (λ r, predicate r = _TaskIdToColumn (task_id (value r)))
      (rows_of example_store example_queue)
  ∧ ∀ (calls : list (Call string)),
      Forall (λ result, ∀ ts, result = Ok ts → Forall (λ t, task_id t ≠ 2%N) ts)
        (QueryAndOwn_repeatedly 5 example_queue calls
           (Delete_in_store example_queue [1%N; 2%N] example_store)
           example_stats).1.1.
Proof.
  assert (H1 : example_queue ≠ "") by done.
  pose proof (proj2 example_store_well_formed) as H2.
  split_and!; [done..|].
  intros calls.
  apply (proj1 (Delete_removes_tasks_for_good (Payload:=string) 5 example_queue
                  [1%N; 2%N] example_store H1 H2)).
  apply elem_of_cons. right. apply elem_of_cons. by left.
Defined.

Lemma Schedule_then_QueryAndOwn_example :
  example_queue ≠ "" ∧ example_scheduled ≠ []
  ∧ Forall (λ t, queue t = example_queue ∧ 1 < task_ttl t) example_scheduled
  ∧ NoDup (task_id <$> example_scheduled)
  ∧ rows_of (∅ : DataStore) example_queue = []
  ∧ store_answers example_env
  ∧ Z.of_nat (length example_scheduled) <= 2
  ∧ 0 <= default (Now example_env_reversed)
           (timestamp_or_frozen example_manager (Some 500))
  ∧ ∃ returned,
      (QueryAndOwn 5 example_manager example_env example_queue 10 2
         (Schedule_in_store example_manager example_env_reversed example_scheduled
            (Some 500) ∅)
         example_stats).1.1 = Ok returned
      ∧ returned
        ≡ₚ (λ t, {| task_id := task_id t; queue := queue t; priority := priority t;
                    task_ttl := task_ttl t - 1; eta := 500;
                    last_lease := "GRRWorker@worker:7"; args := args t |})
             <$> example_scheduled.
Proof.
  assert (H1 : example_queue ≠ "") by done.
  assert (H2 : example_scheduled ≠ []) by done.
  assert (H3 : Forall (λ t, queue t = example_queue ∧ 1 < task_ttl t) example_scheduled).
  { repeat constructor; simpl; lia. }
  assert (H4 : NoDup (task_id <$> example_scheduled)).
  { apply (bool_decide_unpack _). by vm_compute. }
  assert (H5 : rows_of (∅ : DataStore) example_queue = []) by reflexivity.
  assert (H6 : store_answers example_env) by (by repeat split).
  assert (H7 : Z.of_nat (length example_scheduled) <= 2) by (simpl; lia).
  assert (H8 : 0 <= default (Now example_env_reversed)
                      (timestamp_or_frozen example_manager (Some 500)))
    by (by vm_compute).
  split_and!; [done..|].
  exact (Schedule_then_QueryAndOwn 5 example_manager example_env_reversed
           example_scheduled (Some 500) ∅ example_queue example_manager example_env
           10 2 example_stats H1 H2 H3 H4 H5 H6 H7 H8).
Defined.

(** With the dictionaries in reverse order the tasks are stored, and leased,
    in the reverse of the order in which they were scheduled. *)
Example example_schedule_in_reverse_order :
  task_id <$> example_scheduled = [11%N; 12%N]
  ∧ ∃ returned,
      (QueryAndOwn 5 example_manager example_env example_queue 10 2
         (Schedule_in_store example_manager example_env_reversed example_scheduled
            (Some 500) ∅)
         example_stats).1.1 = Ok returned
      ∧ task_id <$> returned = [12%N; 11%N].
Proof. split; [done|]. eexists. split; [vm_compute; reflexivity|done]. Qed.

Lemma GetNotificationShard_takes_turns_example :
  0 < num_notification_shards example_manager
  ∧ NoDup (GetAllNotificationShards example_manager "aff4:/W")
  ∧ (GetNotificationShard_repeatedly example_manager "aff4:/W" 5 ∅).1
    ≡ₚ Ok <$> GetAllNotificationShards example_manager "aff4:/W".
Proof.
  assert (H1 : 0 < num_notification_shards example_manager) by (by vm_compute).
  destruct (GetNotificationShard_takes_turns example_manager "aff4:/W" ∅ H1)
    as (Hdistinct & _ & Hturns).
  split_and!; [exact H1|exact Hdistinct|exact Hturns].
Defined.

Lemma DeleteNotification_reaches_notified_shard_example :
  0 < num_notification_shards example_manager
  ∧ num_notification_shards example_manager = num_notification_shards example_manager
  ∧ ∃ shard written deletion,
      (NotifyQueue example_SessionQueue example_manager example_env
         (example_notification 3) [] ∅).1
        = Ok ([] ++ [CreateNotifications shard written])
      ∧ DeleteNotification example_SessionQueue example_manager example_env
          (SessionID (session_id (example_notification 3))) None None
        = Ok [deletion]
      ∧ shard ∈ deleted_shards deletion
      ∧ deleted_session_ids deletion = [session_id (example_notification 3)].
Proof.
  assert (H1 : 0 < num_notification_shards example_manager) by (by vm_compute).
  assert (H2 : num_notification_shards example_manager
               = num_notification_shards example_manager) by reflexivity.
  split_and!; [done..|].
  exact (DeleteNotification_reaches_notified_shard example_SessionQueue example_manager
           example_env (example_notification 3) [] ∅ example_manager example_env
           None None H1 H2).
Defined.

Lemma GetUnsortedNotifications_keeps_latest_example :
  keyed_by_session_id ∅
  ∧ ∀ m, m ∈ example_DB_GetNotifications "aff4:/W"
               (frozen_timestamp_or_Now example_manager example_env) →
      ∃ n, _GetUnsortedNotifications example_DB_GetNotifications example_manager
             example_env "aff4:/W" (Some ∅) !! session_id m = Some n
           ∧ not_later m n.
Proof.
  assert (H1 : keyed_by_session_id ∅).
  { intros k n Hk. by rewrite lookup_empty in Hk. }
  split; [exact H1|].
  exact (proj2 (proj2 (proj2 (GetUnsortedNotifications_keeps_latest
           example_DB_GetNotifications example_manager example_env "aff4:/W" ∅ H1)))).
Defined.

Lemma with_block_writes_at_frozen_time_example :
  buffers_empty example_manager
  ∧ 0 < num_notification_shards example_manager
  ∧ (QueueManager_exit example_SessionQueue example_ClientQueue
       (run_calls (QueueManager_enter example_manager example_env) example_body)
       example_env ∅).1.1 = Ok example_manager
  ∧ ∀ w ts,
      w ∈ (QueueManager_exit example_SessionQueue example_ClientQueue
             (run_calls (QueueManager_enter example_manager example_env) example_body)
             example_env ∅).2 →
      ts ∈ write_timestamps w →
      ts = Some (Now example_env) ∨ (ts ≠ None ∧ ts ∈ call_timestamp <$> example_body).
Proof.
  assert (H1 : buffers_empty example_manager) by (by repeat split).
  assert (H2 : 0 < num_notification_shards example_manager) by (by vm_compute).
  split; [exact H1|]. split; [exact H2|].
  exact (with_block_writes_at_frozen_time example_SessionQueue example_ClientQueue
           example_manager example_env example_body example_env ∅ H1 H2).
Defined.

(** A manager without a shard cannot place the notification that the block
    queued: leaving the block raises, after the request and the task are
    written. *)
Example example_with_block_without_shards :
  QueueManager_exit example_SessionQueue example_ClientQueue
    (run_calls (QueueManager_enter (QueueManager_init (Some "GRRWorker") 0) example_env)
       example_body)
    example_env ∅
  = (Raise ZeroDivisionError, {[ "aff4:/W" := 1 ]},
     [StoreRequestsAndResponses [(example_client_request, Some 1000)] [] [];
      ScheduleTasks example_queue [("task:00000008", [example_task 8 1 5])] (Some 77)]).
Proof. by vm_compute. Qed.

Lemma DeleteRequest_dequeues_client_task_example :
  request example_client_request
  = Some {| name := "ListDirectory"; request_task_id := 1 |}
  ∧ client_id example_client_request ≠ ""
  ∧ example_ClientQueue (client_id example_client_request) ≠ ""
  ∧ ∃ columns,
      DeleteAttributes (example_ClientQueue (client_id example_client_request)) columns
      ∈ (QueueManager_Flush example_SessionQueue example_ClientQueue
           (DeleteRequest example_manager example_client_request).1 example_env ∅).2
      ∧ _TaskIdToColumn 1 ∈ columns.
Proof.
  assert (H1 : request example_client_request
               = Some {| name := "ListDirectory"; request_task_id := 1 |})
    by reflexivity.
  assert (H2 : client_id example_client_request ≠ "") by done.
  assert (H3 : example_ClientQueue (client_id example_client_request) ≠ "") by done.
  split_and!; [done..|].
  exact (proj2 (proj2 (DeleteRequest_dequeues_client_task example_SessionQueue
           example_ClientQueue example_manager example_client_request _ example_env ∅
           H1 H2 H3))).
Defined.

Lemma FetchCompletedResponses_reads_in_batches_example :
  0 <= 3
  ∧ ∃ batches unread,
      (FetchCompletedRequests example_DB_ReadCompletedRequests example_manager
         example_env "aff4:/flows/W:ABCDEF" None).*1 = concat batches ++ unread
      ∧ Forall (λ batch, batch ≠ []) batches
      ∧ (FetchCompletedResponses example_DB_ReadCompletedRequests
           example_DB_ReadResponses example_manager example_env
           "aff4:/flows/W:ABCDEF" None 3).1
        `prefix_of` (batches ≫= example_DB_ReadResponses).
Proof.
  assert (H1 : 0 <= 3) by lia.
  split; [exact H1|].
  destruct (FetchCompletedResponses_reads_in_batches example_DB_ReadCompletedRequests
              example_DB_ReadResponses example_manager example_env
              "aff4:/flows/W:ABCDEF" None 3 H1)
    as (batches & unread & Hcover & Hbatches & Hprefix & _).
  by exists batches, unread.
Defined.

Lemma FetchCompletedResponses_stops_above_limit_example :
  0 <= 3
  ∧ match (FetchCompletedResponses example_DB_ReadCompletedRequests
             example_DB_ReadResponses example_manager example_env
             "aff4:/flows/W:ABCDEF" None 3).2 with
    | None =>
        responses_count
          (FetchCompletedResponses example_DB_ReadCompletedRequests
             example_DB_ReadResponses example_manager example_env
             "aff4:/flows/W:ABCDEF" None 3).1 <= 3
    | Some e =>
        e = MoreDataException
        ∧ ∃ before last_yield,
            (FetchCompletedResponses example_DB_ReadCompletedRequests
               example_DB_ReadResponses example_manager example_env
               "aff4:/flows/W:ABCDEF" None 3).1 = before ++ [last_yield]
            ∧ responses_count before <= 3
              < responses_count
                  (FetchCompletedResponses example_DB_ReadCompletedRequests
                     example_DB_ReadResponses example_manager example_env
                     "aff4:/flows/W:ABCDEF" None 3).1
    end.
Proof.
  assert (H1 : 0 <= 3) by lia.
  split; [exact H1|].
  exact (FetchCompletedResponses_stops_above_limit example_DB_ReadCompletedRequests
           example_DB_ReadResponses example_manager example_env
           "aff4:/flows/W:ABCDEF" None 3 H1).
Defined.

Lemma Behaviour_add_and_sub_example :
  ({[ "Client Flow"; "ADVANCED" ]} : gset string) ⊆ FlowBehaviour_LEXICON
  ∧ Behaviour_sub FlowBehaviour_LEXICON
      ({[ "Global Flow" ]} ∪ {[ "Client Flow"; "ADVANCED" ]}) "Global Flow"
    = Ok ({[ "Client Flow"; "ADVANCED" ]} ∖ {[ "Global Flow" ]}).
Proof.
  assert (H1 : ({[ "Client Flow"; "ADVANCED" ]} : gset string) ⊆ FlowBehaviour_LEXICON).
  { apply (bool_decide_unpack _). by vm_compute. }
  split; [exact H1|].
  exact (proj1 (proj2 (proj2 (proj2 (proj2 (Behaviour_add_and_sub FlowBehaviour_LEXICON
           {[ "Client Flow"; "ADVANCED" ]} "Global Flow" H1)))))).
Defined.

Lemma Responses_First_returns_lowest_response_id_example :
  Responses_init example_status (Some example_request) (Some example_responses) true
  = Ok example_collator
  ∧ type_check_passes ∅ (Some example_request) (take 1 (_responses example_collator))
  ∧ Responses_First ∅ example_collator
    = Ok (payload <$> head (_responses example_collator)).
Proof.
  assert (H1 : Responses_init example_status (Some example_request)
                 (Some example_responses) true = Ok example_collator) by reflexivity.
  assert (H2 : type_check_passes ∅ (Some example_request)
                 (take 1 (_responses example_collator))).
  { exists example_request. split; [reflexivity|]. left. reflexivity. }
  split_and!; [done..|].
  exact (proj1 (Responses_First_returns_lowest_response_id example_status ∅
                  example_request (Some example_responses) true example_collator
                  H1 H2)).
Defined.

Lemma Decorated_runs_state_method_after_bookkeeping_example :
  (char_in "r" (mode (example_flow "rw" false)) = false
   ∨ PENDING_TERMINATION (example_flow "rw" false) = None)
  ∧ example_responses ≠ []
  ∧ Forall (λ m, auth_state m = AUTHENTICATED) example_responses
  ∧ Exists (λ m, type m = STATUS) example_responses
  ∧ ∃ r pre st post,
      Responses_init example_status (Some example_request) (Some example_responses) true
      = Ok r
      ∧ first_status_at (sort_by_response_id example_responses) pre st post
      ∧ success r = bool_decide (status_code (example_status (payload st)) = OK)
      ∧ Decorated example_status 5 true "Process" example_state_method
          (example_flow "rw" false) (ResponseList example_responses)
          (Some example_request) None
        = ([SaveResourceUsage (example_status (payload st));
            IncrementCounter "grr_worker_states_run"]
           ++ (if bool_decide ("Process" = "Start")
               then [IncrementCounter "flow_starts"] else [])
           ++ (example_state_method (GetRunner 5 (example_flow "rw" false)).1 r).1,
           match (example_state_method (GetRunner 5 (example_flow "rw" false)).1 r).2 with
           | Ok (self', result) => Ok (self', Some result)
           | Raise e => Raise e
           end).
Proof.
  assert (H1 : char_in "r" (mode (example_flow "rw" false)) = false
               ∨ PENDING_TERMINATION (example_flow "rw" false) = None)
    by (right; reflexivity).
  assert (H2 : example_responses ≠ []) by done.
  assert (H3 : Forall (λ m, auth_state m = AUTHENTICATED) example_responses)
    by (repeat constructor).
  assert (H4 : Exists (λ m, type m = STATUS) example_responses)
    by (do 4 apply Exists_cons_tl; by apply Exists_cons_hd).
  split_and!; [done..|].
  exact (Decorated_runs_state_method_after_bookkeeping example_status 5 true "Process"
           example_state_method (example_flow "rw" false) (Some example_request)
           example_responses H1 H2 H3 H4).
Defined.

Lemma Decorated_without_status_does_not_run_example :
  (char_in "r" (mode (example_flow "rw" false)) = false
   ∨ PENDING_TERMINATION (example_flow "rw" false) = None)
  ∧ example_responses_without_status ≠ []
  ∧ Forall (λ m, is_dropped true m = false → type m ≠ STATUS)
      example_responses_without_status
  ∧ Decorated example_status 5 true "Process" example_state_method
      (example_flow "rw" false) (ResponseList example_responses_without_status)
      (Some example_request) None
    = ([], Raise (FlowError "No valid Status message.")).
Proof.
  assert (H1 : char_in "r" (mode (example_flow "rw" false)) = false
               ∨ PENDING_TERMINATION (example_flow "rw" false) = None)
    by (right; reflexivity).
  assert (H2 : example_responses_without_status ≠ []) by done.
  assert (H3 : Forall (λ m, is_dropped true m = false → type m ≠ STATUS)
                 example_responses_without_status).
  { repeat constructor; simpl; intros; done. }
  split_and!; [done..|].
  exact (Decorated_without_status_does_not_run example_status 5 true "Process"
           example_state_method (example_flow "rw" false) (Some example_request)
           example_responses_without_status H1 H2 H3).
Defined.

Lemma QueryAndOwn_leases_again_after_the_lease_example :
  store_answers example_env ∧ store_answers example_env_later
  ∧ Forall (λ r, predicate r = _TaskIdToColumn (task_id (value r)))
      (rows_of example_store example_queue)
  ∧ 0 <= time_time example_env + 10 * 1000000
      <= frozen_timestamp_or_Now example_manager example_env_later
  ∧ ∃ returned store' stats' returned2 store2 stats2,
      QueryAndOwn 5 example_manager example_env example_queue 10 5
        example_store example_stats = (Ok returned, store', stats')
      ∧ QueryAndOwn 5 example_manager example_env_later example_queue 10 5
          store' stats' = (Ok returned2, store2, stats2)
      ∧ (Z.of_nat (length (rows_of store' example_queue)) <= 5 →
         ∀ t, t ∈ returned → 1 < task_ttl t →
           ∃ t2, t2 ∈ returned2 ∧ task_id t2 = task_id t
                 ∧ task_ttl t2 = task_ttl t - 1
                 ∧ eta t2 = time_time example_env + 10 * 1000000).
Proof.
  assert (H1 : store_answers example_env) by (by repeat split).
  assert (H2 : store_answers example_env_later) by (by repeat split).
  pose proof (proj2 example_store_well_formed) as H3.
  assert (H4 : 0 <= time_time example_env + 10 * 1000000
               <= frozen_timestamp_or_Now example_manager example_env_later)
    by (by vm_compute).
  split_and!; [done..|].
  exact (QueryAndOwn_leases_again_after_the_lease 5 example_manager example_env
           example_queue 10 5 example_store example_stats example_manager
           example_env_later 10 5 H1 H2 H3 H4).
Defined.

Lemma QueryAndOwn_hands_out_at_most_ttl_times_example :
  queue_well_formed (rows_of example_store example_queue)
  ∧ example_row 1 0 5 100 ∈ rows_of example_store example_queue
  ∧ (times_returned (task_id (value (example_row 1 0 5 100)))
       (QueryAndOwn_repeatedly 5 example_queue example_sequence
          example_store example_stats).1.1
     <= Z.to_nat (task_ttl (value (example_row 1 0 5 100)) - 1))%nat.
Proof.
  pose proof example_store_well_formed as H1.
  assert (H2 : example_row 1 0 5 100 ∈ rows_of example_store example_queue).
  { apply (bool_decide_unpack _). by vm_compute. }
  split_and!; [done..|].
  exact (QueryAndOwn_hands_out_at_most_ttl_times 5 example_queue example_sequence
           example_store example_stats (example_row 1 0 5 100) H1 H2).
Defined.

Lemma commit_without_context_writes_nothing_example :
  lease_expired example_flow_without_context = false
  ∧ flow_class example_flow_without_context = GRRFlow
  ∧ char_in "w" (mode example_flow_without_context) = true
  ∧ context example_flow_without_context = None
  ∧ Forall (λ commit : Env → Flow string → gmap string Z
                       → M string (Flow string * gmap string Z),
        commit example_env example_flow_without_context ∅
        = ([Hook "Save"],
           Raise (IOError ("Trying to write a flow without context: "
                           +:+ urn example_flow_without_context +:+ "."))))
      [FlowBase_Flush example_SessionQueue example_ClientQueue 5;
       FlowBase_Close example_SessionQueue example_ClientQueue 5].
Proof.
  assert (H1 : lease_expired example_flow_without_context = false) by reflexivity.
  assert (H2 : flow_class example_flow_without_context = GRRFlow) by reflexivity.
  assert (H3 : char_in "w" (mode example_flow_without_context) = true) by reflexivity.
  assert (H4 : context example_flow_without_context = None) by reflexivity.
  split_and!; [done..|].
  exact (commit_without_context_writes_nothing example_SessionQueue example_ClientQueue
           5 example_env example_flow_without_context ∅ H1 H2 H3 H4).
Defined.

Lemma Responses_yield_only_checked_records_example :
  Responses_init example_status (Some example_request) (Some example_responses) true
  = Ok example_collator
  ∧ ∀ y, y ∈ (Responses_iter ∅ example_collator).1 →
      ∃ m, m ∈ example_responses ∧ payload m = y ∧ type m = MESSAGE
           ∧ auth_state m ≠ DESYNCHRONIZED
           ∧ (true = true → auth_state m = AUTHENTICATED).
Proof.
  assert (H1 : Responses_init example_status (Some example_request)
                 (Some example_responses) true = Ok example_collator) by reflexivity.
  split; [exact H1|].
  exact (Responses_yield_only_checked_records example_status ∅ (Some example_request)
           true example_responses example_collator H1).
Defined.

Lemma Responses_keep_last_iterator_example :
  example_responses ≠ []
  ∧ Forall (λ m, auth_state m = AUTHENTICATED) example_responses
  ∧ Exists (λ m, type m = STATUS) example_responses
  ∧ ∃ self pre st post,
      Responses_init example_status (Some example_request) (Some example_responses) true
      = Ok self
      ∧ first_status_at (sort_by_response_id example_responses) pre st post
      ∧ iterator self = payload <$> last (filter (λ m, type m = ITERATOR) pre).
Proof.
  assert (H1 : example_responses ≠ []) by done.
  assert (H2 : Forall (λ m, auth_state m = AUTHENTICATED) example_responses)
    by (repeat constructor).
  assert (H3 : Exists (λ m, type m = STATUS) example_responses)
    by (do 4 apply Exists_cons_tl; by apply Exists_cons_hd).
  split_and!; [done..|].
  exact (Responses_keep_last_iterator example_status (Some example_request) true
           example_responses H1 H2 H3).
Defined.
